(** * Vietnamese legal-document segmenter and structural differ

    A shallow embedding of [preprocess/segmenter.py] and
    [preprocess/diff_engine.py], followed by the properties the
    specification states about them.

    Python [str] values are sequences of Unicode code points, so a string is
    a [list N] here: [len] is [length], slicing is [firstn]/[skipn].  The
    regular expressions of the segmenter are kept as syntax trees and run by
    a backtracking matcher with the semantics of Python's [re] module. *)

From Stdlib Require Import Strings.String Strings.Ascii Numbers.DecimalString.
From Stdlib Require Import List NArith ZArith QArith Bool Arith Lia.
Import ListNotations.

Close Scope Q_scope.
Open Scope nat_scope.
Open Scope list_scope.

(* ================================================================== *)
(** ** Python strings *)

Module Py.

(** A Python [str]: its code points. *)
Definition str := list N.

Fixpoint utf8 (bs : list N) : str :=
  match bs with
  | [] => []
  | b0 :: t0 =>
    if (b0 <? 128)%N then b0 :: utf8 t0
    else
      match t0 with
      | [] => [b0]
      | b1 :: t1 =>
        if (b0 <? 224)%N then ((b0 - 192) * 64 + (b1 - 128))%N :: utf8 t1
        else
          match t1 with
          | [] => [b0; b1]
          | b2 :: t2 =>
            if (b0 <? 240)%N
            then ((b0 - 224) * 4096 + (b1 - 128) * 64 + (b2 - 128))%N :: utf8 t2
            else
              match t2 with
              | [] => [b0; b1; b2]
              | b3 :: t3 =>
                ((b0 - 240) * 262144 + (b1 - 128) * 4096
                 + (b2 - 128) * 64 + (b3 - 128))%N :: utf8 t3
              end
          end
      end
  end.

(** A string literal of the source, read as the code points it denotes. *)
Definition U (s : string) : str :=
  utf8 (map N_of_ascii (list_ascii_of_string s)).

Definition str_eqb (a b : str) : bool :=
  if list_eq_dec N.eq_dec a b then true else false.

Definition ostr_eqb (a b : option str) : bool :=
  match a, b with
  | Some x, Some y => str_eqb x y
  | None, None => true
  | _, _ => false
  end.

(** Truthiness of a string: [if s] holds for the non-empty ones. *)
Definition truthy (s : str) : bool :=
  match s with [] => false | _ => true end.

Definition NL : N := 10.
Definition CR : N := 13.

(** [str.isspace] of one character, which is also what [\s] matches in a
    [str] pattern. *)
Definition isspace (c : N) : bool :=
  ((9 <=? c) && (c <=? 13) || (28 <=? c) && (c <=? 32)
   || (c =? 133) || (c =? 160) || (c =? 5760)
   || (8192 <=? c) && (c <=? 8202)
   || (c =? 8232) || (c =? 8233) || (c =? 8239) || (c =? 8287)
   || (c =? 12288))%N.

Fixpoint lstrip (s : str) : str :=
  match s with
  | c :: s' => if isspace c then lstrip s' else s
  | [] => []
  end.

Definition rstrip (s : str) : str := rev (lstrip (rev s)).

(** [s.strip()] *)
Definition strip (s : str) : str := rstrip (lstrip s).

(** [s[a:b]] for [0 <= a], [0 <= b]. *)
Definition slice (s : str) (a b : nat) : str := firstn (b - a) (skipn a s).

(** [s.split(sep)] for a one-character separator. *)
Fixpoint split (sep : N) (s : str) : list str :=
  match s with
  | [] => [[]]
  | c :: s' =>
    if (c =? sep)%N then [] :: split sep s'
    else
      match split sep s' with
      | l :: ls => (c :: l) :: ls
      | [] => [[c]]
      end
  end.

Fixpoint startswith (p s : str) : bool :=
  match p, s with
  | [], _ => true
  | a :: p', b :: s' => (a =? b)%N && startswith p' s'
  | _ :: _, [] => false
  end.

(** [p in s] *)
Fixpoint contains (p s : str) : bool :=
  startswith p s ||
  match s with
  | [] => false
  | _ :: s' => contains p s'
  end.

(** [str(n)] for a non-negative integer. *)
Definition str_of_nat (n : nat) : str :=
  U (NilEmpty.string_of_uint (Nat.to_uint n)).

End Py.
Import Py.

(** The parts of the Unicode character database the code reaches through
    [str.upper], [\d] and [re.IGNORECASE]. *)
Class Unicode := {
  (** [\d] in a [str] pattern: the decimal digits (category Nd). *)
  isdecimal : N -> bool;
  (** Two characters are equal under [re.IGNORECASE] when their keys are. *)
  casekey : N -> N;
  (** What [str.upper] turns one character into. *)
  upper1 : N -> list N
}.

(** [s.upper()] *)
Definition upper `{Unicode} (s : str) : str := flat_map upper1 s.

(* ================================================================== *)
(** ** Regular expressions *)

Module Re.

(** The fragment of [re] syntax the program uses.  Every quantifier of the
    source applies to a single character class. *)
Inductive regex : Type :=
| Eps
| Chr (p : N -> bool)
| Rep (greedy : bool) (lo : nat) (hi : option nat) (p : N -> bool)
| Cat (r1 r2 : regex)
| Alt (r1 r2 : regex)
| Grp (i : nat) (r : regex)
| Ahead (r : regex)
| Bol (multiline : bool)
| Eol (multiline : bool)
| EndZ.

(** A position in the subject: its index, the character before it and the
    characters from it on. *)
Record cursor := Cursor { pos : nat; prev : option N; rest : str }.

Definition caps := list (nat * str).

Fixpoint get_group (i : nat) (g : caps) : str :=
  match g with
  | [] => []
  | (j, s) :: g' => if i =? j then s else get_group i g'
  end.

Definition can_take (hi : option nat) : bool :=
  match hi with Some 0 => false | _ => true end.

Definition dec (hi : option nat) : option nat :=
  match hi with Some n => Some (pred n) | None => None end.

Definition stop {A} (lo : nat) (c : cursor) (k : cursor -> option A) : option A :=
  match lo with 0 => k c | S _ => None end.

(** [p{lo,hi}]: as many characters as possible first. *)
Fixpoint rep_greedy {A} (p : N -> bool) (lo : nat) (hi : option nat)
    (i : nat) (pv : option N) (xs : str) (k : cursor -> option A) : option A :=
  match xs with
  | x :: xs' =>
    if p x && can_take hi then
      match rep_greedy p (pred lo) (dec hi) (S i) (Some x) xs' k with
      | Some r => Some r
      | None => stop lo (Cursor i pv xs) k
      end
    else stop lo (Cursor i pv xs) k
  | [] => stop lo (Cursor i pv xs) k
  end.

(** [p{lo,hi}?]: as few characters as possible first. *)
Fixpoint rep_lazy {A} (p : N -> bool) (lo : nat) (hi : option nat)
    (i : nat) (pv : option N) (xs : str) (k : cursor -> option A) : option A :=
  match stop lo (Cursor i pv xs) k with
  | Some r => Some r
  | None =>
    match xs with
    | x :: xs' =>
      if p x && can_take hi
      then rep_lazy p (pred lo) (dec hi) (S i) (Some x) xs' k
      else None
    | [] => None
    end
  end.

Definition at_bol (ml : bool) (c : cursor) : bool :=
  match prev c with
  | None => true
  | Some x => ml && (x =? NL)%N
  end.

Definition at_eol (ml : bool) (c : cursor) : bool :=
  match rest c with
  | [] => true
  | x :: xs => (x =? NL)%N && (ml || match xs with [] => true | _ => false end)
  end.

Definition at_end (c : cursor) : bool :=
  match rest c with [] => true | _ => false end.

(** The backtracking matcher: [k] is what remains to be matched. *)
Fixpoint run (r : regex) (c : cursor) (g : caps)
    (k : cursor -> caps -> option (cursor * caps)) : option (cursor * caps) :=
  match r with
  | Eps => k c g
  | Chr p =>
    match rest c with
    | x :: xs => if p x then k (Cursor (S (pos c)) (Some x) xs) g else None
    | [] => None
    end
  | Rep true lo hi p =>
    rep_greedy p lo hi (pos c) (prev c) (rest c) (fun c' => k c' g)
  | Rep false lo hi p =>
    rep_lazy p lo hi (pos c) (prev c) (rest c) (fun c' => k c' g)
  | Cat r1 r2 => run r1 c g (fun c' g' => run r2 c' g' k)
  | Alt r1 r2 =>
    match run r1 c g k with
    | Some res => Some res
    | None => run r2 c g k
    end
  | Grp i r1 =>
    run r1 c g
      (fun c' g' => k c' ((i, firstn (pos c' - pos c) (rest c)) :: g'))
  | Ahead r1 =>
    match run r1 c g (fun c' g' => Some (c', g')) with
    | Some (_, g') => k c g'
    | None => None
    end
  | Bol ml => if at_bol ml c then k c g else None
  | Eol ml => if at_eol ml c then k c g else None
  | EndZ => if at_end c then k c g else None
  end.

(** A match object. *)
Record mobj := Match { m_start : nat; m_end : nat; m_caps : caps }.

(** [m.group(i)] *)
Definition group (i : nat) (m : mobj) : str := get_group i (m_caps m).

(** One attempt at cursor [c]; with [must_advance] an empty match is
    refused (the scanner sets it after an empty match). *)
Definition attempt (r : regex) (must_advance : bool) (c : cursor) : option mobj :=
  match run r c []
          (fun c' g' =>
             if must_advance && (pos c' =? pos c) then None else Some (c', g'))
  with
  | Some (c', g') => Some (Match (pos c) (pos c') g')
  | None => None
  end.

(** [re.match(r, s)] *)
Definition rmatch (r : regex) (s : str) : option mobj :=
  attempt r false (Cursor 0 None s).

Fixpoint search_from (r : regex) (i : nat) (pv : option N) (xs : str) : option mobj :=
  match attempt r false (Cursor i pv xs) with
  | Some m => Some m
  | None =>
    match xs with
    | x :: xs' => search_from r (S i) (Some x) xs'
    | [] => None
    end
  end.

(** [r.search(s)] *)
Definition search (r : regex) (s : str) : option mobj := search_from r 0 None s.

(** The scanner behind [finditer] and [sub]: [skip] characters still belong
    to the match found last. *)
Fixpoint scan (r : regex) (i : nat) (pv : option N) (xs : str) (skip : nat) : list mobj :=
  match skip with
  | S n =>
    match xs with
    | x :: xs' => scan r (S i) (Some x) xs' n
    | [] => []
    end
  | 0 =>
    let go := fun sk =>
      match xs with
      | x :: xs' => scan r (S i) (Some x) xs' sk
      | [] => []
      end in
    match attempt r false (Cursor i pv xs) with
    | None => go 0
    | Some m =>
      if m_end m =? i then
        m :: match attempt r true (Cursor i pv xs) with
             | None => go 0
             | Some m2 => m2 :: go (m_end m2 - i - 1)
             end
      else m :: go (m_end m - i - 1)
    end
  end.

(** [list(r.finditer(s))] *)
Definition finditer (r : regex) (s : str) : list mobj := scan r 0 None s 0.

Fixpoint splice (s : str) (repl : str) (last : nat) (ms : list mobj) : str :=
  match ms with
  | [] => skipn last s
  | m :: ms' => slice s last (m_start m) ++ repl ++ splice s repl (m_end m) ms'
  end.

(** [re.sub(r, repl, s)] for a replacement without group references. *)
Definition sub (r : regex) (repl : str) (s : str) : str :=
  splice s repl 0 (finditer r s).

(** *** Building patterns *)

Definition chr (c : N) : N -> bool := fun x => (x =? c)%N.
Definition oneof (s : str) : N -> bool := fun x => existsb (N.eqb x) s.
Definition range (a b : N) : N -> bool := fun x => ((a <=? x) && (x <=? b))%N.
Definition either (p q : N -> bool) : N -> bool := fun x => p x || q x.
Definition notc (p : N -> bool) : N -> bool := fun x => negb (p x).
Definition any : N -> bool := fun _ => true.
(** [.] without [re.DOTALL] *)
Definition dot : N -> bool := notc (chr NL).

(** A class under [re.IGNORECASE]. *)
Definition ichr `{Unicode} (c : N) : N -> bool :=
  fun x => (casekey x =? casekey c)%N.
Definition ioneof `{Unicode} (s : str) : N -> bool :=
  fun x => existsb (fun c => (casekey x =? casekey c)%N) s.

Fixpoint lit (s : str) : regex :=
  match s with
  | [] => Eps
  | c :: s' => Cat (Chr (chr c)) (lit s')
  end.

Fixpoint ilit `{Unicode} (s : str) : regex :=
  match s with
  | [] => Eps
  | c :: s' => Cat (Chr (ichr c)) (ilit s')
  end.

Definition star (p : N -> bool) : regex := Rep true 0 None p.
Definition plus (p : N -> bool) : regex := Rep true 1 None p.
Definition opt (p : N -> bool) : regex := Rep true 0 (Some 1) p.
Definition star_lazy (p : N -> bool) : regex := Rep false 0 None p.
Definition atleast (n : nat) (p : N -> bool) : regex := Rep true n None p.

Fixpoint alts (rs : list regex) : regex :=
  match rs with
  | [] => Eps
  | [r] => r
  | r :: rs' => Alt r (alts rs')
  end.

End Re.
Import Re.

Infix "+>" := Cat (at level 60, right associativity).
Infix "<|>" := Alt (at level 65, right associativity).

(* ================================================================== *)
(** ** The segmenter: [preprocess/segmenter.py] *)

(** *** Data model

    The program builds dictionaries; a key that some dictionaries have and
    others lack is an [option] field.  Reading a clause goes through
    [.get(key, default)] and truthiness everywhere, so an absent ["no"] or
    ["text"] behaves as the empty string and needs no [option]. *)

Record SubPoint := { marker : str; sp_text : str }.
Record Point := { letter : str; pt_text : str; sub_points : list SubPoint }.
Record Clause := { no : str; text : str; points : list Point }.

Record Article := {
  article : option str;
  chapter : option str;
  section : option str;
  title : option str;
  chapter_title : option str;
  clauses : list Clause
}.

(** What the validator reports.  The messages are f-strings around a
    formatted number; the constructor stands for the fixed words and
    carries the number. *)
Inductive Issue : Type :=
| Low_content_preservation (ratio : Q)   (* "Low content preservation: {ratio:.2%}" *)
| Content_duplication_detected (ratio : Q) (* "Content duplication detected: {ratio:.2%}" *)
| No_articles_found                      (* "No articles found" *)
| Very_long_clause_detected (chars : nat) (* "Very long clause detected ({chars} chars)" *)
| Empty_document.                        (* "Empty document" *)

Record Stats := {
  original_length : nat;
  segmented_length : nat;
  preservation_ratio : Q;
  total_articles : nat;
  total_clauses : nat;
  total_points : nat
}.

Record Validation := {
  status : str;
  issues : list Issue;
  stats : option Stats
}.

(** The dictionary [segment] returns, and that the differ reads. *)
Record Structure := {
  articles : list Article;
  strategy_used : option str;
  validation : option Validation;
  document_type : option str
}.

(** [doc_meta]: [.get('title', '')] and [.get('number', '')]. *)
Record Meta := { meta_title : str; meta_number : str }.

Definition mk_clause (n t : str) : Clause :=
  {| no := n; text := t; points := [] |}.

Definition only_articles (l : list Article) : Structure :=
  {| articles := l; strategy_used := None;
     validation := None; document_type := None |}.

Definition with_strategy (l : list Article) (s : str) : Structure :=
  {| articles := l; strategy_used := Some s;
     validation := None; document_type := None |}.

Section Segmenter.
Context `{Unicode}.

(** *** Patterns *)

Definition upto (a b : N) : str :=
  map N.of_nat (seq (N.to_nat a) (S (N.to_nat b) - N.to_nat a)).

(** [[a-zA-Z]] under [re.IGNORECASE] *)
Definition iletter : N -> bool := ioneof (upto 97 122 ++ upto 65 90).

(** [[IVXLCDM]] *)
Definition roman_digits : str := U "IVXLCDM".

(** [[\.\:\-]] *)
Definition label_punct : N -> bool := oneof (U ".:-").

(** [[\.\)]] *)
Definition clause_punct : N -> bool := oneof (U ".)").

(** [(?:^|\n)] under [re.MULTILINE] *)
Definition line_start : regex := Bol true <|> Chr (chr NL).

Definition ART_LAW : regex :=
  Grp 1 (ilit (U "Điều") +> plus isspace
         +> Grp 2 (plus isdecimal +> opt iletter))
  +> star isspace +> opt label_punct +> star isspace
  +> Grp 3 (star_lazy any)
  +> Ahead ((star isspace +> ilit (U "Điều") +> plus isspace +> plus isdecimal)
             <|> Eol true).

Definition CHAPTER : regex :=
  line_start +> star isspace
  +> Grp 1 (alts (map ilit [U "Chương"; U "CHƯƠNG"; U "Phần"; U "PHẦN";
                             U "Mục"; U "MỤC"; U "Tiết"; U "TIẾT"])
             +> plus isspace
             +> (Rep true 1 None (ioneof roman_digits) <|> plus isdecimal))
  +> star isspace +> opt label_punct +> star isspace
  +> Grp 2 (star_lazy (notc (oneof [CR; NL])))
  +> Ahead (Chr (chr NL) <|> Eol true).

(** [\n\s*(?:Điều|Chương|Phần|Mục|Tiết)] *)
Definition next_unit : regex :=
  Chr (chr NL) +> star isspace
  +> alts (map lit [U "Điều"; U "Chương"; U "Phần"; U "Mục"; U "Tiết"]).

(** [\n\s*\d+\s*[\.\)]] *)
Definition next_clause : regex :=
  Chr (chr NL) +> star isspace +> plus isdecimal +> star isspace
  +> Chr clause_punct.

(** [\n\s*[a-z]\s*\)] *)
Definition next_point : regex :=
  Chr (chr NL) +> star isspace +> Chr (range 97 122) +> star isspace
  +> Chr (chr 41).

(** [\n\s*-] *)
Definition next_dash : regex :=
  Chr (chr NL) +> star isspace +> Chr (chr 45).

Definition CLAUSE : regex :=
  line_start +> star isspace +> Grp 1 (plus isdecimal) +> star isspace
  +> Chr clause_punct +> plus isspace
  +> Grp 2 (star_lazy (notc (chr NL)))
  +> Ahead (next_clause <|> next_point <|> next_unit <|> EndZ).

Definition POINT : regex :=
  line_start +> star isspace +> Grp 1 (Chr (range 97 122)) +> star isspace
  +> Chr (chr 41) +> plus isspace
  +> Grp 2 (star_lazy (notc (chr NL)))
  +> Ahead (next_point <|> next_clause <|> next_unit <|> EndZ).

Definition SUBPOINT : regex :=
  line_start +> star isspace +> Grp 1 (Chr (chr 45)) +> plus isspace
  +> Grp 2 (star_lazy (notc (chr NL)))
  +> Ahead (next_dash <|> next_point <|> next_clause <|> EndZ).

Definition ROMAN : regex :=
  line_start +> star isspace +> Grp 1 (Rep true 1 None (ioneof roman_digits))
  +> star isspace +> Chr (chr 46) +> star isspace
  +> Grp 2 (star_lazy (notc (oneof [CR; NL])))
  +> Ahead (Chr (chr NL) <|> Eol true).

(** [DOC_TYPE_PATTERNS], in the order the dictionary is written. *)
Definition DOC_TYPE_PATTERNS : list (str * regex) :=
  [ (U "law", ilit (U "LUẬT") <|> ilit (U "LAW"));
    (U "decree",
     (ilit (U "NGHỊ") +> star isspace +> ilit (U "ĐỊNH")) <|> ilit (U "DECREE"));
    (U "circular",
     (ilit (U "THÔNG") +> star isspace +> ilit (U "TƯ")) <|> ilit (U "CIRCULAR"));
    (U "decision",
     (ilit (U "QUYẾT") +> star isspace +> ilit (U "ĐỊNH")) <|> ilit (U "DECISION"));
    (U "directive",
     (ilit (U "CHỈ") +> star isspace +> ilit (U "THỊ")) <|> ilit (U "DIRECTIVE"));
    (U "instruction",
     (ilit (U "HƯỚNG") +> star isspace +> ilit (U "DẪN")) <|> ilit (U "INSTRUCTION")) ].

(** [r'^(\d+)\s*[\.\)]\s+(.+)'], no flags *)
Definition NUMBERED_LINE : regex :=
  Bol false +> Grp 1 (plus isdecimal) +> star isspace +> Chr clause_punct
  +> plus isspace +> Grp 2 (plus dot).

(** The upper-case letters listed in the header patterns, after [A-Z]. *)
Definition VN_UPPER : str :=
  U "ÀÁẠẢÃÂẦẤẬẨẪĂẰẮẶẲẴÈÉẸẺẼÊỀẾỆỂỄÌÍỊỈĨÒÓỌỎÕÔỒỐỘỔỖƠỜỚỢỞỠÙÚỤỦŨƯỪỨỰỬỮỲÝỴỶỸĐ".

Definition upper_letter : N -> bool := either (range 65 90) (oneof VN_UPPER).

Definition header_patterns : list regex :=
  [ Bol false +> Rep true 1 None (oneof roman_digits) +> Chr (chr 46)
    +> plus isspace +> plus dot;
    Bol false +> plus isdecimal +> Chr (chr 46) +> plus isspace
    +> Chr upper_letter +> plus dot;
    Bol false +> atleast 10 (either upper_letter isspace) +> Eol false ].

Definition keywords : list str :=
  [ U "MỤC TIÊU"; U "YÊU CẦU"; U "NHIỆM VỤ"; U "QUY ĐỊNH"; U "NGUYÊN TẮC";
    U "PHẠM VI"; U "ĐỐI TƯỢNG"; U "GIẢI THÍCH"; U "THI HÀNH" ].

(** *** Normalisation and document type *)

Definition _normalize_text (text : str) : str :=
  let text := strip text in
  let text := sub (lit [CR; NL]) [NL] text in
  let text := sub (lit [CR]) [NL] text in
  let text := sub (Chr (chr NL) +> star isspace +> Chr (chr NL)
                   +> star isspace +> Chr (chr NL)) [NL; NL] text in
  let text := sub (plus (oneof [32; 9]%N)) [32%N] text in
  text.

Definition found (r : regex) (s : str) : bool :=
  match search r s with Some _ => true | None => false end.

(** [for doc_type, pattern in DOC_TYPE_PATTERNS.items(): if hit: return doc_type] *)
Fixpoint first_type (hit : regex -> bool) (ps : list (str * regex)) : option str :=
  match ps with
  | [] => None
  | (doc_type, pattern) :: ps' =>
    if hit pattern then Some doc_type else first_type hit ps'
  end.

Definition detect_in_text (text : str) : str :=
  let text_upper := upper (firstn 1000 text) in
  match first_type (fun pattern => found pattern text_upper) DOC_TYPE_PATTERNS with
  | Some doc_type => doc_type
  | None => U "generic"
  end.

Definition _detect_document_type (text : str) (doc_meta : option Meta) : str :=
  match doc_meta with
  | Some meta =>
    let title := upper (meta_title meta) in
    let number := upper (meta_number meta) in
    match first_type (fun pattern => found pattern title || found pattern number)
                     DOC_TYPE_PATTERNS with
    | Some doc_type => doc_type
    | None => detect_in_text text
    end
  | None => detect_in_text text
  end.


(** *** Clauses, points and sub-points *)

Definition _parse_points_advanced (content : str) : list Point :=
  map (fun m =>
         let text := strip (group 2 m) in
         {| letter := group 1 m;
            pt_text := text;
            sub_points :=
              map (fun sub_match =>
                     {| marker := group 1 sub_match;
                        sp_text := strip (group 2 sub_match) |})
                  (finditer SUBPOINT text) |})
      (finditer POINT content).

(** [current_clause["points"] = _parse_points_advanced(current_clause["text"])] *)
Definition with_points (c : Clause) : Clause :=
  {| no := no c; text := text c; points := _parse_points_advanced (text c) |}.

(** [clauses.append(current_clause)] when there is a current clause. *)
Definition flush_clause (clauses : list Clause) (current_clause : option Clause)
    : list Clause :=
  match current_clause with
  | Some c => clauses ++ [with_points c]
  | None => clauses
  end.

(** One turn of the line loop of [_parse_clauses_advanced]. *)
Definition clause_line (st : list Clause * option Clause) (line : str)
    : list Clause * option Clause :=
  let (clauses, current_clause) := st in
  let line := strip line in
  if negb (truthy line) then st
  else
    match rmatch NUMBERED_LINE line with
    | Some clause_match =>
      (flush_clause clauses current_clause,
       Some (mk_clause (group 1 clause_match) (group 2 clause_match)))
    | None =>
      match current_clause with
      | Some c =>
        (clauses,
         Some {| no := no c; text := text c ++ U " " ++ line; points := points c |})
      | None => (clauses, Some (mk_clause (U "1") line))
      end
    end.

Definition _parse_clauses_advanced (content : str) : list Clause :=
  if negb (truthy content) then []
  else
    match finditer CLAUSE content with
    | (_ :: _) as clause_matches =>
      map (fun m =>
             let clause_text := strip (group 2 m) in
             {| no := group 1 m; text := clause_text;
                points := _parse_points_advanced clause_text |})
          clause_matches
    | [] =>
      let (clauses, current_clause) :=
        fold_left clause_line (split NL content) ([], None) in
      let clauses := flush_clause clauses current_clause in
      match clauses with
      | [] => if truthy content then [mk_clause (U "1") content] else []
      | _ :: _ => clauses
      end
    end.

(** [if not clauses and content: clauses = [{"no": "1", "text": content, ...}]] *)
Definition or_whole (clauses : list Clause) (content : str) : list Clause :=
  match clauses with
  | [] => if truthy content then [mk_clause (U "1") content] else []
  | _ :: _ => clauses
  end.

(** [matches[i + 1].start() if i + 1 < len(matches) else len(text)] *)
Definition span_end (text : str) (following : list mobj) : nat :=
  match following with
  | m' :: _ => m_start m'
  | [] => length text
  end.

(** *** The strategies *)

Fixpoint _segment_by_dieu (text : str) (matches : list mobj) : list Article :=
  match matches with
  | [] => []
  | m :: following =>
    let article_num := U "Điều " ++ group 2 m in
    let article_title := strip (group 3 m) in
    let content := strip (slice text (m_end m) (span_end text following)) in
    let clauses := or_whole (_parse_clauses_advanced content) content in
    {| article := Some article_num; chapter := None; section := None;
       title := Some article_title; chapter_title := None;
       clauses := clauses |}
    :: _segment_by_dieu text following
  end.

(** [article["chapter"] = chapter_num; article["chapter_title"] = chapter_title] *)
Definition in_chapter (chapter_num chapter_title : str) (a : Article) : Article :=
  {| article := article a; chapter := Some chapter_num; section := section a;
     title := title a; chapter_title := Some chapter_title;
     clauses := clauses a |}.

Definition chapter_unit (chapter_num chapter_title : str) (cs : list Clause)
    : Article :=
  {| article := None; chapter := Some chapter_num; section := None;
     title := Some chapter_title; chapter_title := None; clauses := cs |}.

Definition section_unit (section_num section_title : str) (cs : list Clause)
    : Article :=
  {| article := None; chapter := None; section := Some section_num;
     title := Some section_title; chapter_title := None; clauses := cs |}.

Fixpoint _segment_by_chapters_advanced (text : str) (matches : list mobj)
    : list Article :=
  match matches with
  | [] => []
  | m :: following =>
    let chapter_num := group 1 m in
    let chapter_title := strip (group 2 m) in
    let content := strip (slice text (m_end m) (span_end text following)) in
    let dieu_in_chapter := finditer ART_LAW content in
    (if 1 <=? length dieu_in_chapter
     then map (in_chapter chapter_num chapter_title)
              (_segment_by_dieu content dieu_in_chapter)
     else [chapter_unit chapter_num chapter_title
             (or_whole (_parse_clauses_advanced content) content)])
    ++ _segment_by_chapters_advanced text following
  end.

Fixpoint _segment_by_roman_advanced (text : str) (matches : list mobj)
    : list Article :=
  match matches with
  | [] => []
  | m :: following =>
    let section_num := group 1 m in
    let section_title := strip (group 2 m) in
    let content := strip (slice text (m_end m) (span_end text following)) in
    section_unit section_num section_title
      (or_whole (_parse_clauses_advanced content) content)
    :: _segment_by_roman_advanced text following
  end.

(** *** The line-by-line fallback *)

Definition is_header (line : str) : bool :=
  existsb (fun pattern =>
             match rmatch pattern line with Some _ => true | None => false end)
          header_patterns
  || (length line <? 100)
     && existsb (fun keyword => contains keyword (upper line)) keywords.

(** [structured_lines]: the non-blank lines, stripped, each marked as a
    header ([true]) or as content. *)
Definition structured_lines (text : str) : list (bool * str) :=
  flat_map (fun line =>
              let line := strip line in
              if truthy line then [(is_header line, line)] else [])
           (split NL text).

(** [if current_article and current_article["clauses"]: articles.append(current_article)] *)
Definition save_article (articles : list Article) (current_article : option Article)
    : list Article :=
  match current_article with
  | Some a =>
    match clauses a with
    | [] => articles
    | _ :: _ => articles ++ [a]
    end
  | None => articles
  end.

(** [clauses[-1]["text"] += extra] *)
Fixpoint extend_last (cs : list Clause) (extra : str) : list Clause :=
  match cs with
  | [] => []
  | [c] => [{| no := no c; text := text c ++ extra; points := points c |}]
  | c :: cs' => c :: extend_last cs' extra
  end.

(** One turn of the grouping loop of [_segment_fallback_advanced]. *)
Definition group_item (st : list Article * option Article) (item : bool * str)
    : list Article * option Article :=
  let (articles, current_article) := st in
  let (header, item_text) := item in
  if header then
    let articles := save_article articles current_article in
    (articles,
     Some (section_unit (U "Section_" ++ str_of_nat (length articles + 1))
             item_text []))
  else
    let current :=
      match current_article with
      | Some a => a
      | None => section_unit (U "General") (U "Document Content") []
      end in
    let cs :=
      match rmatch NUMBERED_LINE item_text with
      | Some clause_match =>
        clauses current
        ++ [mk_clause (group 1 clause_match) (group 2 clause_match)]
      | None =>
        match clauses current with
        | [] => [mk_clause (U "1") item_text]
        | _ :: _ => extend_last (clauses current) (U " " ++ item_text)
        end
      end in
    (articles,
     Some {| article := article current; chapter := chapter current;
             section := section current; title := title current;
             chapter_title := chapter_title current; clauses := cs |}).

(** The articles the line scan collects, before the last resort. *)
Definition scanned_articles (text : str) : list Article :=
  let (articles, current_article) :=
    fold_left group_item (structured_lines text) ([], None) in
  save_article articles current_article.

(** The last resort: the whole text as one article with one clause. *)
Definition whole_document (text : str) : list Article :=
  [section_unit (U "Document") (U "Full Content") [mk_clause (U "1") text]].

Definition _segment_fallback_advanced (text : str) : list Article :=
  match scanned_articles text with
  | [] => whole_document text
  | (_ :: _) as articles => articles
  end.

(** *** One cascade per document type *)

(** The chapter loop inside [_segment_law_document]. *)
Fixpoint law_chapters (text : str) (chapter_matches : list mobj) : list Article :=
  match chapter_matches with
  | [] => []
  | chapter_match :: following =>
    let chapter_num := group 1 chapter_match in
    let chapter_title := strip (group 2 chapter_match) in
    let chapter_content :=
      strip (slice text (m_end chapter_match) (span_end text following)) in
    let dieu_matches := finditer ART_LAW chapter_content in
    (match dieu_matches with
     | _ :: _ =>
       map (in_chapter chapter_num chapter_title)
           (_segment_by_dieu chapter_content dieu_matches)
     | [] =>
       [chapter_unit chapter_num chapter_title
          (_parse_clauses_advanced chapter_content)]
     end)
    ++ law_chapters text following
  end.

Definition _segment_law_document (text : str) : Structure :=
  let dieu_matches := finditer ART_LAW text in
  if 2 <=? length dieu_matches
  then with_strategy (_segment_by_dieu text dieu_matches) (U "dieu")
  else
    match finditer CHAPTER text with
    | (_ :: _) as chapter_matches =>
      only_articles (law_chapters text chapter_matches)
    | [] =>
      match finditer ART_LAW text with
      | (_ :: _) as dieu_matches =>
        only_articles (_segment_by_dieu text dieu_matches)
      | [] => only_articles (_segment_fallback_advanced text)
      end
    end.

Definition _segment_decree_document (text : str) : Structure :=
  let dieu_matches := finditer ART_LAW text in
  if 1 <=? length dieu_matches
  then only_articles (_segment_by_dieu text dieu_matches)
  else
    match finditer CHAPTER text with
    | (_ :: _) as chapter_matches =>
      only_articles (_segment_by_chapters_advanced text chapter_matches)
    | [] => only_articles (_segment_fallback_advanced text)
    end.

Definition _segment_circular_document (text : str) : Structure :=
  match finditer CHAPTER text with
  | (_ :: _) as chapter_matches =>
    only_articles (_segment_by_chapters_advanced text chapter_matches)
  | [] =>
    match finditer ART_LAW text with
    | (_ :: _) as dieu_matches =>
      only_articles (_segment_by_dieu text dieu_matches)
    | [] =>
      let roman_matches := finditer ROMAN text in
      if 2 <=? length roman_matches
      then only_articles (_segment_by_roman_advanced text roman_matches)
      else only_articles (_segment_fallback_advanced text)
    end
  end.

Definition _try_segment_by_chapters (text : str) : list Article :=
  match finditer CHAPTER text with
  | (_ :: _) as chapter_matches => _segment_by_chapters_advanced text chapter_matches
  | [] => []
  end.

Definition _try_segment_by_sections (text : str) : list Article := [].

Definition _try_segment_by_roman (text : str) : list Article :=
  let roman_matches := finditer ROMAN text in
  if 2 <=? length roman_matches
  then _segment_by_roman_advanced text roman_matches
  else [].

(** [for strategy_name, strategy_func in strategies: ...]; none of the
    strategy functions raises, so the [except] branch has no counterpart. *)
Fixpoint first_strategy (strategies : list (str * (unit -> list Article)))
    : option Structure :=
  match strategies with
  | [] => None
  | (strategy_name, strategy_func) :: others =>
    match strategy_func tt with
    | (_ :: _) as result => Some (with_strategy result strategy_name)
    | [] => first_strategy others
    end
  end.

Definition _segment_generic_document (text : str) : Structure :=
  let dieu_matches := finditer ART_LAW text in
  if 2 <=? length dieu_matches
  then with_strategy (_segment_by_dieu text dieu_matches) (U "dieu")
  else
    let strategies :=
      [ (U "chapters", fun _ : unit => _try_segment_by_chapters text);
        (U "sections", fun _ : unit => _try_segment_by_sections text);
        (U "roman", fun _ : unit => _try_segment_by_roman text);
        (U "fallback", fun _ : unit => _segment_fallback_advanced text) ] in
    match first_strategy strategies with
    | Some result => result
    | None =>
      with_strategy (_segment_fallback_advanced text) (U "ultimate_fallback")
    end.

(** *** Validation *)

Definition Qltb (x y : Q) : bool := negb (Qle_bool y x).

(** [total_segmented_length / original_length if original_length > 0 else 0].
    The program divides two integers into a float and compares it with the
    float literals [0.7] and [1.3]; division is correctly rounded, so for
    lengths below 2^49 those comparisons come out as the exact ones
    below. *)
Definition ratio_of (total_segmented_length original_length : nat) : Q :=
  if 0 <? original_length
  then (Z.of_nat total_segmented_length # Pos.of_nat original_length)%Q
  else 0%Q.

Definition all_clauses (arts : list Article) : list Clause :=
  flat_map clauses arts.

(** [validation["issues"].append(issue); validation["status"] = s] *)
Definition raise_issue (v : str * list Issue) (s : str) (issue : Issue)
    : str * list Issue :=
  (s, snd v ++ [issue]).

Definition long_clause_check (v : str * list Issue) (clause : Clause)
    : str * list Issue :=
  let clause_text := text clause in
  if 2000 <? length clause_text
  then raise_issue v (U "warning") (Very_long_clause_detected (length clause_text))
  else v.

Definition _validate_segmentation (original_text : str) (result : Structure)
    (original_length : nat) : Validation :=
  let articles := articles result in
  let total_segmented_length :=
    list_sum (map (fun clause => length (text clause)) (all_clauses articles)) in
  let total_clauses := list_sum (map (fun a => length (clauses a)) articles) in
  let total_points :=
    list_sum (map (fun clause => length (points clause)) (all_clauses articles)) in
  let preservation_ratio := ratio_of total_segmented_length original_length in
  let v := (U "success", []) in
  let v := if Qltb preservation_ratio (7 # 10)
           then raise_issue v (U "warning")
                  (Low_content_preservation preservation_ratio)
           else v in
  let v := if Qltb (13 # 10) preservation_ratio
           then raise_issue v (U "warning")
                  (Content_duplication_detected preservation_ratio)
           else v in
  let v := if length articles =? 0
           then raise_issue v (U "error") No_articles_found
           else v in
  let v := fold_left long_clause_check (all_clauses articles) v in
  {| status := fst v;
     issues := snd v;
     stats := Some {| original_length := original_length;
                      segmented_length := total_segmented_length;
                      preservation_ratio := preservation_ratio;
                      total_articles := length articles;
                      total_clauses := total_clauses;
                      total_points := total_points |} |}.

(** *** Entry point *)

Definition empty_result : Structure :=
  {| articles := [];
     strategy_used := None;
     validation := Some {| status := U "empty"; issues := [Empty_document];
                           stats := None |};
     document_type := None |}.

Definition segment (doc_text : str) (doc_meta : option Meta) : Structure :=
  if negb (truthy doc_text) then empty_result
  else
    let text := _normalize_text doc_text in
    let original_length := length text in
    let doc_type := _detect_document_type text doc_meta in
    let result :=
      if str_eqb doc_type (U "law") then _segment_law_document text
      else if str_eqb doc_type (U "decree") then _segment_decree_document text
      else if str_eqb doc_type (U "circular") then _segment_circular_document text
      else _segment_generic_document text in
    let validation := _validate_segmentation text result original_length in
    {| articles := articles result;
       strategy_used := strategy_used result;
       validation := Some validation;
       document_type := Some doc_type |}.

End Segmenter.

(* ================================================================== *)
(** ** The differ: [preprocess/diff_engine.py] *)

(** [re.sub(r"\s+", " ", (s or "").strip())] *)
Definition _norm_text (s : str) : str :=
  sub (plus isspace) (U " ") (strip s).

(** ["key" in a and a["key"]]: the value, when it is there and not empty. *)
Definition given (o : option str) : option str :=
  match o with
  | Some s => if truthy s then Some s else None
  | None => None
  end.

Definition _article_id (a : Article) : str :=
  match given (article a) with
  | Some art =>
    let prefix :=
      match given (chapter a) with
      | Some ch => ch ++ U " - "
      | None =>
        match given (section a) with
        | Some se => se ++ U " - "
        | None => []
        end
      end in
    prefix ++ art
  | None =>
    match given (chapter a) with
    | Some ch => ch
    | None =>
      match given (section a) with
      | Some se => U "Section " ++ se
      | None => U "Unknown"
      end
    end
  end.

(** The loop of [_clauses_of], [auto_no] being the counter it carries. *)
Fixpoint clauses_from (auto_no : nat) (cs : list Clause) : list (str * str) :=
  match cs with
  | [] => []
  | c :: cs' =>
    if truthy (no c)
    then (no c, _norm_text (text c)) :: clauses_from auto_no cs'
    else (str_of_nat auto_no, _norm_text (text c)) :: clauses_from (auto_no + 1) cs'
  end.

Definition _clauses_of (a : Article) : list (str * str) :=
  clauses_from 1 (clauses a).

(** A Python [dict] from [(article_id, clause_no)] to text.  Iteration
    follows insertion order and assigning to a key that is present keeps
    its place, so the dictionary is the list of its items. *)
Definition key : Type := str * str.
Definition dict : Type := list (key * str).

Definition key_eqb (a b : key) : bool :=
  str_eqb (fst a) (fst b) && str_eqb (snd a) (snd b).

(** [m[k]], [None] standing for [k not in m] *)
Fixpoint dict_get (m : dict) (k : key) : option str :=
  match m with
  | [] => None
  | (k', v) :: m' => if key_eqb k k' then Some v else dict_get m' k
  end.

(** [m[k] = v] *)
Fixpoint dict_set (m : dict) (k : key) (v : str) : dict :=
  match m with
  | [] => [(k, v)]
  | (k', v') :: m' =>
    if key_eqb k k' then (k', v) :: m' else (k', v') :: dict_set m' k v
  end.

Definition index_article (m : dict) (a : Article) : dict :=
  let aid := _article_id a in
  fold_left (fun m clause => dict_set m (aid, fst clause) (snd clause))
            (_clauses_of a) m.

Definition _kv_index (struct : Structure) : dict :=
  fold_left index_article (articles struct) [].

Record ChangeRecord := {
  level : str;
  id : str;
  change : str;
  from : option str;
  to : option str
}.

(** [f"{k[0]}.{k[1]}"] *)
Definition record_id (k : key) : str := fst k ++ U "." ++ snd k.

(** The three dictionaries [diff_articles] appends. *)
Definition added_record (k : key) (v : str) : ChangeRecord :=
  {| level := U "clause"; id := record_id k; change := U "added";
     from := None; to := Some v |}.

Definition modified_record (k : key) (b v : str) : ChangeRecord :=
  {| level := U "clause"; id := record_id k; change := U "modified";
     from := Some b; to := Some v |}.

Definition deleted_record (k : key) (v : str) : ChangeRecord :=
  {| level := U "clause"; id := record_id k; change := U "deleted";
     from := Some v; to := None |}.

(** The body of the first loop of [diff_articles], for one item of [new]. *)
Definition added_or_modified (base : dict) (item : key * str) : list ChangeRecord :=
  let (k, v) := item in
  match dict_get base k with
  | None => [added_record k v]
  | Some b => if negb (str_eqb b v) then [modified_record k b v] else []
  end.

(** The body of the second loop, for one item of [base]. *)
Definition deleted (new : dict) (item : key * str) : list ChangeRecord :=
  let (k, v) := item in
  match dict_get new k with
  | None => [deleted_record k v]
  | Some _ => []
  end.

Definition diff_articles (base_struct new_struct : Structure) : list ChangeRecord :=
  let base := _kv_index base_struct in
  let new := _kv_index new_struct in
  flat_map (added_or_modified base) new ++ flat_map (deleted new) base.


(* ================================================================== *)
(** ** Character tables and vocabulary for the statements *)

(** *** A character table for Vietnamese text

    [latin_vn] agrees with CPython's tables on Basic Latin, Latin-1 and the
    letters of the Vietnamese alphabet (Ă Đ Ĩ Ũ Ơ Ư and U+1EA0..U+1EF9);
    it leaves every other code point without case and not a digit.  The
    program consults the tables only at characters of its input and of its
    own patterns, so on documents written with those characters it runs
    here as it does in CPython. *)

Definition vn_even_upper (c : N) : bool :=
  ((c =? 258) || (c =? 272) || (c =? 296) || (c =? 360)
   || (7840 <=? c) && (c <=? 7929) && N.even c)%N.

Definition vn_odd_lower (c : N) : bool :=
  ((c =? 259) || (c =? 273) || (c =? 297) || (c =? 361)
   || (7840 <=? c) && (c <=? 7929) && N.odd c)%N.

Definition latin_vn_lower (c : N) : N :=
  (if (65 <=? c) && (c <=? 90) then c + 32
   else if (192 <=? c) && (c <=? 222) && negb (c =? 215) then c + 32
   else if vn_even_upper c then c + 1
   else if c =? 416 then 417
   else if c =? 431 then 432
   else c)%N.

Definition latin_vn_upper (c : N) : list N :=
  (if (97 <=? c) && (c <=? 122) then [c - 32]
   else if (224 <=? c) && (c <=? 254) && negb (c =? 247) then [c - 32]
   else if c =? 223 then [83; 83]
   else if c =? 181 then [924]
   else if c =? 255 then [376]
   else if vn_odd_lower c then [c - 1]
   else if c =? 417 then [416]
   else if c =? 432 then [431]
   else [c])%N.

Definition latin_vn : Unicode :=
  {| isdecimal := range 48 57;
     casekey := latin_vn_lower;
     upper1 := latin_vn_upper |}.

(** *** Segmentation *)

(** No stage of any cascade finds a structure in [text]: no Điều, no
    chapter heading, fewer than two Roman-numeral headings, and a line
    scan that collects no article. *)
Definition no_structure `{Unicode} (text : str) : Prop :=
  finditer ART_LAW text = []
  /\ finditer CHAPTER text = []
  /\ length (finditer ROMAN text) < 2
  /\ scanned_articles text = [].

(** The Điều strategy decides the outcome of a cascade: the articles
    returned are those it builds from its matches over the whole text. *)
Definition dieu_succeeds `{Unicode} (cascade : str -> Structure) (text : str) : Prop :=
  articles (cascade text) = _segment_by_dieu text (finditer ART_LAW text).

(** What tells an article built by [_segment_by_dieu] on the whole text
    from those of the other strategies: it has an article label and no
    chapter. *)
Definition dieu_shaped (a : Article) : Prop :=
  article a <> None /\ chapter a = None.

(** An article as [_segment_by_dieu] builds it from a heading and one
    unnumbered body. *)
Definition dieu_article (label title_ body : str) : Article :=
  {| article := Some label; chapter := None; section := None;
     title := Some title_; chapter_title := None;
     clauses := [{| no := U "1"; text := body; points := [] |}] |}.

(** *** Document types *)

(** A pattern is found in the upper-cased title or number of the metadata,
    when there is metadata. *)
Definition meta_hit `{Unicode} (doc_meta : option Meta) (pattern : regex) : bool :=
  match doc_meta with
  | Some meta =>
    found pattern (upper (meta_title meta))
    || found pattern (upper (meta_number meta))
  | None => false
  end.

(** A pattern is found in the upper-cased first 1000 characters. *)
Definition text_hit `{Unicode} (text : str) (pattern : regex) : bool :=
  found pattern (upper (firstn 1000 text)).

(** The seven document types. *)
Definition document_types : list str :=
  [U "law"; U "decree"; U "circular"; U "decision"; U "directive";
   U "instruction"; U "generic"].

(** *** Validation *)

Definition is_long_clause_issue (i : Issue) : bool :=
  match i with
  | Very_long_clause_detected _ => true
  | _ => false
  end.

(** A clause whose text exceeds 2000 characters. *)
Definition too_long (clause : Clause) : bool := 2000 <? length (text clause).

(** The issues raised before the clauses are looked at, in the order the
    three tests are written. *)
Definition issues_before_clauses (r : Q) (arts : list Article) : list Issue :=
  (if Qltb r (7 # 10) then [Low_content_preservation r] else [])
  ++ (if Qltb (13 # 10) r then [Content_duplication_detected r] else [])
  ++ (if length arts =? 0 then [No_articles_found] else []).

(** *** Diffing *)

(** Several assignments in a row. *)
Definition dict_update (m : dict) (ws : list (key * str)) : dict :=
  fold_left (fun m w => dict_set m (fst w) (snd w)) ws m.

(** What one article writes into the index, in order. *)
Definition article_writes (a : Article) : list (key * str) :=
  map (fun clause => ((_article_id a, fst clause), snd clause)) (_clauses_of a).


(** *** Example documents and articles *)

(** ["Điều 1. Title A\nBody A\nĐiều 2. Title B\nBody B"] *)
Definition two_dieu_text : str :=
  U "Điều 1. Title A" ++ [NL] ++ U "Body A" ++ [NL]
  ++ U "Điều 2. Title B" ++ [NL] ++ U "Body B".

(** A decree with a single Điều. *)
Definition decree_text : str :=
  U "NGHỊ ĐỊNH" ++ [NL] ++ U "Điều 1. Phạm vi" ++ [NL] ++ U "Nội dung".

(** A law with a single Điều and no chapter heading. *)
Definition law_one_dieu_text : str :=
  U "LUẬT GIAO THÔNG" ++ [NL] ++ U "Điều 1. Phạm vi" ++ [NL] ++ U "Nội dung".



(** The articles of those two documents. *)
Definition first_dieu_1 : Article := dieu_article (U "Điều 1") (U "A") (U "x").
Definition second_dieu_1 : Article := dieu_article (U "Điều 1") (U "B") (U "y").

(** Two articles with different labels, and a revision of the first. *)
Definition dieu_1 : Article := dieu_article (U "Điều 1") (U "A") (U "Phí 2 triệu").
Definition dieu_1_revised : Article :=
  dieu_article (U "Điều 1") (U "A") (U "Phí 3 triệu").
Definition dieu_2 : Article := dieu_article (U "Điều 2") (U "B") (U "y").

(* ================================================================== *)
(** ** A text without structure *)






(* ================================================================== *)
(** ** Further vocabulary *)

From Stdlib Require DecimalNat.

(** The decimal digits of an unsigned number, as code points. *)
Fixpoint uint_codes (d : Decimal.uint) : str :=
  match d with
  | Decimal.Nil => []
  | Decimal.D0 d => 48%N :: uint_codes d
  | Decimal.D1 d => 49%N :: uint_codes d
  | Decimal.D2 d => 50%N :: uint_codes d
  | Decimal.D3 d => 51%N :: uint_codes d
  | Decimal.D4 d => 52%N :: uint_codes d
  | Decimal.D5 d => 53%N :: uint_codes d
  | Decimal.D6 d => 54%N :: uint_codes d
  | Decimal.D7 d => 55%N :: uint_codes d
  | Decimal.D8 d => 56%N :: uint_codes d
  | Decimal.D9 d => 57%N :: uint_codes d
  end.

(** Two clauses the differ cannot tell apart: the same ordinal and texts
    that differ in white space only. *)
Definition same_clause (c d : Clause) : Prop :=
  no c = no d /\ _norm_text (text c) = _norm_text (text d).

(** Two articles the differ cannot tell apart. *)
Definition same_article (a b : Article) : Prop :=
  _article_id a = _article_id b /\ Forall2 same_clause (clauses a) (clauses b).

(** [not no]: a clause without an ordinal of its own. *)
Definition unnumbered (c : Clause) : bool := negb (truthy (no c)).

(** An article as the line scan builds it: under a section label, with a
    title, with clauses, and with no point in any clause. *)
Definition scan_unit (a : Article) : Prop :=
  article a = None /\ chapter a = None /\ section a <> None /\ title a <> None
  /\ Forall (fun c => points c = []) (clauses a).


(** The four tags [segment] can set. *)
Definition strategy_tags : list str :=
  [U "dieu"; U "chapters"; U "roman"; U "fallback"].

(** *** Substitution without positions *)

(** The number of leading characters of [xs] in the class [p]. *)
Fixpoint run (p : N -> bool) (xs : str) : nat :=
  match xs with
  | x :: xs' => if p x then S (run p xs') else 0
  | [] => 0
  end.

(** What a pattern matches at the head of [xs], for a pattern that matches
    there either nothing or a given number of characters: the subject
    rewritten left to right, each match giving way to [repl]. *)
Fixpoint replace_matches (f : str -> nat) (repl : str) (xs : str) (skip : nat)
    : str :=
  match skip with
  | S n =>
    match xs with
    | _ :: xs' => replace_matches f repl xs' n
    | [] => []
    end
  | 0 =>
    match xs with
    | [] => []
    | x :: xs' =>
      match f xs with
      | 0 => x :: replace_matches f repl xs' 0
      | S n => repl ++ replace_matches f repl xs' n
      end
    end
  end.

(** [p{lo,}] matches the whole run at the head when it is long enough. *)
Definition run_length (lo : nat) (p : N -> bool) (xs : str) : nat :=
  if lo <=? run p xs then run p xs else 0.

(** Runs of a class squeezed into one character [r] each. *)
Fixpoint squeeze (p : N -> bool) (r : N) (in_run : bool) (s : str) : str :=
  match s with
  | [] => []
  | c :: s' =>
    if p c
    then if in_run then squeeze p r true s' else r :: squeeze p r true s'
    else c :: squeeze p r false s'
  end.

(** Line breaks beyond the second of a row dropped, [k] being the number
    of line breaks just passed. *)
Fixpoint cap_newlines (k : nat) (s : str) : str :=
  match s with
  | [] => []
  | c :: s' =>
    if (c =? NL)%N
    then if k <? 2 then NL :: cap_newlines (S k) s' else cap_newlines (S k) s'
    else c :: cap_newlines 0 s'
  end.

(** No white space at either end. *)
Definition stripped (s : str) : Prop :=
  match s with
  | [] => True
  | c :: _ => isspace c = false /\ isspace (last s c) = false
  end.

(** Every character of the class [p] is the character [r] and stands
    before a character outside the class. *)
Fixpoint single (p : N -> bool) (r : N) (s : str) : Prop :=
  match s with
  | [] => True
  | c :: s' =>
    (p c = true ->
     c = r /\ match s' with d :: _ => p d = false | [] => False end)
    /\ single p r s'
  end.

(** At most [k] line breaks at the head, and never more than two in a row
    after. *)
Fixpoint breaks_capped (k : nat) (s : str) : Prop :=
  match s with
  | [] => True
  | c :: s' =>
    if (c =? NL)%N
    then match k with 0 => False | S k' => breaks_capped k' s' end
    else breaks_capped 2 s'
  end.

(* ================================================================== *)
(** ** The normaliser: [preprocess/normalizer.py] *)

Section Normalizer.

(** [unicodedata.normalize("NFC", s)] *)
Variable nfc : str -> str.

(** [s.replace(a, b)] for single characters *)
Definition replace_char (a b : N) (s : str) : str :=
  map (fun c => if (c =? a)%N then b else c) s.

Definition normalize_text (s : str) : str :=
  let s := nfc s in
  let s := replace_char 160 32 s in
  let s := sub (plus (oneof [32; 9]%N)) (U " ") s in
  let s := sub (Rep true 3 None (chr NL)) [NL; NL] s in
  strip s.

End Normalizer.

(** At every position the pattern [r] finds either nothing or a match of
    [f xs] characters, [xs] being the text from that position on. *)
Definition matches_by (r : regex) (f : str -> nat) : Prop :=
  forall i pv xs,
    f xs <= length xs
    /\ match attempt r false (Cursor i pv xs) with
       | None => f xs = 0
       | Some m => m_start m = i /\ m_end m = i + f xs /\ 0 < f xs
       end.

(** What [\r\n] and [\r] match at the head of a text. *)
Definition crlf_length (xs : str) : nat :=
  match xs with
  | x :: y :: _ => if ((x =? CR) && (y =? NL))%N then 2 else 0
  | _ => 0
  end.

Definition cr_length (xs : str) : nat :=
  match xs with
  | x :: _ => if (x =? CR)%N then 1 else 0
  | [] => 0
  end.

(** The character [r] never comes twice in a row. *)
Fixpoint no_double (r : N) (s : str) : Prop :=
  match s with
  | c :: s' =>
    match s' with
    | d :: _ => ~ (c = r /\ d = r)
    | [] => True
    end /\ no_double r s'
  | [] => True
  end.

Definition TAB : N := 9.
Definition NBSP : N := 160.

(* ================================================================== *)
(** ** The driver: [scripts/run_preprocess.py] *)

(** A raw document, of which [main] reads three keys: [d.get("content", "")],
    [d.get("number", "")] and [d.get("url", "unknown")]; a key that is
    there holds a string. *)
Record RawDoc := {
  raw_content : option str;
  raw_number : option str;
  raw_url : option str
}.

(** [d.get(key, default)] *)
Definition get_or (o : option str) (default : str) : str :=
  match o with
  | Some s => s
  | None => default
  end.

Definition SLASH : N := 47.
Definition FULL_STOP : N := 46.
Definition HYPHEN : N := 45.
Definition LOW_LINE : N := 95.

Definition base_id_of (i : nat) (d : RawDoc) : str :=
  let doc_number := get_or (raw_number d) [] in
  if truthy doc_number
  then replace_char FULL_STOP LOW_LINE
         (replace_char HYPHEN LOW_LINE (replace_char SLASH LOW_LINE doc_number))
  else
    let url := get_or (raw_url d) (U "unknown") in
    if contains [SLASH] url
    then hd [] (split FULL_STOP (last (split SLASH url) []))
    else U "doc_" ++ str_of_nat i.

(** [doc_id in processed_ids] *)
Definition processed (processed_ids : list str) (doc_id : str) : bool :=
  existsb (str_eqb doc_id) processed_ids.

(** The loop [while doc_id in processed_ids], [fuel] bounding the number
    of its tests. *)
Fixpoint unique_id (fuel : nat) (processed_ids : list str) (base_id doc_id : str)
    (counter : nat) : option str :=
  match fuel with
  | 0 => None
  | S fuel' =>
    if processed processed_ids doc_id
    then unique_id fuel' processed_ids base_id
           (base_id ++ U "_" ++ str_of_nat counter) (counter + 1)
    else Some doc_id
  end.

(** The identifiers the first loop of [main] gives the documents, [i]
    being the index of the first of them; [processed_ids] is a set, of
    which the loop asks membership only. *)
Fixpoint doc_ids (fuel : nat) (processed_ids : list str) (i : nat)
    (raw : list RawDoc) : option (list str) :=
  match raw with
  | [] => Some []
  | d :: raw' =>
    let base_id := base_id_of i d in
    match unique_id fuel processed_ids base_id base_id 1 with
    | Some doc_id =>
      match doc_ids fuel (doc_id :: processed_ids) (S i) raw' with
      | Some ids => Some (doc_id :: ids)
      | None => None
      end
    | None => None
    end
  end.

(** The identifier the loop tries after [j] failed tests. *)
Definition candidate (base_id : str) (j : nat) : str :=
  match j with
  | 0 => base_id
  | S _ => base_id ++ U "_" ++ str_of_nat j
  end.

(** [raw_content[:1000] + "..." if len(raw_content) > 1000 else raw_content] *)
Definition excerpt (raw_content : str) : str :=
  if 1000 <? length raw_content
  then firstn 1000 raw_content ++ U "..."
  else raw_content.

Definition original_structure (raw_content : str) : Structure :=
  only_articles
    [ {| article := None; chapter := None; section := Some (U "Original");
         title := Some (U "Raw Document Content"); chapter_title := None;
         clauses := [ {| no := U "1"; text := excerpt raw_content;
                         points := [] |} ] |} ].

(** The diff [main] writes for one document, when it writes one:
    [if doc["structure"].get("articles"): ...]. *)
Definition original_vs_processed (raw_content : str) (struct : Structure)
    : option (list ChangeRecord) :=
  match articles struct with
  | [] => None
  | _ :: _ => Some (diff_articles (original_structure raw_content) struct)
  end.

(** The key of the one clause of [original_structure]. *)
Definition original_key : key := (U "Section Original", U "1").

(* ================================================================== *)
(** ** Where matches lie *)

(** No capturing group. *)
Fixpoint plain (r : regex) : bool :=
  match r with
  | Grp _ _ => false
  | Cat r1 r2 | Alt r1 r2 => plain r1 && plain r2
  | Ahead r1 => plain r1
  | _ => true
  end.

(** No capturing group inside a lookahead: what a group captures is part
    of what the pattern consumes. *)
Fixpoint groups_consumed (r : regex) : bool :=
  match r with
  | Cat r1 r2 | Alt r1 r2 => groups_consumed r1 && groups_consumed r2
  | Grp _ r1 => groups_consumed r1
  | Ahead r1 => plain r1
  | _ => true
  end.

(** The cursor [c'] is the cursor [c] moved on over some characters. *)
Definition reach (c c' : cursor) : Prop :=
  exists taken, rest c = taken ++ rest c' /\ pos c' = pos c + length taken.

(** No captured text is longer than [n]. *)
Definition within (n : nat) (g : caps) : Prop :=
  Forall (fun e => length (snd e) <= n) g.

(** Matches in order between [lo] and [n], none overlapping the one
    before, each holding its groups. *)
Fixpoint chain (lo n : nat) (ms : list mobj) : Prop :=
  match ms with
  | [] => True
  | m :: ms' =>
    lo <= m_start m /\ m_start m <= m_end m /\ m_end m <= n
    /\ (forall j, length (group j m) <= m_end m - m_start m)
    /\ chain (m_end m) n ms'
  end.

(** [sum(len(clause.get("text", "")) for clause in ...)] *)
Definition text_length (cs : list Clause) : nat :=
  list_sum (map (fun clause => length (text clause)) cs).

(** The text a loop holds so far: in the clauses it has closed and in the
    one it is at. *)
Definition clause_weight (st : list Clause * option Clause) : nat :=
  text_length (fst st)
  + match snd st with
    | Some c => length (text c)
    | None => 0
    end.

Definition article_weight (st : list Article * option Article) : nat :=
  text_length (all_clauses (fst st))
  + match snd st with
    | Some a => text_length (clauses a)
    | None => 0
    end.

(** The lines of a text weigh one more than the text: each line and its
    line break. *)
Definition lines_weight (lines : list str) : nat :=
  list_sum (map (fun l => S (length l)) lines).

(* ================================================================== *)
(** ** Properties of the segmenter *)

Section SegmenterFacts.
Context `{Unicode}.

Lemma truthy_nonempty (s : str) : s <> [] -> truthy s = true.
Proof. destruct s; [congruence | reflexivity]. Qed.

(** Past the empty-document guard, the articles are those of one of the
    four cascades run on the normalised text. *)
Lemma segment_articles (doc_text : str) (doc_meta : option Meta) :
  doc_text <> [] ->
  let text := _normalize_text doc_text in
  articles (segment doc_text doc_meta) = articles (_segment_law_document text)
  \/ articles (segment doc_text doc_meta) = articles (_segment_decree_document text)
  \/ articles (segment doc_text doc_meta) = articles (_segment_circular_document text)
  \/ articles (segment doc_text doc_meta) = articles (_segment_generic_document text).
Proof.
  intros Hne text. unfold segment.
  rewrite (truthy_nonempty _ Hne). cbn [negb articles]. fold text.
  destruct (str_eqb _ (U "law")); [now left|].
  destruct (str_eqb _ (U "decree")); [now right; left|].
  destruct (str_eqb _ (U "circular")); [now right; right; left|].
  now right; right; right.
Qed.

(** *** Every strategy that is entered returns articles *)

Lemma _segment_by_dieu_length (text : str) (matches : list mobj) :
  length (_segment_by_dieu text matches) = length matches.
Proof. induction matches; cbn; congruence. Qed.

Lemma _segment_by_roman_advanced_length (text : str) (matches : list mobj) :
  length (_segment_by_roman_advanced text matches) = length matches.
Proof. induction matches; cbn; congruence. Qed.

Lemma _segment_by_chapters_advanced_nonempty text m following :
  1 <= length (_segment_by_chapters_advanced text (m :: following)).
Proof.
  cbn [_segment_by_chapters_advanced]. rewrite length_app.
  destruct (1 <=? length (finditer ART_LAW _)) eqn:E.
  - rewrite length_map, _segment_by_dieu_length.
    apply Nat.leb_le in E. lia.
  - cbn. lia.
Qed.

Lemma law_chapters_nonempty text m following :
  1 <= length (law_chapters text (m :: following)).
Proof.
  cbn [law_chapters]. rewrite length_app.
  destruct (finditer ART_LAW _) eqn:E.
  - cbn. lia.
  - rewrite length_map, _segment_by_dieu_length. cbn. lia.
Qed.

Lemma _segment_fallback_advanced_nonempty text :
  1 <= length (_segment_fallback_advanced text).
Proof.
  unfold _segment_fallback_advanced.
  destruct (scanned_articles text); cbn; lia.
Qed.

Lemma first_strategy_nonempty strategies result :
  first_strategy strategies = Some result -> 1 <= length (articles result).
Proof.
  induction strategies as [|[name f] others IH]; cbn; [discriminate|].
  destruct (f tt) eqn:E; [exact IH|].
  intros [= <-]. cbn. lia.
Qed.

Lemma _segment_law_document_nonempty text :
  1 <= length (articles (_segment_law_document text)).
Proof.
  unfold _segment_law_document.
  destruct (2 <=? length (finditer ART_LAW text)) eqn:E.
  - cbn. rewrite _segment_by_dieu_length. apply Nat.leb_le in E. lia.
  - destruct (finditer CHAPTER text) as [|c cs].
    + destruct (finditer ART_LAW text) as [|m ms] eqn:Em; cbn [articles only_articles].
      * apply _segment_fallback_advanced_nonempty.
      * rewrite _segment_by_dieu_length. cbn. lia.
    + cbn [articles only_articles]. apply law_chapters_nonempty.
Qed.

Lemma _segment_decree_document_nonempty text :
  1 <= length (articles (_segment_decree_document text)).
Proof.
  unfold _segment_decree_document.
  destruct (1 <=? length (finditer ART_LAW text)) eqn:E.
  - cbn. rewrite _segment_by_dieu_length. now apply Nat.leb_le in E.
  - destruct (finditer CHAPTER text) as [|c cs]; cbn [articles only_articles].
    + apply _segment_fallback_advanced_nonempty.
    + apply _segment_by_chapters_advanced_nonempty.
Qed.

Lemma _segment_circular_document_nonempty text :
  1 <= length (articles (_segment_circular_document text)).
Proof.
  unfold _segment_circular_document.
  destruct (finditer CHAPTER text) as [|c cs]; cbn [articles only_articles].
  - destruct (finditer ART_LAW text) as [|m ms]; cbn [articles only_articles].
    + destruct (2 <=? length (finditer ROMAN text)) eqn:E;
        cbn [articles only_articles].
      * rewrite _segment_by_roman_advanced_length. apply Nat.leb_le in E. lia.
      * apply _segment_fallback_advanced_nonempty.
    + rewrite _segment_by_dieu_length. cbn. lia.
  - apply _segment_by_chapters_advanced_nonempty.
Qed.

Lemma _segment_generic_document_nonempty text :
  1 <= length (articles (_segment_generic_document text)).
Proof.
  unfold _segment_generic_document.
  destruct (2 <=? length (finditer ART_LAW text)) eqn:E.
  - cbn. rewrite _segment_by_dieu_length. apply Nat.leb_le in E. lia.
  - destruct (first_strategy _) eqn:F.
    + eapply first_strategy_nonempty, F.
    + cbn. apply _segment_fallback_advanced_nonempty.
Qed.

(** *** When nothing is found *)

Lemma no_structure_fallback text :
  no_structure text -> _segment_fallback_advanced text = whole_document text.
Proof.
  intros (_ & _ & _ & Hs). unfold _segment_fallback_advanced. now rewrite Hs.
Qed.

Lemma no_structure_law text :
  no_structure text -> articles (_segment_law_document text) = whole_document text.
Proof.
  intros Hn. pose proof (no_structure_fallback _ Hn) as Hf.
  destruct Hn as (Hd & Hc & _ & _).
  unfold _segment_law_document. rewrite Hd, Hc. cbn. exact Hf.
Qed.

Lemma no_structure_decree text :
  no_structure text -> articles (_segment_decree_document text) = whole_document text.
Proof.
  intros Hn. pose proof (no_structure_fallback _ Hn) as Hf.
  destruct Hn as (Hd & Hc & _ & _).
  unfold _segment_decree_document. rewrite Hd, Hc. cbn. exact Hf.
Qed.

Lemma no_structure_circular text :
  no_structure text -> articles (_segment_circular_document text) = whole_document text.
Proof.
  intros Hn. pose proof (no_structure_fallback _ Hn) as Hf.
  destruct Hn as (Hd & Hc & Hr & _).
  unfold _segment_circular_document. rewrite Hd, Hc.
  apply Nat.leb_gt in Hr. rewrite Hr. cbn. exact Hf.
Qed.

Lemma no_structure_generic text :
  no_structure text -> articles (_segment_generic_document text) = whole_document text.
Proof.
  intros Hn. pose proof (no_structure_fallback _ Hn) as Hf.
  destruct Hn as (Hd & Hc & Hr & _).
  unfold _segment_generic_document, _try_segment_by_chapters,
    _try_segment_by_roman, _try_segment_by_sections.
  rewrite Hd. change (2 <=? length (@nil mobj)) with false.
  cbn [first_strategy]. rewrite Hc. cbn [first_strategy].
  apply Nat.leb_gt in Hr. rewrite Hr. cbn [first_strategy].
  rewrite Hf. reflexivity.
Qed.

(** [C10] The empty string is answered before any segmentation: no
    article, a validation whose status is ["empty"] (none of ["success"],
    ["warning"], ["error"]) with the single issue "Empty document", and no
    [stats], [document_type] or [strategy_used]. *)
Theorem segment_empty_document (doc_meta : option Meta) :
  let r := segment (U "") doc_meta in
  articles r = []
  /\ validation r = Some {| status := U "empty"; issues := [Empty_document];
                            stats := None |}
  /\ ~ In (U "empty") [U "success"; U "warning"; U "error"]
  /\ document_type r = None
  /\ strategy_used r = None.
Proof.
  cbv zeta. repeat split.
  intros [E | [E | [E | []]]]; vm_compute in E; discriminate E.
Qed.

End SegmenterFacts.

(** [C2] The two-Điều document, whatever the metadata says about its type,
    gives the articles "Điều 1" / "Title A" and "Điều 2" / "Title B", each
    with the one clause holding its body line. *)
Theorem segment_two_dieu (doc_meta : option Meta) :
  articles (@segment latin_vn two_dieu_text doc_meta)
  = [ dieu_article (U "Điều 1") (U "Title A") (U "Body A");
      dieu_article (U "Điều 2") (U "Title B") (U "Body B") ].
Proof.
  assert (Hn : @_normalize_text two_dieu_text = two_dieu_text)
    by (vm_compute; reflexivity).
  assert (Hne : two_dieu_text <> []) by (vm_compute; discriminate).
  destruct (@segment_articles latin_vn two_dieu_text doc_meta Hne)
    as [E | [E | [E | E]]];
    rewrite E, Hn; vm_compute; reflexivity.
Qed.

(* ================================================================== *)
(** ** Validation *)

Lemma Qltb_lt (x y : Q) : Qltb x y = true <-> (x < y)%Q.
Proof.
  unfold Qltb. rewrite negb_true_iff. split.
  - intros E. apply Qnot_le_lt. intros L.
    apply Qle_bool_iff in L. congruence.
  - intros L. destruct (Qle_bool y x) eqn:E; [|reflexivity].
    apply Qle_bool_iff in E. exfalso. eapply Qlt_not_le; eassumption.
Qed.

(** The loop over the clauses: one issue per clause that is too long, and
    the status turns to ["warning"] as soon as there is one. *)
Lemma long_clause_loop (cs : list Clause) (s : str) (l : list Issue) :
  fold_left long_clause_check cs (s, l)
  = (if existsb too_long cs then U "warning" else s,
     l ++ map (fun c => Very_long_clause_detected (length (text c)))
              (filter too_long cs)).
Proof.
  revert s l. induction cs as [|c cs IH]; intros s l; cbn [fold_left existsb filter].
  - cbn. now rewrite app_nil_r.
  - unfold long_clause_check at 2. fold (too_long c).
    destruct (too_long c); cbn [orb].
    + unfold raise_issue. cbn [snd]. rewrite IH, <- app_assoc. cbn [map app].
      now destruct (existsb too_long cs).
    + apply IH.
Qed.


Lemma _validate_segmentation_closed_form original_text result original_length :
  let v := _validate_segmentation original_text result original_length in
  let arts := articles result in
  let r := ratio_of (list_sum (map (fun c => length (text c)) (all_clauses arts)))
                    original_length in
  issues v
  = issues_before_clauses r arts
    ++ map (fun c => Very_long_clause_detected (length (text c)))
           (filter too_long (all_clauses arts))
  /\ status v
     = (if length arts =? 0 then U "error"
        else if Qltb r (7 # 10) || Qltb (13 # 10) r
                || existsb too_long (all_clauses arts)
             then U "warning" else U "success")
  /\ option_map preservation_ratio (stats v) = Some r.
Proof.
  intros v arts r. subst v. unfold _validate_segmentation.
  fold arts. fold r. cbn [issues status stats option_map preservation_ratio].
  unfold issues_before_clauses, raise_issue.
  destruct arts as [|a arts'] eqn:Ea.
  - cbn [length Nat.eqb all_clauses flat_map fold_left filter map existsb].
    destruct (Qltb r (7 # 10)), (Qltb (13 # 10) r); cbn; auto.
  - change (length (a :: arts') =? 0) with false. cbv iota.
    destruct (Qltb r (7 # 10)), (Qltb (13 # 10) r);
      cbn [snd fst app orb]; rewrite long_clause_loop; cbn [fst snd app];
      repeat split; try reflexivity;
      destruct (existsb too_long _); reflexivity.
Qed.

Lemma in_long_issues (i : Issue) (cs : list Clause) :
  In i (map (fun c => Very_long_clause_detected (length (text c))) cs) ->
  is_long_clause_issue i = true.
Proof. rewrite in_map_iff. now intros (c & <- & _). Qed.

Lemma filter_long_issues (cs : list Clause) :
  filter is_long_clause_issue
         (map (fun c => Very_long_clause_detected (length (text c))) cs)
  = map (fun c => Very_long_clause_detected (length (text c))) cs.
Proof. induction cs; cbn; congruence. Qed.

(** An issue of one kind is not found among those of another kind. *)
Ltac elim_issue Hin :=
  repeat match type of Hin with
         | context [if ?b then _ else _] => destruct b
         end;
  cbn in Hin; intuition discriminate.

(** [C3] What the validator reports: the low-preservation warning exactly
    below 0.7, the duplication warning exactly above 1.3, the no-articles
    error exactly for an empty article list, one long-clause warning for
    each clause of more than 2000 characters; and the status is ["error"]
    without articles, otherwise ["warning"] if any issue was raised,
    otherwise ["success"]. *)
Theorem validation_rules (original_text : str) (result : Structure)
    (original_length : nat) :
  let v := _validate_segmentation original_text result original_length in
  exists st : Stats,
    stats v = Some st
    /\ preservation_ratio st
       = ratio_of (segmented_length st) original_length
    /\ segmented_length st
       = list_sum (map (fun c => length (text c)) (all_clauses (articles result)))
    /\ ((exists q, In (Low_content_preservation q) (issues v))
        <-> (preservation_ratio st < 7 # 10)%Q)
    /\ ((exists q, In (Content_duplication_detected q) (issues v))
        <-> (13 # 10 < preservation_ratio st)%Q)
    /\ (In No_articles_found (issues v) <-> articles result = [])
    /\ filter is_long_clause_issue (issues v)
       = map (fun c => Very_long_clause_detected (length (text c)))
             (filter too_long (all_clauses (articles result)))
    /\ status v
       = match articles result, issues v with
         | [], _ => U "error"
         | _ :: _, _ :: _ => U "warning"
         | _ :: _, [] => U "success"
         end.
Proof.
  intros v.
  destruct (_validate_segmentation_closed_form original_text result original_length)
    as (Hi & Hs & Hr).
  fold v in Hi, Hs, Hr.
  set (arts := articles result) in *.
  set (r := ratio_of _ original_length) in *.
  set (longs := map _ (filter too_long (all_clauses arts))) in *.
  destruct (stats v) as [st|] eqn:Est; [|discriminate Hr].
  injection Hr as Hr.
  exists st. split; [reflexivity|].
  assert (Hseg : segmented_length st
                 = list_sum (map (fun c => length (text c)) (all_clauses arts))).
  { subst v. unfold _validate_segmentation in Est. cbn [stats] in Est.
    injection Est as <-. reflexivity. }
  split; [rewrite Hr, Hseg; reflexivity|].
  split; [exact Hseg|].
  rewrite Hr, Hi. unfold issues_before_clauses.
  pose proof (Qltb_lt r (7 # 10)) as Hlo. pose proof (Qltb_lt (13 # 10) r) as Hhi.
  assert (Hlong : forall i, In i longs -> is_long_clause_issue i = true)
    by (intros i; apply in_long_issues).
  repeat split.
  - intros (q & Hin). apply Hlo.
    destruct (Qltb r (7 # 10)); [reflexivity|].
    rewrite !in_app_iff in Hin.
    destruct Hin as [[Hin | [Hin | Hin]] | Hin];
      [elim_issue Hin .. | apply Hlong in Hin; discriminate Hin].
  - intros L. apply Hlo in L. rewrite L. exists r.
    rewrite !in_app_iff. left; left. now left.
  - intros (q & Hin). apply Hhi.
    destruct (Qltb (13 # 10) r); [reflexivity|].
    rewrite !in_app_iff in Hin.
    destruct Hin as [[Hin | [Hin | Hin]] | Hin];
      [elim_issue Hin .. | apply Hlong in Hin; discriminate Hin].
  - intros L. apply Hhi in L. rewrite L. exists r.
    rewrite !in_app_iff. left; right; left. now left.
  - intros Hin. destruct arts; [reflexivity|exfalso].
    change (length (a :: arts) =? 0) with false in Hin.
    rewrite !in_app_iff in Hin.
    destruct Hin as [[Hin | [Hin | Hin]] | Hin];
      [elim_issue Hin .. | apply Hlong in Hin; discriminate Hin].
  - intros ->. cbn [length Nat.eqb]. rewrite !in_app_iff.
    left; right; right. now left.
  - rewrite !filter_app.
    replace (filter is_long_clause_issue (if Qltb r (7 # 10) then _ else _))
      with (@nil Issue) by (destruct (Qltb r (7 # 10)); reflexivity).
    replace (filter is_long_clause_issue (if Qltb (13 # 10) r then _ else _))
      with (@nil Issue) by (destruct (Qltb (13 # 10) r); reflexivity).
    replace (filter is_long_clause_issue (if length arts =? 0 then _ else _))
      with (@nil Issue) by (destruct (length arts =? 0); reflexivity).
    cbn [app]. apply filter_long_issues.
  - rewrite Hs. destruct arts as [|a arts']; [reflexivity|].
    change (length (a :: arts') =? 0) with false. cbv iota.
    destruct (Qltb r (7 # 10)); [reflexivity|].
    destruct (Qltb (13 # 10) r); [reflexivity|].
    cbn [orb app]. subst longs.
    destruct (filter too_long (all_clauses (a :: arts'))) as [|c cs] eqn:Ef.
    + cbn [map].
      replace (existsb too_long (all_clauses (a :: arts'))) with false;
        [reflexivity|].
      symmetry. apply not_true_is_false. intros E.
      apply existsb_exists in E. destruct E as (c & Hc & Hl).
      assert (Hin : In c (filter too_long (all_clauses (a :: arts'))))
        by (apply filter_In; auto).
      rewrite Ef in Hin. now cbn in Hin.
    + cbn [map].
      replace (existsb too_long (all_clauses (a :: arts'))) with true;
        [reflexivity|].
      symmetry. apply existsb_exists. exists c.
      apply filter_In. rewrite Ef. now left.
Qed.

(* ================================================================== *)
(** ** The document-type classifier *)

Section Classifier.
Context `{Unicode}.

(** The loop with its early [return] picks the first pattern that hits. *)
Lemma first_type_find (hit : regex -> bool) (ps : list (str * regex)) :
  first_type hit ps = option_map fst (find (fun tp => hit (snd tp)) ps).
Proof.
  induction ps as [|[d p] ps IH]; cbn; [reflexivity|].
  destruct (hit p); [reflexivity | exact IH].
Qed.

Lemma find_never {A} (f : A -> bool) (l : list A) :
  (forall x, f x = false) -> find f l = None.
Proof. intros Hf. induction l as [|x l IH]; cbn; [|rewrite Hf]; auto. Qed.

Lemma first_type_in (hit : regex -> bool) (ps : list (str * regex)) (d : str) :
  first_type hit ps = Some d -> In d (map fst ps).
Proof.
  induction ps as [|[d' p] ps IH]; cbn; [discriminate|].
  destruct (hit p); [intros [= ->]; now left | right; auto].
Qed.

Lemma detect_in_text_type (text : str) : In (detect_in_text text) document_types.
Proof.
  unfold detect_in_text.
  destruct (first_type _ DOC_TYPE_PATTERNS) as [d|] eqn:E.
  - apply first_type_in in E. cbn in E. unfold document_types. cbn.
    intuition.
  - unfold document_types. cbn. intuition.
Qed.

(** [C9] The classifier is total and answers with one of the seven types:
    the type of the first pattern found in the metadata title or number
    when there is metadata and some pattern is found there, otherwise the
    type of the first pattern found in the first 1000 characters of the
    text, otherwise ["generic"]. *)
Theorem detect_document_type_first_match (text : str) (doc_meta : option Meta) :
  In (_detect_document_type text doc_meta) document_types
  /\ map fst DOC_TYPE_PATTERNS
     = [U "law"; U "decree"; U "circular"; U "decision"; U "directive";
        U "instruction"]
  /\ _detect_document_type text doc_meta
     = match find (fun tp => meta_hit doc_meta (snd tp)) DOC_TYPE_PATTERNS with
       | Some (doc_type, _) => doc_type
       | None =>
         match find (fun tp => text_hit text (snd tp)) DOC_TYPE_PATTERNS with
         | Some (doc_type, _) => doc_type
         | None => U "generic"
         end
       end.
Proof.
  split; [|split; [reflexivity|]].
  - unfold _detect_document_type. destruct doc_meta as [meta|].
    + destruct (first_type _ DOC_TYPE_PATTERNS) as [d|] eqn:E.
      * apply first_type_in in E. cbn in E. unfold document_types. cbn.
        intuition.
      * apply detect_in_text_type.
    + apply detect_in_text_type.
  - assert (Ht : detect_in_text text
                 = match find (fun tp => text_hit text (snd tp)) DOC_TYPE_PATTERNS with
                   | Some (doc_type, _) => doc_type
                   | None => U "generic"
                   end).
    { unfold detect_in_text. rewrite first_type_find.
      unfold text_hit. now destruct (find _ DOC_TYPE_PATTERNS) as [[d p]|]. }
    unfold _detect_document_type. destruct doc_meta as [meta|].
    + rewrite first_type_find. rewrite Ht. unfold meta_hit.
      now destruct (find (fun tp => found (snd tp) (upper (meta_title meta)) || _)
                         DOC_TYPE_PATTERNS) as [[d p]|].
    + replace (find (fun tp => meta_hit None (snd tp)) DOC_TYPE_PATTERNS)
        with (@None (str * regex)).
      * exact Ht.
      * symmetry. now apply find_never.
Qed.

End Classifier.

(* ================================================================== *)
(** ** Properties of the differ *)

(** *** The dictionary *)

Lemma str_eqb_eq (a b : str) : str_eqb a b = true <-> a = b.
Proof. unfold str_eqb. destruct (list_eq_dec N.eq_dec a b); intuition congruence. Qed.

Lemma str_eqb_refl (a : str) : str_eqb a a = true.
Proof. now apply str_eqb_eq. Qed.

Lemma key_eqb_eq (a b : key) : key_eqb a b = true <-> a = b.
Proof.
  destruct a as [a1 a2], b as [b1 b2]. unfold key_eqb. cbn [fst snd].
  rewrite andb_true_iff, !str_eqb_eq. intuition congruence.
Qed.

Lemma key_eqb_refl (k : key) : key_eqb k k = true.
Proof. now apply key_eqb_eq. Qed.

Lemma key_eqb_neq (a b : key) : a <> b -> key_eqb a b = false.
Proof.
  intros Hn. destruct (key_eqb a b) eqn:E; [|reflexivity].
  apply key_eqb_eq in E. contradiction.
Qed.

Lemma dict_get_in (m : dict) (k : key) (v : str) :
  dict_get m k = Some v -> In (k, v) m.
Proof.
  induction m as [|[k' v'] m IH]; cbn; [discriminate|].
  destruct (key_eqb k k') eqn:E.
  - apply key_eqb_eq in E. intros [= ->]. left. congruence.
  - right. auto.
Qed.

Lemma dict_get_none (m : dict) (k : key) :
  dict_get m k = None <-> ~ In k (map fst m).
Proof.
  induction m as [|[k' v'] m IH]; cbn; [intuition|].
  destruct (key_eqb k k') eqn:E.
  - apply key_eqb_eq in E. subst. intuition discriminate.
  - rewrite IH. split; [|tauto].
    intros Hn [Hk | Hk]; [|tauto].
    subst. rewrite key_eqb_refl in E. discriminate.
Qed.

Lemma in_dict_get (m : dict) (k : key) (v : str) :
  NoDup (map fst m) -> In (k, v) m -> dict_get m k = Some v.
Proof.
  induction m as [|[k' v'] m IH]; cbn; [tauto|].
  intros Hnd [Hin | Hin]; inversion Hnd as [|? ? Hk Hnd']; subst.
  - injection Hin as -> ->. now rewrite key_eqb_refl.
  - destruct (key_eqb k k') eqn:E; [|auto].
    apply key_eqb_eq in E. subst. exfalso. apply Hk.
    apply in_map_iff. now exists (k', v).
Qed.

Lemma dict_set_keys (m : dict) (k : key) (v : str) :
  map fst (dict_set m k v)
  = match dict_get m k with
    | Some _ => map fst m
    | None => map fst m ++ [k]
    end.
Proof.
  induction m as [|[k' v'] m IH]; cbn; [reflexivity|].
  destruct (key_eqb k k') eqn:E; cbn; [reflexivity|].
  rewrite IH. now destruct (dict_get m k).
Qed.

Lemma dict_set_nodup (m : dict) (k : key) (v : str) :
  NoDup (map fst m) -> NoDup (map fst (dict_set m k v)).
Proof.
  intros Hnd. rewrite dict_set_keys.
  destruct (dict_get m k) eqn:E; [exact Hnd|].
  apply dict_get_none in E.
  apply NoDup_rev in Hnd. rewrite <- (rev_involutive (_ ++ _)).
  apply NoDup_rev. rewrite rev_app_distr. cbn.
  constructor; [|exact Hnd]. now rewrite <- in_rev.
Qed.

Lemma dict_get_set (m : dict) (k k' : key) (v : str) :
  dict_get (dict_set m k v) k'
  = if key_eqb k' k then Some v else dict_get m k'.
Proof.
  induction m as [|[k0 v0] m IH]; cbn; [reflexivity|].
  destruct (key_eqb k k0) eqn:E; cbn.
  - apply key_eqb_eq in E. subst k0.
    now destruct (key_eqb k' k).
  - rewrite IH. destruct (key_eqb k' k0) eqn:E0; [|reflexivity].
    apply key_eqb_eq in E0. subst k0.
    destruct (key_eqb k' k) eqn:E1; [|reflexivity].
    apply key_eqb_eq in E1. subst. rewrite key_eqb_refl in E. discriminate.
Qed.

Lemma dict_update_nodup (ws : list (key * str)) (m : dict) :
  NoDup (map fst m) -> NoDup (map fst (dict_update m ws)).
Proof.
  revert m. induction ws as [|w ws IH]; intros m Hnd; cbn; [exact Hnd|].
  apply IH, dict_set_nodup, Hnd.
Qed.

Lemma dict_get_app (m1 m2 : dict) (k : key) :
  dict_get (m1 ++ m2) k
  = match dict_get m1 k with
    | Some v => Some v
    | None => dict_get m2 k
    end.
Proof.
  induction m1 as [|[k' v'] m1 IH]; cbn; [reflexivity|].
  now destruct (key_eqb k k').
Qed.

(** Reading after several assignments: the last one made to the key, or
    what was there before. *)
Lemma dict_get_update (ws : list (key * str)) (m : dict) (k : key) :
  dict_get (dict_update m ws) k
  = match dict_get (rev ws) k with
    | Some v => Some v
    | None => dict_get m k
    end.
Proof.
  revert m. induction ws as [|[k' v'] ws IH]; intros m; cbn [rev]; [reflexivity|].
  unfold dict_update in *. cbn [fold_left fst snd].
  rewrite IH, dict_get_app, dict_get_set. cbn [dict_get].
  now destruct (dict_get (rev ws) k), (key_eqb k k').
Qed.

(** *** The index *)

Lemma index_article_update (m : dict) (a : Article) :
  index_article m a = dict_update m (article_writes a).
Proof.
  unfold index_article, dict_update, article_writes.
  generalize (_clauses_of a). intros cs. revert m.
  induction cs as [|c cs IH]; intros m; cbn; [reflexivity|]. apply IH.
Qed.

Lemma index_update (arts : list Article) (m : dict) :
  fold_left index_article arts m = dict_update m (flat_map article_writes arts).
Proof.
  revert m. induction arts as [|a arts IH]; intros m; cbn; [reflexivity|].
  rewrite IH, index_article_update. unfold dict_update.
  now rewrite fold_left_app.
Qed.

Lemma _kv_index_writes (struct : Structure) :
  _kv_index struct = dict_update [] (flat_map article_writes (articles struct)).
Proof. apply index_update. Qed.

Lemma _kv_index_nodup (struct : Structure) : NoDup (map fst (_kv_index struct)).
Proof. rewrite _kv_index_writes. apply dict_update_nodup. constructor. Qed.

Lemma _kv_index_item (struct : Structure) (k : key) (v : str) :
  In (k, v) (_kv_index struct) <-> dict_get (_kv_index struct) k = Some v.
Proof.
  split; [apply in_dict_get, _kv_index_nodup | apply dict_get_in].
Qed.

(** *** The records of a diff *)

Lemma diff_articles_in (A B : Structure) (r : ChangeRecord) :
  In r (diff_articles A B) <->
  (exists k v, dict_get (_kv_index B) k = Some v
               /\ dict_get (_kv_index A) k = None
               /\ r = added_record k v)
  \/ (exists k b v, dict_get (_kv_index B) k = Some v
                    /\ dict_get (_kv_index A) k = Some b
                    /\ b <> v
                    /\ r = modified_record k b v)
  \/ (exists k v, dict_get (_kv_index A) k = Some v
                  /\ dict_get (_kv_index B) k = None
                  /\ r = deleted_record k v).
Proof.
  unfold diff_articles. rewrite in_app_iff, !in_flat_map. split.
  - intros [([k v] & Hin & Hr) | ([k v] & Hin & Hr)];
      apply _kv_index_item in Hin; cbn in Hr.
    + destruct (dict_get (_kv_index A) k) as [b|] eqn:Eb.
      * destruct (str_eqb b v) eqn:Ebv; cbn in Hr; [contradiction|].
        destruct Hr as [<- | []]. right; left. exists k, b, v.
        repeat split; auto. intros ->. rewrite str_eqb_refl in Ebv. discriminate.
      * destruct Hr as [<- | []]. left. now exists k, v.
    + destruct (dict_get (_kv_index B) k) eqn:Eb; [contradiction|].
      destruct Hr as [<- | []]. right; right. now exists k, v.
  - intros [(k & v & HB & HA & ->) | [(k & b & v & HB & HA & Hne & ->)
                                     | (k & v & HA & HB & ->)]].
    + left. exists (k, v). split; [now apply _kv_index_item|].
      cbn. rewrite HA. now left.
    + left. exists (k, v). split; [now apply _kv_index_item|].
      cbn. rewrite HA.
      destruct (str_eqb b v) eqn:E; [apply str_eqb_eq in E; contradiction|].
      now left.
    + right. exists (k, v). split; [now apply _kv_index_item|].
      cbn. rewrite HB. now left.
Qed.

(** [C5] Diffing a structure against itself reports nothing. *)
Theorem diff_identity (struct : Structure) : diff_articles struct struct = [].
Proof.
  destruct (diff_articles struct struct) as [|r rs] eqn:E; [reflexivity|exfalso].
  assert (Hin : In r (diff_articles struct struct)) by (rewrite E; now left).
  apply diff_articles_in in Hin.
  destruct Hin as [(k & v & H1 & H2 & _) | [(k & b & v & H1 & H2 & Hne & _)
                                           | (k & v & H1 & H2 & _)]];
    congruence.
Qed.

Lemma tag_added_deleted : U "added" <> U "deleted".
Proof. vm_compute. discriminate. Qed.

Lemma tag_added_modified : U "added" <> U "modified".
Proof. vm_compute. discriminate. Qed.

Lemma tag_deleted_modified : U "deleted" <> U "modified".
Proof. vm_compute. discriminate. Qed.

(** [C6] A record of [diff_articles A B] has its mirror image in
    [diff_articles B A]: an added clause is deleted there and a deleted one
    added, the text changing sides; a modified clause is modified there
    with [from] and [to] exchanged. *)
Theorem diff_symmetry (A B : Structure) (r : ChangeRecord) :
  In r (diff_articles A B) ->
  (change r = U "added" ->
   In {| level := level r; id := id r; change := U "deleted";
         from := to r; to := None |} (diff_articles B A))
  /\ (change r = U "deleted" ->
      In {| level := level r; id := id r; change := U "added";
            from := None; to := from r |} (diff_articles B A))
  /\ (change r = U "modified" ->
      In {| level := level r; id := id r; change := U "modified";
            from := to r; to := from r |} (diff_articles B A)).
Proof.
  intros Hin. apply diff_articles_in in Hin.
  pose proof tag_added_deleted as T1. pose proof tag_added_modified as T2.
  pose proof tag_deleted_modified as T3.
  destruct Hin as [(k & v & HB & HA & ->) | [(k & b & v & HB & HA & Hne & ->)
                                            | (k & v & HA & HB & ->)]];
    cbn [change level id from to added_record modified_record deleted_record];
    repeat split; intros E; try congruence; apply diff_articles_in.
  - right; right. now exists k, v.
  - right; left. exists k, v, b. repeat split; auto.
  - left. now exists k, v.
Qed.

Lemma diff_symmetry_witness :
  In (modified_record (U "Điều 1", U "1") (U "Phí 2 triệu") (U "Phí 3 triệu"))
     (diff_articles (only_articles [dieu_1]) (only_articles [dieu_1_revised]))
  /\ In (modified_record (U "Điều 1", U "1") (U "Phí 3 triệu") (U "Phí 2 triệu"))
        (diff_articles (only_articles [dieu_1_revised]) (only_articles [dieu_1])).
Proof.
  assert (Hin : In (modified_record (U "Điều 1", U "1") (U "Phí 2 triệu")
                                    (U "Phí 3 triệu"))
                   (diff_articles (only_articles [dieu_1])
                                  (only_articles [dieu_1_revised])))
    by (vm_compute; left; reflexivity).
  split; [exact Hin|].
  exact (proj2 (proj2 (diff_symmetry _ _ _ Hin)) eq_refl).
Defined.

(** *** Keys of other articles *)

Lemma article_writes_key (a : Article) (k : key) (v : str) :
  In (k, v) (article_writes a) ->
  fst k = _article_id a /\ In (snd k) (map fst (_clauses_of a)).
Proof.
  unfold article_writes. intros Hw. apply in_map_iff in Hw.
  destruct Hw as ([n t] & Heq & Hin). cbn in Heq. injection Heq as <- <-.
  cbn. split; [reflexivity|].
  apply in_map_iff. now exists (n, t).
Qed.



Lemma written_by (a : Article) (k : key) :
  dict_get (rev (article_writes a)) k <> None ->
  fst k = _article_id a /\ In (snd k) (map fst (_clauses_of a)).
Proof.
  destruct (dict_get (rev (article_writes a)) k) as [v|] eqn:E; [|congruence].
  intros _. apply dict_get_in in E. rewrite <- in_rev in E.
  eapply article_writes_key, E.
Qed.





(* ================================================================== *)
(** ** The cascades and the Điều strategy *)

Section Cascades.
Context `{Unicode}.

Lemma _segment_by_dieu_shape text matches :
  Forall dieu_shaped (_segment_by_dieu text matches).
Proof.
  induction matches as [|m ms IH]; cbn [_segment_by_dieu]; constructor; auto.
  split; cbn; congruence.
Qed.

Lemma in_chapter_shape chapter_num chapter_title l :
  Forall (fun a => ~ dieu_shaped a) (map (in_chapter chapter_num chapter_title) l).
Proof.
  apply Forall_forall. intros a Ha. apply in_map_iff in Ha.
  destruct Ha as (a0 & <- & _). intros [_ Hc]. discriminate Hc.
Qed.

Lemma _segment_by_chapters_advanced_shape text matches :
  Forall (fun a => ~ dieu_shaped a) (_segment_by_chapters_advanced text matches).
Proof.
  induction matches as [|m ms IH]; cbn [_segment_by_chapters_advanced];
    [constructor|].
  apply Forall_app. split; [|exact IH].
  destruct (1 <=? _).
  - apply in_chapter_shape.
  - constructor; [|constructor]. intros [_ Hc]. discriminate Hc.
Qed.

Lemma law_chapters_shape text matches :
  Forall (fun a => ~ dieu_shaped a) (law_chapters text matches).
Proof.
  induction matches as [|m ms IH]; cbn [law_chapters]; [constructor|].
  apply Forall_app. split; [|exact IH].
  destruct (finditer ART_LAW _).
  - constructor; [|constructor]. intros [_ Hc]. discriminate Hc.
  - apply in_chapter_shape.
Qed.

Lemma _segment_by_roman_advanced_shape text matches :
  Forall (fun a => ~ dieu_shaped a) (_segment_by_roman_advanced text matches).
Proof.
  induction matches as [|m ms IH]; cbn [_segment_by_roman_advanced];
    constructor; auto.
  intros [Ha _]. now apply Ha.
Qed.

(** The line scan only ever holds section-labelled articles. *)
Lemma group_item_shape st item :
  Forall (fun a => article a = None) (fst st) ->
  (forall a, snd st = Some a -> article a = None) ->
  Forall (fun a => article a = None) (fst (group_item st item))
  /\ (forall a, snd (group_item st item) = Some a -> article a = None).
Proof.
  destruct st as [arts cur], item as [header item_text]. cbn [fst snd].
  intros Harts Hcur. unfold group_item.
  assert (Hsave : Forall (fun a => article a = None) (save_article arts cur)).
  { unfold save_article. destruct cur as [a|]; [|exact Harts].
    destruct (clauses a); [exact Harts|].
    apply Forall_app. split; [exact Harts|].
    constructor; [now apply Hcur | constructor]. }
  destruct header; cbn [fst snd].
  - split; [exact Hsave|]. now intros a [= <-].
  - split; [exact Harts|]. intros a [= <-]. cbn [article].
    destruct cur as [c|]; [now apply Hcur | reflexivity].
Qed.

Lemma scan_shape items st :
  Forall (fun a => article a = None) (fst st) ->
  (forall a, snd st = Some a -> article a = None) ->
  Forall (fun a => article a = None) (fst (fold_left group_item items st))
  /\ (forall a, snd (fold_left group_item items st) = Some a -> article a = None).
Proof.
  revert st. induction items as [|item items IH]; intros st Ha Hc; cbn [fold_left].
  - now split.
  - destruct (group_item_shape st item Ha Hc) as [Ha' Hc']. now apply IH.
Qed.

Lemma _segment_fallback_advanced_shape text :
  Forall (fun a => ~ dieu_shaped a) (_segment_fallback_advanced text).
Proof.
  assert (Hs : Forall (fun a => article a = None) (_segment_fallback_advanced text)).
  { unfold _segment_fallback_advanced.
    assert (Hsc : Forall (fun a => article a = None) (scanned_articles text)).
    { unfold scanned_articles.
      destruct (scan_shape (structured_lines text) ([], None)) as [Ha Hc];
        [constructor | discriminate |].
      destruct (fold_left group_item _ _) as [arts cur]. cbn [fst snd] in *.
      unfold save_article. destruct cur as [a|]; [|exact Ha].
      destruct (clauses a); [exact Ha|].
      apply Forall_app. split; [exact Ha|].
      constructor; [now apply Hc | constructor]. }
    destruct (scanned_articles text); [|exact Hsc].
    constructor; [reflexivity | constructor]. }
  eapply Forall_impl; [|exact Hs].
  intros a Ha [Hsome _]. now apply Hsome.
Qed.

(** A non-empty list of articles cannot be both of the Điều shape and of
    another. *)
Lemma shapes_apart (l : list Article) :
  1 <= length l ->
  Forall dieu_shaped l -> Forall (fun a => ~ dieu_shaped a) l -> False.
Proof.
  destruct l as [|a l]; cbn; [lia|].
  intros _ Hd Hn. inversion Hd; inversion Hn; subst. auto.
Qed.

Lemma first_strategy_shape strategies result (P : Article -> Prop) :
  (forall name f, In (name, f) strategies -> Forall P (f tt)) ->
  first_strategy strategies = Some result -> Forall P (articles result).
Proof.
  induction strategies as [|[name f] others IH]; cbn [first_strategy];
    [discriminate|].
  intros HP. destruct (f tt) eqn:E.
  - apply IH. intros name' f' Hin. apply (HP name' f'). now right.
  - intros [= <-]. cbn [articles with_strategy]. rewrite <- E.
    apply (HP name f). now left.
Qed.

Lemma first_strategy_tag strategies result :
  first_strategy strategies = Some result ->
  exists name, strategy_used result = Some name /\ In name (map fst strategies).
Proof.
  induction strategies as [|[name f] others IH]; cbn [first_strategy];
    [discriminate|].
  destruct (f tt) eqn:E.
  - intros Hr. destruct (IH Hr) as (n & Hn & Hin). exists n. split; [exact Hn|].
    now right.
  - intros [= <-]. exists name. split; [reflexivity | now left].
Qed.

Lemma generic_strategies_shape text name f :
  In (name, f)
     [ (U "chapters", fun _ : unit => _try_segment_by_chapters text);
       (U "sections", fun _ : unit => _try_segment_by_sections text);
       (U "roman", fun _ : unit => _try_segment_by_roman text);
       (U "fallback", fun _ : unit => _segment_fallback_advanced text) ] ->
  Forall (fun a => ~ dieu_shaped a) (f tt).
Proof.
  intros [E | [E | [E | [E | []]]]]; injection E as _ <-.
  - unfold _try_segment_by_chapters. destruct (finditer CHAPTER text);
      [constructor | apply _segment_by_chapters_advanced_shape].
  - constructor.
  - unfold _try_segment_by_roman. destruct (2 <=? _);
      [apply _segment_by_roman_advanced_shape | constructor].
  - apply _segment_fallback_advanced_shape.
Qed.

Lemma generic_later_stages text :
  (2 <=? length (finditer ART_LAW text)) = false ->
  Forall (fun a => ~ dieu_shaped a) (articles (_segment_generic_document text))
  /\ strategy_used (_segment_generic_document text) <> Some (U "dieu").
Proof.
  intros E. unfold _segment_generic_document. rewrite E.
  destruct (first_strategy _) as [result|] eqn:F.
  - split.
    + eapply first_strategy_shape; [|exact F]. apply generic_strategies_shape.
    + apply first_strategy_tag in F. destruct F as (name & -> & Hin).
      cbn in Hin. intros [= ->].
      destruct Hin as [E' | [E' | [E' | [E' | []]]]];
        vm_compute in E'; discriminate E'.
  - split; [apply _segment_fallback_advanced_shape|].
    intros E'. vm_compute in E'. discriminate E'.
Qed.

Lemma decree_later_stages text :
  (1 <=? length (finditer ART_LAW text)) = false ->
  Forall (fun a => ~ dieu_shaped a) (articles (_segment_decree_document text)).
Proof.
  intros E. unfold _segment_decree_document. rewrite E.
  destruct (finditer CHAPTER text); cbn [articles only_articles].
  - apply _segment_fallback_advanced_shape.
  - apply _segment_by_chapters_advanced_shape.
Qed.

Lemma law_later_stages text :
  (2 <=? length (finditer ART_LAW text)) = false ->
  finditer CHAPTER text <> [] \/ finditer ART_LAW text = [] ->
  Forall (fun a => ~ dieu_shaped a) (articles (_segment_law_document text)).
Proof.
  intros E Hc. unfold _segment_law_document. rewrite E.
  destruct (finditer CHAPTER text) as [|c cs]; cbn [articles only_articles].
  - destruct Hc as [Hc | Hc]; [congruence|]. rewrite Hc.
    apply _segment_fallback_advanced_shape.
  - apply law_chapters_shape.
Qed.

(** The decree and circular cascades never name their strategy, and the
    law cascade only does when its first test passes. *)
Lemma untagged_cascades text :
  strategy_used (_segment_decree_document text) = None
  /\ strategy_used (_segment_circular_document text) = None
  /\ ((2 <=? length (finditer ART_LAW text)) = false ->
      strategy_used (_segment_law_document text) = None).
Proof.
  repeat split.
  - unfold _segment_decree_document.
    destruct (1 <=? _); [reflexivity|]. now destruct (finditer CHAPTER text).
  - unfold _segment_circular_document.
    destruct (finditer CHAPTER text); [|reflexivity].
    destruct (finditer ART_LAW text); [|reflexivity].
    now destruct (2 <=? _).
  - intros E. unfold _segment_law_document. rewrite E.
    destruct (finditer CHAPTER text); [|reflexivity].
    now destruct (finditer ART_LAW text).
Qed.

(** [C8] Where the Điều strategy decides the outcome.  Its matches over the
    whole text become the article list exactly with 2 matches or more in
    the generic cascade and with 1 match or more in the decree cascade; in
    the law cascade with 2 matches or more, and also with exactly 1 match
    when no chapter heading is found.  The tag ["dieu"] is set exactly with
    2 matches or more (generic, law).  With fewer matches and a chapter
    heading in the text, the articles are those of the chapter stage. *)
Theorem dieu_strategy_thresholds (text : str) :
  let n := length (finditer ART_LAW text) in
  (dieu_succeeds _segment_generic_document text <-> 2 <= n)
  /\ (dieu_succeeds _segment_decree_document text <-> 1 <= n)
  /\ (dieu_succeeds _segment_law_document text
      <-> 2 <= n \/ (n = 1 /\ finditer CHAPTER text = []))
  /\ (strategy_used (_segment_generic_document text) = Some (U "dieu") <-> 2 <= n)
  /\ (strategy_used (_segment_law_document text) = Some (U "dieu") <-> 2 <= n)
  /\ (forall c cs, finditer CHAPTER text = c :: cs ->
      (n < 2 -> articles (_segment_law_document text)
                = law_chapters text (c :: cs))
      /\ (n < 1 -> articles (_segment_decree_document text)
                   = _segment_by_chapters_advanced text (c :: cs))
      /\ (n < 2 -> articles (_segment_generic_document text)
                   = _segment_by_chapters_advanced text (c :: cs))).
Proof.
  intros n. unfold dieu_succeeds.
  pose proof (_segment_by_dieu_shape text (finditer ART_LAW text)) as Hshape.
  split; [split|split; [split|split; [split|split; [split|split; [split|]]]]].
  - (* generic, only if *)
    intros Hs. destruct (2 <=? n) eqn:E; [now apply Nat.leb_le in E|exfalso].
    destruct (generic_later_stages text E) as [Hl _].
    pose proof (_segment_generic_document_nonempty text) as Hne.
    rewrite Hs in Hl, Hne. exact (shapes_apart _ Hne Hshape Hl).
  - (* generic, if *)
    intros Hn. apply Nat.leb_le in Hn. unfold _segment_generic_document.
    fold n. now rewrite Hn.
  - (* decree, only if *)
    intros Hs. destruct (1 <=? n) eqn:E; [now apply Nat.leb_le in E|exfalso].
    pose proof (decree_later_stages text E) as Hl.
    pose proof (_segment_decree_document_nonempty text) as Hne.
    rewrite Hs in Hl, Hne. exact (shapes_apart _ Hne Hshape Hl).
  - (* decree, if *)
    intros Hn. apply Nat.leb_le in Hn. unfold _segment_decree_document.
    fold n. now rewrite Hn.
  - (* law, only if *)
    intros Hs. destruct (2 <=? n) eqn:E; [left; now apply Nat.leb_le in E|].
    right. apply Nat.leb_gt in E as En.
    pose proof (_segment_law_document_nonempty text) as Hne.
    destruct (finditer CHAPTER text) as [|c cs] eqn:Ec.
    + split; [|reflexivity].
      destruct (finditer ART_LAW text) as [|m ms] eqn:Em.
      * exfalso. rewrite Hs in Hne. cbn in Hne. lia.
      * subst n. cbn [length] in *. lia.
    + exfalso.
      assert (Hl : Forall (fun a => ~ dieu_shaped a)
                          (articles (_segment_law_document text))).
      { apply law_later_stages; [exact E | left; congruence]. }
      rewrite Hs in Hl, Hne. exact (shapes_apart _ Hne Hshape Hl).
  - (* law, if *)
    intros [Hn | [Hn Hc]]; unfold _segment_law_document; fold n.
    + apply Nat.leb_le in Hn. now rewrite Hn.
    + rewrite Hn, Hc. cbn [Nat.leb].
      subst n. destruct (finditer ART_LAW text); [discriminate Hn|reflexivity].
  - (* generic tag, only if *)
    intros Ht. destruct (2 <=? n) eqn:E; [now apply Nat.leb_le in E|exfalso].
    destruct (generic_later_stages text E) as [_ Hn]. contradiction.
  - intros Hn. apply Nat.leb_le in Hn. unfold _segment_generic_document.
    fold n. now rewrite Hn.
  - (* law tag, only if *)
    intros Ht. destruct (2 <=? n) eqn:E; [now apply Nat.leb_le in E|exfalso].
    unfold _segment_law_document in Ht. fold n in Ht. rewrite E in Ht.
    destruct (finditer CHAPTER text); [destruct (finditer ART_LAW text)|];
      discriminate Ht.
  - intros Hn. apply Nat.leb_le in Hn. unfold _segment_law_document.
    fold n. now rewrite Hn.
  - (* the chapter stage comes next *)
    intros c cs Hc. repeat split; intros Hn; apply Nat.leb_gt in Hn.
    + unfold _segment_law_document. fold n. rewrite Hn, Hc. reflexivity.
    + unfold _segment_decree_document. fold n. rewrite Hn, Hc. reflexivity.
    + unfold _segment_generic_document. fold n. rewrite Hn.
      cbn [first_strategy]. unfold _try_segment_by_chapters. rewrite Hc.
      pose proof (_segment_by_chapters_advanced_nonempty text c cs) as Hne.
      destruct (_segment_by_chapters_advanced text (c :: cs));
        [cbn in Hne; lia | reflexivity].
Qed.

End Cascades.

Lemma dieu_strategy_thresholds_witness :
  length (finditer (@ART_LAW latin_vn) law_one_dieu_text) = 1
  /\ finditer (@CHAPTER latin_vn) law_one_dieu_text = []
  /\ @dieu_succeeds latin_vn (@_segment_law_document latin_vn) law_one_dieu_text.
Proof.
  assert (Hn : length (finditer (@ART_LAW latin_vn) law_one_dieu_text) = 1)
    by (vm_compute; reflexivity).
  assert (Hc : finditer (@CHAPTER latin_vn) law_one_dieu_text = [])
    by (vm_compute; reflexivity).
  split; [exact Hn|]. split; [exact Hc|].
  apply (proj1 (proj2 (proj2 (@dieu_strategy_thresholds latin_vn law_one_dieu_text)))).
  right. split; [exact Hn | exact Hc].
Defined.

(** A law with one Điều and no chapter heading: the chapter stage has
    nothing to work on and the Điều strategy gives the article list
    although it found a single match. *)
Lemma law_single_dieu_succeeds :
  document_type (@segment latin_vn law_one_dieu_text None) = Some (U "law")
  /\ length (finditer (@ART_LAW latin_vn) law_one_dieu_text) = 1
  /\ finditer (@CHAPTER latin_vn) law_one_dieu_text = []
  /\ articles (@segment latin_vn law_one_dieu_text None)
     = [dieu_article (U "Điều 1") (U "Phạm vi") (U "Nội dung")]
  /\ ~ (@dieu_succeeds latin_vn (@_segment_law_document latin_vn) law_one_dieu_text
        <-> 2 <= length (finditer (@ART_LAW latin_vn) law_one_dieu_text)).
Proof.
  split; [vm_compute; reflexivity|]. split; [vm_compute; reflexivity|].
  split; [vm_compute; reflexivity|]. split; [vm_compute; reflexivity|].
  intros [Hs _].
  assert (Hd : @dieu_succeeds latin_vn (@_segment_law_document latin_vn) law_one_dieu_text)
    by (vm_compute; reflexivity).
  apply Hs in Hd. vm_compute in Hd. lia.
Qed.

(** [C4] The code at a decree: the result carries its articles and its
    document type but no [strategy_used] at all, where the specification
    asks for one of the six tags on every result for a non-empty
    document. *)
Theorem decree_without_strategy :
  decree_text <> []
  /\ document_type (@segment latin_vn decree_text None) = Some (U "decree")
  /\ articles (@segment latin_vn decree_text None)
     = [dieu_article (U "Điều 1") (U "Phạm vi") (U "Nội dung")]
  /\ strategy_used (@segment latin_vn decree_text None) = None.
Proof.
  split; [vm_compute; discriminate|].
  vm_compute. repeat split.
Qed.

(* ================================================================== *)
(** ** More on the differ *)

(** *** Decimal numerals *)

Lemma U_uint (d : Decimal.uint) :
  U (NilEmpty.string_of_uint d) = uint_codes d.
Proof.
  unfold U. induction d; cbn [NilEmpty.string_of_uint list_ascii_of_string map];
    [reflexivity | ..]; cbn [utf8 N_of_ascii N_of_digits N.ltb N.compare
                              N.add N.mul Pos.compare Pos.compare_cont];
    cbn; f_equal; exact IHd.
Qed.

Lemma uint_codes_inj (d d' : Decimal.uint) :
  uint_codes d = uint_codes d' -> d = d'.
Proof.
  revert d'. induction d; destruct d'; cbn; intros E;
    try discriminate E; try reflexivity;
    injection E as E; f_equal; auto.
Qed.

Lemma to_uint_nonnil (n : nat) : Nat.to_uint n <> Decimal.Nil.
Proof.
  intros E. pose proof (DecimalNat.Unsigned.of_to n) as Hn.
  rewrite E in Hn. cbn in Hn. subst n. discriminate E.
Qed.

Lemma str_of_nat_inj (n m : nat) : str_of_nat n = str_of_nat m -> n = m.
Proof.
  unfold str_of_nat. rewrite !U_uint. intros E.
  apply uint_codes_inj in E. now apply DecimalNat.Unsigned.to_uint_inj.
Qed.

Lemma str_of_nat_nonempty (n : nat) : str_of_nat n <> [].
Proof.
  unfold str_of_nat. rewrite U_uint.
  pose proof (to_uint_nonnil n) as Hn.
  destruct (Nat.to_uint n); cbn; congruence.
Qed.

(** *** When a diff is empty *)

(** [X2] A diff is empty exactly when the two indexes hold the same text
    under every key. *)
Theorem diff_empty_iff_same_index (A B : Structure) :
  diff_articles A B = []
  <-> forall k, dict_get (_kv_index A) k = dict_get (_kv_index B) k.
Proof.
  split.
  - intros Hd k.
    destruct (dict_get (_kv_index A) k) as [a|] eqn:Ea,
             (dict_get (_kv_index B) k) as [b|] eqn:Eb; try reflexivity.
    + destruct (list_eq_dec N.eq_dec a b) as [-> | Hne]; [reflexivity|exfalso].
      assert (Hin : In (modified_record k a b) (diff_articles A B)).
      { apply diff_articles_in. right; left. now exists k, a, b. }
      now rewrite Hd in Hin.
    + exfalso.
      assert (Hin : In (deleted_record k a) (diff_articles A B)).
      { apply diff_articles_in. right; right. now exists k, a. }
      now rewrite Hd in Hin.
    + exfalso.
      assert (Hin : In (added_record k b) (diff_articles A B)).
      { apply diff_articles_in. left. now exists k, b. }
      now rewrite Hd in Hin.
  - intros Hsame.
    destruct (diff_articles A B) as [|r rs] eqn:E; [reflexivity|exfalso].
    assert (Hin : In r (diff_articles A B)) by (rewrite E; now left).
    apply diff_articles_in in Hin.
    destruct Hin as [(k & v & H1 & H2 & _) | [(k & b & v & H1 & H2 & Hne & _)
                                             | (k & v & H1 & H2 & _)]];
      specialize (Hsame k); congruence.
Qed.

(** *** Structures that share no key *)

Lemma flat_map_singletons {X Y} (f : X -> list Y) (g : X -> Y) (l : list X) :
  (forall x, In x l -> f x = [g x]) -> flat_map f l = map g l.
Proof.
  induction l as [|x l IH]; intros Hf; cbn; [reflexivity|].
  rewrite (Hf x (or_introl eq_refl)), IH; [reflexivity|].
  intros y Hy. apply Hf. now right.
Qed.

(** [X3] When no key is in both indexes, the diff is one added record for
    each entry of the revised index, in its order, followed by one deleted
    record for each entry of the base index, in its order. *)
Theorem diff_disjoint (A B : Structure) :
  (forall k, dict_get (_kv_index A) k = None \/ dict_get (_kv_index B) k = None) ->
  diff_articles A B
  = map (fun item => added_record (fst item) (snd item)) (_kv_index B)
    ++ map (fun item => deleted_record (fst item) (snd item)) (_kv_index A).
Proof.
  intros Hdis. unfold diff_articles. f_equal; apply flat_map_singletons.
  - intros [k v] Hin. apply _kv_index_item in Hin. cbn.
    destruct (Hdis k) as [E | E]; [now rewrite E | congruence].
  - intros [k v] Hin. apply _kv_index_item in Hin. cbn.
    destruct (Hdis k) as [E | E]; [congruence | now rewrite E].
Qed.

Lemma diff_disjoint_witness :
  diff_articles (only_articles [dieu_1]) (only_articles [dieu_2])
  = [added_record (U "Điều 2", U "1") (U "y");
     deleted_record (U "Điều 1", U "1") (U "Phí 2 triệu")].
Proof.
  rewrite (diff_disjoint (only_articles [dieu_1]) (only_articles [dieu_2])).
  - vm_compute. reflexivity.
  - intros [aid n].
    destruct (list_eq_dec N.eq_dec aid (U "Điều 1")) as [-> | Hne].
    + right. vm_compute.
      destruct (list_eq_dec N.eq_dec n [49%N]); reflexivity.
    + left. change (_kv_index (only_articles [dieu_1]))
        with [((U "Điều 1", U "1"), _norm_text (U "Phí 2 triệu"))].
      cbn [dict_get]. rewrite key_eqb_neq; [reflexivity|].
      intros [= E _]. contradiction.
Defined.

Lemma same_index_no_diff (A B : Structure) :
  _kv_index A = _kv_index B -> diff_articles A B = [].
Proof.
  intros Hsame.
  destruct (diff_articles A B) as [|r rs] eqn:E; [reflexivity|exfalso].
  assert (Hin : In r (diff_articles A B)) by (rewrite E; now left).
  apply diff_articles_in in Hin. rewrite Hsame in Hin.
  destruct Hin as [(k & v & H1 & H2 & _) | [(k & b & v & H1 & H2 & Hne & _)
                                           | (k & v & H1 & H2 & _)]];
    congruence.
Qed.

(** *** White space *)

Lemma clauses_from_same (cs ds : list Clause) (auto_no : nat) :
  Forall2 same_clause cs ds -> clauses_from auto_no cs = clauses_from auto_no ds.
Proof.
  intros Hs. revert auto_no.
  induction Hs as [|c d cs ds [Hno Htext] _ IH]; intros auto_no; cbn;
    [reflexivity|].
  rewrite Hno, Htext. now rewrite !IH.
Qed.

Lemma article_writes_same (a b : Article) :
  same_article a b -> article_writes a = article_writes b.
Proof.
  intros [Hid Hcs]. unfold article_writes, _clauses_of.
  now rewrite Hid, (clauses_from_same _ _ 1 Hcs).
Qed.

(** [X4] Clause texts that differ in white space only are no change: when
    the articles of two structures pair up with equal identifiers, equal
    clause ordinals and texts equal after [_norm_text], the diff is
    empty. *)
Theorem diff_ignores_white_space (A B : Structure) :
  Forall2 same_article (articles A) (articles B) -> diff_articles A B = [].
Proof.
  intros Hs. apply same_index_no_diff. rewrite !_kv_index_writes. f_equal.
  induction Hs as [|a b l l' Hab _ IH]; cbn; [reflexivity|].
  now rewrite (article_writes_same a b Hab), IH.
Qed.

Lemma diff_ignores_white_space_witness :
  diff_articles
    (only_articles [dieu_article (U "Điều 1") (U "A") (U "Phí  2 triệu ")])
    (only_articles [dieu_1])
  = [].
Proof.
  apply diff_ignores_white_space. cbn [articles only_articles].
  constructor; [|constructor]. split; [reflexivity|].
  cbn [clauses dieu_article dieu_1]. constructor; [|constructor].
  split; [reflexivity|]. vm_compute. reflexivity.
Defined.

(** *** Ordinals *)

Lemma clauses_from_length (cs : list Clause) (auto_no : nat) :
  length (clauses_from auto_no cs) = length cs.
Proof.
  revert auto_no. induction cs as [|c cs IH]; intros auto_no; cbn; [reflexivity|].
  destruct (truthy (no c)); cbn; now rewrite IH.
Qed.

Lemma clauses_from_numbering (cs : list Clause) (n : nat) :
  map snd (clauses_from n cs) = map (fun c => _norm_text (text c)) cs
  /\ map (fun p => fst (snd p))
         (filter (fun p => unnumbered (fst p)) (combine cs (clauses_from n cs)))
     = map str_of_nat (seq n (length (filter unnumbered cs)))
  /\ map (fun p => fst (snd p))
         (filter (fun p => negb (unnumbered (fst p)))
                 (combine cs (clauses_from n cs)))
     = map no (filter (fun c => negb (unnumbered c)) cs).
Proof.
  revert n. induction cs as [|c cs IH]; intros n; [cbn; auto|].
  cbn [clauses_from]. unfold unnumbered in *.
  destruct (truthy (no c)) eqn:E.
  - destruct (IH n) as (H2 & H3 & H4).
    cbn [combine filter map fst snd]. rewrite E. cbn [negb map fst snd].
    repeat split; [now rewrite H2 | exact H3 | now rewrite H4].
  - destruct (IH (n + 1)) as (H2 & H3 & H4).
    cbn [combine filter map fst snd]. rewrite E. cbn [negb map fst snd length seq].
    replace (S n) with (n + 1) by lia.
    repeat split; [now rewrite H2 | now rewrite H3 | exact H4].
Qed.

(** [X5] How [_clauses_of] numbers: a clause with an ordinal keeps it; the
    clauses without one are counted 1, 2, 3, ... among themselves in
    order, whatever numbered clauses stand between them; every text is
    normalised; no clause is dropped. *)
Theorem clause_numbering (a : Article) :
  length (_clauses_of a) = length (clauses a)
  /\ map snd (_clauses_of a) = map (fun c => _norm_text (text c)) (clauses a)
  /\ map (fun p => fst (snd p))
         (filter (fun p => unnumbered (fst p))
                 (combine (clauses a) (_clauses_of a)))
     = map str_of_nat (seq 1 (length (filter unnumbered (clauses a))))
  /\ map (fun p => fst (snd p))
         (filter (fun p => negb (unnumbered (fst p)))
                 (combine (clauses a) (_clauses_of a)))
     = map no (filter (fun c => negb (unnumbered c)) (clauses a)).
Proof.
  split; [apply clauses_from_length | apply clauses_from_numbering].
Qed.

(** *** What the index holds *)

Lemma given_truthy (o : option str) (s : str) : given o = Some s -> s <> [].
Proof.
  destruct o as [t|]; cbn; [|discriminate].
  destruct t; cbn; [discriminate|]. now intros [= <-].
Qed.

Lemma _article_id_nonempty (a : Article) : _article_id a <> [].
Proof.
  unfold _article_id.
  destruct (given (article a)) as [art|] eqn:Ea.
  - apply given_truthy in Ea. intros E. apply app_eq_nil in E. tauto.
  - destruct (given (chapter a)) as [ch|] eqn:Ec; [now apply given_truthy in Ec|].
    destruct (given (section a)); [|vm_compute]; discriminate.
Qed.

Lemma clauses_from_items (cs : list Clause) (auto_no : nat) (n t : str) :
  In (n, t) (clauses_from auto_no cs) ->
  n <> [] /\ exists c, In c cs /\ t = _norm_text (text c).
Proof.
  revert auto_no. induction cs as [|c cs IH]; intros auto_no; cbn; [tauto|].
  destruct (truthy (no c)) eqn:E; cbn; intros [[= <- <-] | Hin].
  - split; [destruct (no c); [discriminate E | discriminate]|].
    exists c. auto.
  - destruct (IH _ Hin) as (Hn & c' & Hc' & Ht). split; [exact Hn|].
    exists c'. auto.
  - split; [apply str_of_nat_nonempty|]. exists c. auto.
  - destruct (IH _ Hin) as (Hn & c' & Hc' & Ht). split; [exact Hn|].
    exists c'. auto.
Qed.

Lemma dict_set_items (m : dict) (k : key) (v : str) (item : key * str) :
  In item (dict_set m k v) -> In item m \/ item = (k, v).
Proof.
  induction m as [|[k' v'] m IH]; cbn.
  - intros [<- | []]. now right.
  - destruct (key_eqb k k') eqn:E; cbn.
    + apply key_eqb_eq in E. subst k'. intros [<- | Hin]; [now right | auto].
    + intros [<- | Hin]; [now left; left|].
      destruct (IH Hin); auto.
Qed.

Lemma dict_update_items (ws : list (key * str)) (m : dict) (item : key * str) :
  In item (dict_update m ws) -> In item m \/ In item ws.
Proof.
  revert m. induction ws as [|w ws IH]; intros m; cbn; [auto|].
  intros Hin. apply IH in Hin. destruct Hin as [Hin | Hin]; [|auto].
  apply dict_set_items in Hin. destruct Hin as [Hin | ->]; [auto|].
  right; left. now destruct w.
Qed.

Lemma dict_set_length (m : dict) (k : key) (v : str) :
  length (dict_set m k v) <= S (length m).
Proof.
  induction m as [|[k' v'] m IH]; cbn; [lia|].
  destruct (key_eqb k k'); cbn; lia.
Qed.

Lemma dict_update_length (ws : list (key * str)) (m : dict) :
  length (dict_update m ws) <= length m + length ws.
Proof.
  revert m. induction ws as [|w ws IH]; intros m; cbn; [lia|].
  unfold dict_update in IH. etransitivity; [apply IH|].
  pose proof (dict_set_length m (fst w) (snd w)). lia.
Qed.

Lemma article_writes_length (arts : list Article) :
  length (flat_map article_writes arts) = length (all_clauses arts).
Proof.
  induction arts as [|a arts IH]; cbn; [reflexivity|].
  rewrite !length_app, IH. unfold article_writes, _clauses_of.
  now rewrite length_map, clauses_from_length.
Qed.

(** [X6] The index of a structure: no key comes twice, there are at most
    as many entries as clauses, and every entry stands under the non-empty
    identifier of one of the articles and a non-empty ordinal, and holds
    the normalised text of one of that article's clauses. *)
Theorem _kv_index_entries (struct : Structure) :
  NoDup (map fst (_kv_index struct))
  /\ length (_kv_index struct) <= length (all_clauses (articles struct))
  /\ forall k v, In (k, v) (_kv_index struct) ->
       fst k <> [] /\ snd k <> []
       /\ exists a c, In a (articles struct) /\ In c (clauses a)
                      /\ fst k = _article_id a /\ v = _norm_text (text c).
Proof.
  split; [apply _kv_index_nodup|]. split.
  - rewrite _kv_index_writes, <- article_writes_length.
    apply (dict_update_length _ []).
  - intros k v Hin. rewrite _kv_index_writes in Hin.
    apply dict_update_items in Hin. destruct Hin as [[] | Hin].
    apply in_flat_map in Hin. destruct Hin as (a & Ha & Hw).
    unfold article_writes in Hw. apply in_map_iff in Hw.
    destruct Hw as ([n t] & [= <- <-] & Hnt). cbn [fst snd].
    apply clauses_from_items in Hnt. destruct Hnt as (Hn & c & Hc & Ht).
    split; [apply _article_id_nonempty|]. split; [exact Hn|].
    now exists a, c.
Qed.

(** [X7] Of several clauses written under one key, the last one in
    document order is the one the index keeps. *)
Theorem _kv_index_last_wins (struct : Structure) (before after : list (key * str))
    (k : key) (v : str) :
  flat_map article_writes (articles struct) = before ++ (k, v) :: after ->
  ~ In k (map fst after) ->
  dict_get (_kv_index struct) k = Some v.
Proof.
  intros Hw Hlast. rewrite _kv_index_writes, dict_get_update, Hw.
  rewrite rev_app_distr. cbn [rev]. rewrite <- app_assoc, dict_get_app.
  replace (dict_get (rev after) k) with (@None str).
  - cbn. now rewrite key_eqb_refl.
  - symmetry. apply dict_get_none. intros Hin. apply Hlast.
    rewrite map_rev in Hin. now rewrite <- in_rev in Hin.
Qed.

Lemma _kv_index_last_wins_witness :
  dict_get (_kv_index (only_articles [first_dieu_1; second_dieu_1]))
           (U "Điều 1", U "1")
  = Some (U "y").
Proof.
  apply (_kv_index_last_wins (only_articles [first_dieu_1; second_dieu_1])
           [((U "Điều 1", U "1"), U "x")] []).
  - vm_compute. reflexivity.
  - intros [].
Defined.

(** *** Inserting an article *)

Lemma writes_elsewhere (l : list Article) (k : key) :
  (forall b, In b l -> _article_id b <> fst k) ->
  dict_get (rev (flat_map article_writes l)) k = None.
Proof.
  intros Hl. destruct (dict_get (rev (flat_map article_writes l)) k) as [v|] eqn:E;
    [exfalso | reflexivity].
  apply dict_get_in in E. rewrite <- in_rev in E.
  apply in_flat_map in E. destruct E as (b & Hb & Hw).
  apply article_writes_key in Hw. destruct Hw as [Hw _].
  now apply (Hl b Hb).
Qed.

Lemma index_of_one (a : Article) (k : key) :
  dict_get (_kv_index (only_articles [a])) k = dict_get (rev (article_writes a)) k.
Proof.
  rewrite _kv_index_writes, dict_get_update. cbn [articles only_articles flat_map].
  rewrite app_nil_r. now destruct (dict_get (rev (article_writes a)) k).
Qed.

Lemma index_after_insertion (base revised : Structure) (pre post : list Article)
    (a : Article) (k : key) :
  articles base = pre ++ post ->
  articles revised = pre ++ a :: post ->
  (forall b, In b (pre ++ post) -> _article_id b <> _article_id a) ->
  (fst k = _article_id a ->
   dict_get (_kv_index base) k = None
   /\ dict_get (_kv_index revised) k = dict_get (_kv_index (only_articles [a])) k)
  /\ (fst k <> _article_id a ->
      dict_get (_kv_index revised) k = dict_get (_kv_index base) k).
Proof.
  intros Hbase Hrev Hfresh.
  rewrite index_of_one, !_kv_index_writes, !dict_get_update, Hbase, Hrev.
  rewrite !flat_map_app. cbn [flat_map].
  rewrite !rev_app_distr, !dict_get_app. cbn [dict_get]. split.
  - intros Hk.
    rewrite (writes_elsewhere pre k), (writes_elsewhere post k);
      try (intros b Hb; rewrite Hk; apply Hfresh, in_app_iff; auto).
    split; [reflexivity|]. now destruct (dict_get (rev (article_writes a)) k).
  - intros Hk.
    replace (dict_get (rev (article_writes a)) k) with (@None str);
      [now destruct (dict_get (rev (flat_map article_writes post)) k),
                    (dict_get (rev (flat_map article_writes pre)) k)|].
    symmetry. destruct (dict_get (rev (article_writes a)) k) eqn:E; [|reflexivity].
    exfalso. apply Hk.
    assert (Hw : dict_get (rev (article_writes a)) k <> None) by congruence.
    now apply written_by in Hw.
Qed.

(** [X8] Inserting an article whose identifier no other article bears
    touches nothing else: the records of the diff are exactly the added
    records for the entries of the new article's own index.  The articles
    after the insertion point keep their keys. *)
Theorem diff_inserted_article (base revised : Structure) (pre post : list Article)
    (a : Article) (r : ChangeRecord) :
  articles base = pre ++ post ->
  articles revised = pre ++ a :: post ->
  (forall b, In b (pre ++ post) -> _article_id b <> _article_id a) ->
  In r (diff_articles base revised)
  <-> exists k v, In (k, v) (_kv_index (only_articles [a]))
                  /\ r = added_record k v.
Proof.
  intros Hbase Hrev Hfresh.
  pose proof (fun k => index_after_insertion base revised pre post a k
                         Hbase Hrev Hfresh) as Hidx.
  assert (Hcase : forall k : key,
             fst k = _article_id a \/ fst k <> _article_id a).
  { intros k. destruct (list_eq_dec N.eq_dec (fst k) (_article_id a)); auto. }
  rewrite diff_articles_in. split.
  - intros [(k & v & HB & HA & ->) | [(k & b & v & HB & HA & Hne & _)
                                     | (k & v & HA & HB & _)]].
    + exists k, v. split; [|reflexivity]. apply _kv_index_item.
      destruct (Hidx k) as [Hin Hout]. destruct (Hcase k) as [Hk | Hk].
      * destruct (Hin Hk) as [_ <-]. exact HB.
      * rewrite (Hout Hk) in HB. congruence.
    + exfalso. destruct (Hidx k) as [Hin Hout]. destruct (Hcase k) as [Hk | Hk].
      * destruct (Hin Hk) as [E _]. congruence.
      * rewrite (Hout Hk) in HB. congruence.
    + exfalso. destruct (Hidx k) as [Hin Hout]. destruct (Hcase k) as [Hk | Hk].
      * destruct (Hin Hk) as [E _]. congruence.
      * rewrite (Hout Hk) in HB. congruence.
  - intros (k & v & Hin & ->). left. exists k, v.
    apply _kv_index_item in Hin.
    assert (Hk : fst k = _article_id a).
    { rewrite index_of_one in Hin.
      assert (Hw : dict_get (rev (article_writes a)) k <> None) by congruence.
      now apply written_by in Hw. }
    destruct (Hidx k) as [Hin' _]. destruct (Hin' Hk) as [E1 E2].
    repeat split; congruence.
Qed.

Lemma diff_inserted_article_witness :
  In (added_record (U "Điều 2", U "1") (U "y"))
     (diff_articles (only_articles [dieu_1]) (only_articles [dieu_1; dieu_2])).
Proof.
  apply (diff_inserted_article (only_articles [dieu_1])
           (only_articles [dieu_1; dieu_2]) [dieu_1] [] dieu_2).
  - reflexivity.
  - reflexivity.
  - intros b [<- | []]. vm_compute. discriminate.
  - exists (U "Điều 2", U "1"), (U "y"). split; [|reflexivity].
    vm_compute. left. reflexivity.
Defined.

(** *** The shape of a change record *)

(** A key of an index is the identifier of one of the articles and one of
    the ordinals [_clauses_of] gives its clauses. *)
Lemma index_key_origin (struct : Structure) (k : key) (v : str) :
  dict_get (_kv_index struct) k = Some v ->
  exists a, In a (articles struct)
            /\ fst k = _article_id a
            /\ In (snd k) (map fst (_clauses_of a)).
Proof.
  intros E. apply dict_get_in in E. rewrite _kv_index_writes in E.
  apply dict_update_items in E. destruct E as [[] | E].
  apply in_flat_map in E. destruct E as (a & Ha & Hw).
  exists a. split; [exact Ha|]. now apply article_writes_key in Hw.
Qed.

(** [X1] Every record of a diff is at clause level, and its [id] is the
    identifier of an article, a full stop and the ordinal of one of that
    article's clauses.  It is of one of three kinds.  An added record
    names a clause of the new structure whose key the base index lacks,
    and carries the text of the new index as [to], without [from].  A
    deleted record names a clause of the base structure whose key the new
    index lacks, and carries the text of the base index as [from],
    without [to].  A modified record names a key of both indexes and
    carries the two texts, which differ. *)
Theorem diff_records_well_formed (A B : Structure) (r : ChangeRecord) :
  In r (diff_articles A B) ->
  level r = U "clause"
  /\ exists (a : Article) (n : str),
       In n (map fst (_clauses_of a))
       /\ id r = _article_id a ++ U "." ++ n
       /\ ((change r = U "added" /\ In a (articles B)
            /\ from r = None
            /\ dict_get (_kv_index A) (_article_id a, n) = None
            /\ exists v, to r = Some v
                         /\ dict_get (_kv_index B) (_article_id a, n) = Some v)
           \/ (change r = U "modified" /\ In a (articles B)
               /\ exists b v, from r = Some b /\ to r = Some v /\ b <> v
                              /\ dict_get (_kv_index A) (_article_id a, n) = Some b
                              /\ dict_get (_kv_index B) (_article_id a, n) = Some v)
           \/ (change r = U "deleted" /\ In a (articles A)
               /\ to r = None
               /\ dict_get (_kv_index B) (_article_id a, n) = None
               /\ exists v, from r = Some v
                            /\ dict_get (_kv_index A) (_article_id a, n) = Some v)).
Proof.
  intros Hin. apply diff_articles_in in Hin.
  destruct Hin as [(k & v & HB & HA & ->) | [(k & b & v & HB & HA & Hne & ->)
                                          | (k & v & HA & HB & ->)]];
    (split; [reflexivity|]).
  - destruct (index_key_origin B k v HB) as (a & Ha & Hid & Hn).
    destruct k as [aid n]. cbn [fst snd] in Hid, Hn. subst aid.
    exists a, n. split; [exact Hn|]. split; [reflexivity|].
    left. repeat split; try assumption. now exists v.
  - destruct (index_key_origin B k v HB) as (a & Ha & Hid & Hn).
    destruct k as [aid n]. cbn [fst snd] in Hid, Hn. subst aid.
    exists a, n. split; [exact Hn|]. split; [reflexivity|].
    right; left. split; [reflexivity|]. split; [exact Ha|]. now exists b, v.
  - destruct (index_key_origin A k v HA) as (a & Ha & Hid & Hn).
    destruct k as [aid n]. cbn [fst snd] in Hid, Hn. subst aid.
    exists a, n. split; [exact Hn|]. split; [reflexivity|].
    right; right. repeat split; try assumption. now exists v.
Qed.

(** The fee of clause 1 of "Điều 1" raised: the record is at clause
    level, and its [id] is made of the identifier of one of the two
    articles and of an ordinal of its clauses. *)
Lemma diff_records_well_formed_witness :
  In (modified_record (U "Điều 1", U "1") (U "Phí 2 triệu") (U "Phí 3 triệu"))
     (diff_articles (only_articles [dieu_1]) (only_articles [dieu_1_revised]))
  /\ level (modified_record (U "Điều 1", U "1") (U "Phí 2 triệu") (U "Phí 3 triệu"))
     = U "clause"
  /\ exists (a : Article) (n : str),
       In n (map fst (_clauses_of a))
       /\ U "Điều 1.1" = _article_id a ++ U "." ++ n
       /\ In a [dieu_1; dieu_1_revised].
Proof.
  assert (Hin : In (modified_record (U "Điều 1", U "1") (U "Phí 2 triệu")
                                    (U "Phí 3 triệu"))
                   (diff_articles (only_articles [dieu_1])
                                  (only_articles [dieu_1_revised])))
    by (vm_compute; left; reflexivity).
  split; [exact Hin|].
  destruct (diff_records_well_formed _ _ _ Hin) as (Hl & a & n & Hn & Hid & Hk).
  split; [exact Hl|]. exists a, n. split; [exact Hn|].
  split; [rewrite <- Hid; vm_compute; reflexivity|].
  destruct Hk as [(_ & Ha & _) | [(_ & Ha & _) | (_ & Ha & _)]];
    cbn [articles only_articles] in Ha; destruct Ha as [<- | []];
    [right; left | right; left | left]; reflexivity.
Defined.

(* ================================================================== *)
(** ** More on the segmenter *)

Section SegmenterMore.
Context `{Unicode}.

(** *** Clauses of a span *)

Lemma flush_clause_nonempty clauses c : flush_clause clauses (Some c) <> [].
Proof. cbn. intros E. apply app_eq_nil in E. destruct E; discriminate. Qed.

(** The line loop holds a clause as soon as it has met a non-blank line. *)
Lemma clause_line_keeps clauses c line :
  exists clauses' c', clause_line (clauses, Some c) line = (clauses', Some c').
Proof.
  unfold clause_line. destruct (negb (truthy (strip line))); [eauto|].
  destruct (rmatch NUMBERED_LINE (strip line)); eauto.
Qed.

(** [X9] A span gives no clause only when it is empty: whatever the
    numbered-clause pattern and the line loop find, a non-empty content
    comes back with at least one clause. *)
Theorem _parse_clauses_advanced_empty_iff (content : str) :
  _parse_clauses_advanced content = [] <-> content = [].
Proof.
  split; [|now intros ->].
  destruct content as [|x content]; [reflexivity|]. intros E. exfalso.
  unfold _parse_clauses_advanced in E. cbn [truthy negb] in E.
  destruct (finditer CLAUSE (x :: content)) as [|m ms]; [|discriminate E].
  destruct (fold_left clause_line _ _) as [clauses current].
  destruct (flush_clause clauses current); discriminate E.
Qed.

(** *** The line scan *)

Lemma extend_last_points cs extra :
  Forall (fun c => points c = []) cs ->
  Forall (fun c => points c = []) (extend_last cs extra).
Proof.
  induction cs as [|c cs IH]; intros Hcs; [constructor|].
  inversion Hcs as [|? ? Hc Hcs']; subst. cbn [extend_last].
  destruct cs as [|c' cs]; [constructor; [exact Hc | constructor]|].
  constructor; [exact Hc | now apply IH].
Qed.

Lemma extend_last_nonempty cs extra : cs <> [] -> extend_last cs extra <> [].
Proof. destruct cs as [|c [|c' cs]]; cbn; congruence. Qed.

Lemma save_article_units arts cur :
  Forall (fun a => scan_unit a /\ clauses a <> []) arts ->
  (forall a, cur = Some a -> scan_unit a) ->
  Forall (fun a => scan_unit a /\ clauses a <> []) (save_article arts cur).
Proof.
  intros Harts Hcur. unfold save_article. destruct cur as [a|]; [|exact Harts].
  destruct (clauses a) eqn:E; [exact Harts|].
  apply Forall_app. split; [exact Harts|].
  constructor; [|constructor]. split; [now apply Hcur | congruence].
Qed.

Lemma group_item_units st item :
  Forall (fun a => scan_unit a /\ clauses a <> []) (fst st) ->
  (forall a, snd st = Some a -> scan_unit a) ->
  Forall (fun a => scan_unit a /\ clauses a <> []) (fst (group_item st item))
  /\ (forall a, snd (group_item st item) = Some a -> scan_unit a).
Proof.
  destruct st as [arts cur], item as [header item_text]. cbn [fst snd].
  intros Harts Hcur. unfold group_item.
  destruct header; cbn [fst snd].
  - split; [now apply save_article_units|].
    intros a [= <-]. repeat split; cbn; try congruence. constructor.
  - split; [exact Harts|]. intros a [= <-].
    assert (Hc : scan_unit
                   match cur with
                   | Some a => a
                   | None => section_unit (U "General") (U "Document Content") []
                   end).
    { destruct cur as [c|]; [now apply Hcur|].
      repeat split; cbn; try congruence. constructor. }
    destruct Hc as (H1 & H2 & H3 & H4 & H5).
    repeat split; cbn [article chapter section title clauses]; auto.
    destruct (rmatch NUMBERED_LINE item_text).
    + apply Forall_app. split; [exact H5|]. constructor; [reflexivity|constructor].
    + destruct (clauses _) eqn:Ec.
      * constructor; [reflexivity | constructor].
      * now apply extend_last_points.
Qed.

Lemma scan_units items st :
  Forall (fun a => scan_unit a /\ clauses a <> []) (fst st) ->
  (forall a, snd st = Some a -> scan_unit a) ->
  Forall (fun a => scan_unit a /\ clauses a <> [])
         (fst (fold_left group_item items st))
  /\ (forall a, snd (fold_left group_item items st) = Some a -> scan_unit a).
Proof.
  revert st. induction items as [|item items IH]; intros st Ha Hc; cbn [fold_left].
  - now split.
  - destruct (group_item_units st item Ha Hc) as [Ha' Hc']. now apply IH.
Qed.

(** [X10] Whatever the text, the line-by-line fallback returns articles
    under a section label, each with a title and at least one clause; it
    never labels an article or a chapter and never finds a point. *)
Theorem _segment_fallback_advanced_units (text : str) :
  Forall (fun a => scan_unit a /\ clauses a <> [])
         (_segment_fallback_advanced text).
Proof.
  unfold _segment_fallback_advanced.
  assert (Hsc : Forall (fun a => scan_unit a /\ clauses a <> [])
                       (scanned_articles text)).
  { unfold scanned_articles.
    destruct (scan_units (structured_lines text) ([], None)) as [Ha Hc];
      [constructor | discriminate |].
    destruct (fold_left group_item _ _) as [arts cur]. cbn [fst snd] in *.
    now apply save_article_units. }
  destruct (scanned_articles text); [|exact Hsc].
  constructor; [|constructor]. split; [|discriminate].
  repeat split; cbn; try congruence. constructor; [reflexivity | constructor].
Qed.

(** *** The chapter stage *)



End SegmenterMore.

(* ------------------------------------------------------------------ *)
(** *** What [segment] returns for a non-empty document *)

Section SegmentResult.
Context `{Unicode}.

(** The type the cascade is chosen by, and the cascade chosen. *)
Lemma segment_unfold (doc_text : str) (doc_meta : option Meta) :
  doc_text <> [] ->
  let text := _normalize_text doc_text in
  let doc_type := _detect_document_type text doc_meta in
  exists result,
    segment doc_text doc_meta
    = {| articles := articles result;
         strategy_used := strategy_used result;
         validation := Some (_validate_segmentation text result (length text));
         document_type := Some doc_type |}
    /\ ((doc_type = U "law" /\ result = _segment_law_document text)
        \/ (doc_type = U "decree" /\ result = _segment_decree_document text)
        \/ (doc_type = U "circular" /\ result = _segment_circular_document text)
        \/ (doc_type <> U "law" /\ doc_type <> U "decree"
            /\ doc_type <> U "circular"
            /\ result = _segment_generic_document text)).
Proof.
  intros Hne text doc_type. unfold segment.
  rewrite (truthy_nonempty _ Hne). cbn [negb]. fold text. fold doc_type.
  destruct (str_eqb doc_type (U "law")) eqn:E1.
  { apply str_eqb_eq in E1. eexists. split; [reflexivity|]. now left. }
  destruct (str_eqb doc_type (U "decree")) eqn:E2.
  { apply str_eqb_eq in E2. eexists. split; [reflexivity|]. now right; left. }
  destruct (str_eqb doc_type (U "circular")) eqn:E3.
  { apply str_eqb_eq in E3. eexists. split; [reflexivity|].
    now right; right; left. }
  eexists. split; [reflexivity|]. right; right; right.
  repeat split; try reflexivity; intros E;
    [rewrite E in E1 | rewrite E in E2 | rewrite E in E3]; discriminate.
Qed.

Lemma cascade_nonempty (text : str) (result : Structure) :
  result = _segment_law_document text
  \/ result = _segment_decree_document text
  \/ result = _segment_circular_document text
  \/ result = _segment_generic_document text ->
  1 <= length (articles result).
Proof.
  intros [-> | [-> | [-> | ->]]].
  - apply _segment_law_document_nonempty.
  - apply _segment_decree_document_nonempty.
  - apply _segment_circular_document_nonempty.
  - apply _segment_generic_document_nonempty.
Qed.

Lemma detected_type_known (text : str) (doc_meta : option Meta) :
  In (_detect_document_type text doc_meta) document_types.
Proof.
  unfold _detect_document_type. destruct doc_meta as [meta|].
  - destruct (first_type _ DOC_TYPE_PATTERNS) as [d|] eqn:E.
    + apply first_type_in in E. cbn in E. unfold document_types. cbn.
      intuition.
    + apply detect_in_text_type.
  - apply detect_in_text_type.
Qed.

Lemma total_clauses_count (arts : list Article) :
  list_sum (map (fun a => length (clauses a)) arts) = length (all_clauses arts).
Proof.
  unfold all_clauses.
  induction arts as [|a arts IH]; [reflexivity|].
  cbn [map flat_map]. rewrite length_app, <- IH. reflexivity.
Qed.

Lemma ratio_of_nonnegative (a b : nat) : (0 <= ratio_of a b)%Q.
Proof.
  unfold ratio_of. destruct (0 <? b); [|apply Qle_refl].
  unfold Qle. cbn. lia.
Qed.

(** [X12] The result for a non-empty document: a validation with its
    statistics and a document type among the seven; the status is
    ["success"] or ["warning"], never ["error"] or ["empty"], and it is
    ["success"] exactly when no issue is listed; the statistics count the
    articles (at least one) and clauses that are returned, give the length
    of the normalised text, and a ratio that is not negative. *)
Theorem segment_result_well_formed (doc_text : str) (doc_meta : option Meta) :
  doc_text <> [] ->
  let r := segment doc_text doc_meta in
  exists v st doc_type,
    validation r = Some v /\ stats v = Some st /\ document_type r = Some doc_type
    /\ In doc_type document_types
    /\ (status v = U "success" \/ status v = U "warning")
    /\ (status v = U "success" <-> issues v = [])
    /\ original_length st = length (_normalize_text doc_text)
    /\ total_articles st = length (articles r)
    /\ 1 <= total_articles st
    /\ total_clauses st = length (all_clauses (articles r))
    /\ segmented_length st
       = list_sum (map (fun c => length (text c)) (all_clauses (articles r)))
    /\ (0 <= preservation_ratio st)%Q.
Proof.
  intros Hne r. subst r.
  destruct (segment_unfold doc_text doc_meta Hne) as (result & -> & Hres).
  set (text := _normalize_text doc_text) in *.
  assert (Hart : 1 <= length (articles result)).
  { apply (cascade_nonempty text). tauto. }
  destruct (_validate_segmentation_closed_form text result (length text))
    as (Hi & Hs & _).
  set (v := _validate_segmentation text result (length text)) in *.
  cbn [validation document_type articles].
  exists v. eexists. exists (_detect_document_type text doc_meta).
  split; [reflexivity|]. split; [reflexivity|]. split; [reflexivity|].
  split; [apply detected_type_known|].
  cbn [original_length total_articles total_clauses segmented_length
       preservation_ratio].
  destruct (articles result) as [|a arts] eqn:Ea; [cbn in Hart; lia|].
  change (length (a :: arts) =? 0) with false in Hi, Hs.
  unfold issues_before_clauses in Hi.
  change (length (a :: arts) =? 0) with false in Hi. cbv iota in Hs.
  assert (Hlong : existsb too_long (all_clauses (a :: arts)) = false ->
                  filter too_long (all_clauses (a :: arts)) = []).
  { intros E. destruct (filter too_long _) as [|c cs] eqn:Ef; [reflexivity|].
    assert (Hin : In c (filter too_long (all_clauses (a :: arts))))
      by (rewrite Ef; now left).
    apply filter_In in Hin.
    assert (existsb too_long (all_clauses (a :: arts)) = true)
      by (apply existsb_exists; now exists c).
    congruence. }
  assert (Hlong' : existsb too_long (all_clauses (a :: arts)) = true ->
                   filter too_long (all_clauses (a :: arts)) <> []).
  { intros E. apply existsb_exists in E. destruct E as (c & Hc & Hl).
    intros Ef.
    assert (Hin : In c (filter too_long (all_clauses (a :: arts))))
      by (apply filter_In; auto).
    now rewrite Ef in Hin. }
  repeat split.
  - rewrite Hs. destruct (_ || _ || _); auto.
  - rewrite Hs, Hi.
    destruct (Qltb _ (7 # 10)); [intros E; vm_compute in E; discriminate E|].
    destruct (Qltb (13 # 10) _); [intros E; vm_compute in E; discriminate E|].
    cbn [orb app].
    destruct (existsb too_long _) eqn:El;
      [intros E; vm_compute in E; discriminate E|].
    intros _. now rewrite (Hlong eq_refl).
  - rewrite Hs, Hi.
    destruct (Qltb _ (7 # 10)); [discriminate|].
    destruct (Qltb (13 # 10) _); [discriminate|].
    cbn [orb app].
    destruct (existsb too_long _) eqn:El; [|reflexivity].
    intros E. exfalso. apply (Hlong' eq_refl).
    now destruct (filter too_long _).
  - exact Hart.
  - apply total_clauses_count.
  - apply ratio_of_nonnegative.
Qed.

End SegmentResult.

Lemma segment_result_well_formed_witness :
  exists v, validation (@segment latin_vn two_dieu_text None) = Some v
            /\ (status v = U "success" \/ status v = U "warning").
Proof.
  assert (Hne : two_dieu_text <> []) by (vm_compute; discriminate).
  destruct (@segment_result_well_formed latin_vn two_dieu_text None Hne)
    as (v & st & doc_type & Hv & _ & _ & _ & Hs & _).
  exists v. split; [exact Hv | exact Hs].
Defined.

(* ------------------------------------------------------------------ *)
(** *** The strategy tag *)

Section StrategyTag.
Context `{Unicode}.

Lemma generic_tag (text : str) :
  exists s, strategy_used (_segment_generic_document text) = Some s
            /\ In s strategy_tags.
Proof.
  unfold _segment_generic_document, strategy_tags.
  destruct (2 <=? length (finditer ART_LAW text)).
  { eexists. split; [reflexivity | now left]. }
  cbn [first_strategy].
  destruct (_try_segment_by_chapters text).
  2:{ eexists. split; [reflexivity | right; now left]. }
  change (_try_segment_by_sections text) with (@nil Article). cbv iota.
  destruct (_try_segment_by_roman text).
  2:{ eexists. split; [reflexivity | right; right; now left]. }
  pose proof (_segment_fallback_advanced_nonempty text) as Hne.
  destruct (_segment_fallback_advanced text); [cbn in Hne; lia|].
  eexists. split; [reflexivity | right; right; right; now left].
Qed.

Lemma law_tag (text : str) :
  strategy_used (_segment_law_document text)
  = if 2 <=? length (finditer ART_LAW text) then Some (U "dieu") else None.
Proof.
  unfold _segment_law_document.
  destruct (2 <=? length (finditer ART_LAW text)); [reflexivity|].
  destruct (finditer CHAPTER text); [|reflexivity].
  now destruct (finditer ART_LAW text).
Qed.

(** [X13] The strategy tag of a result for a non-empty document.  When it
    is set it is one of ["dieu"], ["chapters"], ["roman"], ["fallback"]:
    ["sections"] and ["ultimate_fallback"] never come out.  It is missing
    exactly for a decree, for a circular, and for a law with fewer than
    two Điều matches. *)
Theorem segment_strategy_tag (doc_text : str) (doc_meta : option Meta) :
  doc_text <> [] ->
  let r := segment doc_text doc_meta in
  (forall s, strategy_used r = Some s -> In s strategy_tags)
  /\ (strategy_used r = None
      <-> document_type r = Some (U "decree")
          \/ document_type r = Some (U "circular")
          \/ (document_type r = Some (U "law")
              /\ length (finditer ART_LAW (_normalize_text doc_text)) < 2)).
Proof.
  intros Hne r. subst r.
  destruct (segment_unfold doc_text doc_meta Hne) as (result & -> & Hres).
  set (text := _normalize_text doc_text) in *.
  set (doc_type := _detect_document_type text doc_meta) in *.
  cbn [strategy_used document_type].
  assert (T1 : U "law" <> U "decree") by (vm_compute; discriminate).
  assert (T2 : U "law" <> U "circular") by (vm_compute; discriminate).
  assert (T3 : U "decree" <> U "circular") by (vm_compute; discriminate).
  destruct Hres as [[Ht ->] | [[Ht ->] | [[Ht ->] | (N1 & N2 & N3 & ->)]]].
  - rewrite law_tag, Ht.
    destruct (2 <=? length (finditer ART_LAW text)) eqn:E.
    + apply Nat.leb_le in E. split.
      * intros s [= <-]. now left.
      * split; [discriminate|].
        intros [E' | [E' | [_ Hlt]]]; [congruence | congruence | lia].
    + apply Nat.leb_gt in E. split; [discriminate|].
      split; [|reflexivity]. intros _. right; right. now split.
  - destruct (untagged_cascades text) as (-> & _ & _). rewrite Ht.
    split; [discriminate|]. split; [|reflexivity]. intros _. now left.
  - destruct (untagged_cascades text) as (_ & -> & _). rewrite Ht.
    split; [discriminate|]. split; [|reflexivity]. intros _. right; now left.
  - destruct (generic_tag text) as (s & -> & Hs). split.
    + now intros s' [= <-].
    + split; [discriminate|].
      intros [E' | [E' | [E' _]]]; congruence.
Qed.

End StrategyTag.

Lemma segment_strategy_tag_witness :
  strategy_used (@segment latin_vn decree_text None) = None.
Proof.
  assert (Hne : decree_text <> []) by (vm_compute; discriminate).
  apply (proj2 (@segment_strategy_tag latin_vn decree_text None Hne)).
  left. vm_compute. reflexivity.
Defined.

(* ------------------------------------------------------------------ *)
(** *** A document of white space *)

Lemma lstrip_all_space (s : str) :
  Forall (fun c => isspace c = true) s -> lstrip s = [].
Proof.
  induction 1 as [|c s Hc _ IH]; cbn; [reflexivity|]. now rewrite Hc.
Qed.

Lemma strip_all_space (s : str) :
  Forall (fun c => isspace c = true) s -> strip s = [].
Proof. intros Hs. unfold strip. now rewrite (lstrip_all_space s Hs). Qed.

Lemma _normalize_text_all_space (s : str) :
  Forall (fun c => isspace c = true) s -> _normalize_text s = [].
Proof.
  intros Hs. unfold _normalize_text. rewrite (strip_all_space s Hs).
  vm_compute. reflexivity.
Qed.

Section WhiteSpace.
Context `{Unicode}.

Lemma no_structure_empty : no_structure [].
Proof. repeat split. cbn. lia. Qed.

(** [X14] A document that is not empty but holds white space only is not
    answered as an empty document: its normalised text is empty, no
    pattern can classify it, and it comes back as one "Document" article
    with one clause of empty text, under the status ["warning"] for a
    preservation ratio of 0. *)
Theorem segment_white_space_only (doc_text : str) (doc_meta : option Meta) :
  doc_text <> [] ->
  Forall (fun c => isspace c = true) doc_text ->
  let r := segment doc_text doc_meta in
  articles r
  = [ {| article := None; chapter := None;
         section := Some (U "Document"); title := Some (U "Full Content");
         chapter_title := None;
         clauses := [ {| no := U "1"; text := []; points := [] |} ] |} ]
  /\ (exists v, validation r = Some v
                /\ status v = U "warning"
                /\ issues v = [Low_content_preservation 0])
  /\ (doc_meta = None ->
      document_type r = Some (U "generic")
      /\ strategy_used r = Some (U "fallback")).
Proof.
  intros Hne Hws r. subst r.
  pose proof (_normalize_text_all_space doc_text Hws) as Hn.
  destruct (segment_unfold doc_text doc_meta Hne) as (result & Hseg & Hres).
  rewrite Hn in Hseg, Hres. rewrite Hseg. cbn [articles validation document_type
                                                strategy_used].
  assert (Hart : articles result = whole_document []).
  { destruct Hres as [[_ ->] | [[_ ->] | [[_ ->] | (_ & _ & _ & ->)]]].
    - apply no_structure_law, no_structure_empty.
    - apply no_structure_decree, no_structure_empty.
    - apply no_structure_circular, no_structure_empty.
    - apply no_structure_generic, no_structure_empty. }
  split; [exact Hart|]. split.
  - eexists. split; [reflexivity|].
    destruct (_validate_segmentation_closed_form [] result (length (@nil N)))
      as (Hi & Hs & _).
    rewrite Hart in Hi, Hs. split; [rewrite Hs | rewrite Hi]; reflexivity.
  - intros ->. cbn in Hres.
    destruct Hres as [[E _] | [[E _] | [[E _] | (_ & _ & _ & ->)]]];
      try (vm_compute in E; discriminate E).
    split; reflexivity.
Qed.

End WhiteSpace.

Lemma segment_white_space_only_witness :
  exists v, validation (@segment latin_vn (U "   ") None) = Some v
            /\ status v = U "warning"
            /\ issues v = [Low_content_preservation 0].
Proof.
  refine (proj1 (proj2 (@segment_white_space_only latin_vn (U "   ") None _ _))).
  - vm_compute. discriminate.
  - vm_compute. repeat constructor.
Defined.

(* ================================================================== *)
(** ** Substitutions as list functions *)

(** *** From the scanner to [replace_matches] *)

Lemma slice_step (pre xs : str) (x : N) (from : nat) :
  from <= length pre ->
  slice (pre ++ x :: xs) from (S (length pre))
  = slice (pre ++ x :: xs) from (length pre) ++ [x].
Proof.
  intros Hle. unfold slice.
  replace (S (length pre) - from) with (S (length pre - from)) by lia.
  assert (Hs : skipn from (pre ++ x :: xs) = skipn from pre ++ x :: xs).
  { rewrite skipn_app. replace (from - length pre) with 0 by lia. reflexivity. }
  rewrite Hs.
  assert (Hl : length (skipn from pre) = length pre - from) by apply length_skipn.
  rewrite <- Hl, !firstn_app.
  replace (S (length (skipn from pre)) - length (skipn from pre)) with 1 by lia.
  rewrite Nat.sub_diag, firstn_all, firstn_all2 by lia.
  cbn. now rewrite app_nil_r.
Qed.

Lemma scan_splice (r : regex) (f : str -> nat) (repl : str) :
  matches_by r f ->
  forall xs pre pv skip from,
    from <= length pre + skip ->
    splice (pre ++ xs) repl from (scan r (length pre) pv xs skip)
    = slice (pre ++ xs) from (length pre + skip)
      ++ replace_matches f repl xs skip.
Proof.
  intros Hf. induction xs as [|x xs IH]; intros pre pv skip from Hle.
  - assert (Hend : slice (pre ++ []) from (length pre + skip)
                   = skipn from (pre ++ [])).
    { unfold slice. apply firstn_all2. rewrite length_skipn, length_app. cbn. lia. }
    rewrite Hend. destruct skip as [|n]; cbn [scan replace_matches].
    + destruct (Hf (length pre) pv []) as [Hlen Hm]. cbn in Hlen.
      destruct (attempt r false _) as [m|].
      * destruct Hm as (_ & _ & Hpos). lia.
      * cbn [splice]. symmetry. apply app_nil_r.
    + cbn [splice]. symmetry. apply app_nil_r.
  - assert (E : pre ++ x :: xs = (pre ++ [x]) ++ xs)
      by (rewrite <- app_assoc; reflexivity).
    assert (L : length (pre ++ [x]) = S (length pre))
      by (rewrite length_app; cbn; lia).
    destruct skip as [|n]; cbn [scan replace_matches].
    + destruct (Hf (length pre) pv (x :: xs)) as [Hlen Hm].
      destruct (attempt r false _) as [m|].
      * destruct Hm as (Hstart & Hend & Hpos).
        destruct (f (x :: xs)) as [|n] eqn:En; [lia|].
        replace (m_end m =? length pre) with false
          by (symmetry; apply Nat.eqb_neq; lia).
        cbn [splice]. rewrite Hstart, Hend.
        replace (length pre + S n - length pre - 1) with n by lia.
        rewrite <- L, E, (IH (pre ++ [x]) (Some x) n) by (rewrite L; lia).
        rewrite L. replace (length pre + 0) with (length pre) by lia.
        replace (slice ((pre ++ [x]) ++ xs) (length pre + S n) (S (length pre) + n))
          with (@nil N)
          by (unfold slice;
              replace (S (length pre) + n - (length pre + S n)) with 0 by lia;
              reflexivity).
        cbn [app]. reflexivity.
      * rewrite Hm. rewrite <- L, E, (IH (pre ++ [x]) (Some x) 0) by (rewrite L; lia).
        rewrite L, <- E. replace (length pre + 0) with (length pre) by lia.
        replace (S (length pre) + 0) with (S (length pre)) by lia.
        rewrite slice_step by lia. now rewrite <- app_assoc.
    + rewrite <- L, E, (IH (pre ++ [x]) (Some x) n) by (rewrite L; lia).
      rewrite L. now replace (S (length pre) + n) with (length pre + S n) by lia.
Qed.

(** A substitution is the rewriting of the subject from left to right. *)
Lemma sub_replace_matches (r : regex) (f : str -> nat) (repl s : str) :
  matches_by r f -> sub r repl s = replace_matches f repl s 0.
Proof.
  intros Hf. unfold sub, finditer.
  pose proof (scan_splice r f repl Hf s [] None 0 0 (Nat.le_0_l _)) as E.
  cbn [app length Nat.add] in E. rewrite E. reflexivity.
Qed.

(** *** Repetitions of a class *)

Lemma run_le_length (p : N -> bool) (xs : str) : run p xs <= length xs.
Proof. induction xs as [|x xs IH]; cbn; [lia|]. destruct (p x); cbn; lia. Qed.

(** With nothing to fail after it, [p{lo,}] takes the whole run or fails. *)
Lemma rep_greedy_run (p : N -> bool) (g : caps) (xs : str) :
  forall lo i pv,
    match rep_greedy p lo None i pv xs (fun c' => Some (c', g)) with
    | Some (c', g') => lo <= run p xs /\ pos c' = i + run p xs /\ g' = g
    | None => run p xs < lo
    end.
Proof.
  induction xs as [|x xs IH]; intros lo i pv; cbn [rep_greedy run].
  - destruct lo; cbn; [repeat split; lia | lia].
  - destruct (p x); cbn [andb can_take dec].
    + specialize (IH (pred lo) (S i) (Some x)).
      destruct (rep_greedy p (pred lo) None (S i) (Some x) xs _) as [[c' g']|].
      * destruct IH as (H1 & H2 & H3). repeat split; [lia | lia | exact H3].
      * destruct lo; cbn; [lia | lia].
    + destruct lo; cbn; [repeat split; lia | lia].
Qed.

Lemma rep_matches_by (lo : nat) (p : N -> bool) :
  1 <= lo -> matches_by (Rep true lo None p) (run_length lo p).
Proof.
  intros Hlo i pv xs. unfold run_length. split.
  - destruct (lo <=? run p xs); [apply run_le_length | lia].
  - unfold attempt. cbn [Re.run pos prev rest andb].
    pose proof (rep_greedy_run p [] xs lo i pv) as Hr.
    destruct (rep_greedy p lo None i pv xs _) as [[c' g']|].
    + destruct Hr as (H1 & H2 & _). cbn [m_start m_end].
      apply Nat.leb_le in H1 as H1'. rewrite H1'. repeat split; lia.
    + apply Nat.leb_gt in Hr. now rewrite Hr.
Qed.

Lemma crlf_matches_by : matches_by (lit [CR; NL]) crlf_length.
Proof.
  intros i pv xs. unfold crlf_length, attempt. cbn [lit Re.run pos prev rest andb].
  destruct xs as [|x [|y xs]]; cbn; [split; [lia | reflexivity] | |].
  - destruct (chr CR x); split; auto.
  - unfold chr. destruct (x =? CR)%N; cbn; [|split; [lia | reflexivity]].
    destruct (y =? NL)%N; cbn; split; auto; repeat split; lia.
Qed.

Lemma cr_matches_by : matches_by (lit [CR]) cr_length.
Proof.
  intros i pv xs. unfold cr_length, attempt. cbn [lit Re.run pos prev rest andb].
  destruct xs as [|x xs]; cbn; [split; [lia | reflexivity]|].
  unfold chr. destruct (x =? CR)%N; cbn; split; auto; repeat split; lia.
Qed.

(** *** What the rewriting keeps *)

Lemma replace_matches_chars (f : str -> nat) (repl xs : str) (skip : nat) (c : N) :
  In c (replace_matches f repl xs skip) -> In c xs \/ In c repl.
Proof.
  revert skip. induction xs as [|x xs IH]; intros skip.
  - destruct skip; cbn; tauto.
  - destruct skip as [|n]; cbn [replace_matches].
    + destruct (f (x :: xs)).
      * intros [<- | Hin]; [left; now left|].
        destruct (IH _ Hin); [left; now right | now right].
      * rewrite in_app_iff. intros [Hin | Hin]; [now right|].
        destruct (IH _ Hin); [left; now right | now right].
    + intros Hin. destruct (IH _ Hin); [left; now right | now right].
Qed.

Lemma in_skipn (n : nat) (l : str) (c : N) : In c (skipn n l) -> In c l.
Proof.
  intros Hin. rewrite <- (firstn_skipn n l). apply in_or_app. now right.
Qed.

Lemma in_firstn (n : nat) (l : str) (c : N) : In c (firstn n l) -> In c l.
Proof.
  intros Hin. rewrite <- (firstn_skipn n l). apply in_or_app. now left.
Qed.

Lemma splice_chars (s repl : str) (ms : list mobj) (from : nat) (c : N) :
  In c (splice s repl from ms) -> In c s \/ In c repl.
Proof.
  revert from. induction ms as [|m ms IH]; intros from; cbn [splice].
  - intros Hin. left. revert Hin. apply in_skipn.
  - rewrite !in_app_iff. intros [Hin | [Hin | Hin]]; [| now right | eauto].
    left. unfold slice in Hin. apply in_firstn in Hin. revert Hin. apply in_skipn.
Qed.

(** A substitution brings in no character but those of the replacement. *)
Lemma sub_chars (r : regex) (repl s : str) (c : N) :
  In c (sub r repl s) -> In c s \/ In c repl.
Proof. apply splice_chars. Qed.

(** *** [p+] replaced by one character *)

Lemma squeeze_after_run (p : N -> bool) (r : N) (xs : str) :
  run p xs = 0 -> squeeze p r true xs = squeeze p r false xs.
Proof. destruct xs as [|x xs]; cbn; [reflexivity|]. now destruct (p x). Qed.

Lemma replace_runs_squeeze (p : N -> bool) (r : N) (xs : str) :
  replace_matches (run_length 1 p) [r] xs 0 = squeeze p r false xs
  /\ replace_matches (run_length 1 p) [r] xs (run p xs) = squeeze p r true xs.
Proof.
  induction xs as [|x xs [IH0 IHr]]; [split; reflexivity|].
  assert (H0 : replace_matches (run_length 1 p) [r] (x :: xs) 0
               = squeeze p r false (x :: xs)).
  { cbn [replace_matches squeeze]. unfold run_length. cbn [run].
    destruct (p x); cbn [Nat.leb app].
    - f_equal. exact IHr.
    - f_equal. exact IH0. }
  split; [exact H0|].
  cbn [run]. destruct (p x) eqn:E.
  - cbn [replace_matches squeeze]. now rewrite E.
  - rewrite H0. symmetry. apply squeeze_after_run. cbn. now rewrite E.
Qed.

Lemma sub_plus_squeeze (p : N -> bool) (r : N) (s : str) :
  sub (plus p) [r] s = squeeze p r false s.
Proof.
  unfold plus. rewrite (sub_replace_matches _ (run_length 1 p)).
  - apply replace_runs_squeeze.
  - now apply rep_matches_by.
Qed.

(** *** [\r] replaced by [\n] *)

Lemma sub_cr (s : str) : sub (lit [CR]) [NL] s = replace_char CR NL s.
Proof.
  rewrite (sub_replace_matches _ cr_length _ _ cr_matches_by).
  induction s as [|x s IH]; [reflexivity|].
  cbn [replace_matches cr_length replace_char map].
  destruct (x =? CR)%N; cbn [app].
  - destruct s; [reflexivity|]. now rewrite IH.
  - now rewrite IH.
Qed.

(* ================================================================== *)
(** ** Normalised texts *)

(** *** Stripping *)

Lemma lstrip_app_end (l : str) (c : N) :
  isspace c = false -> lstrip (l ++ [c]) = lstrip l ++ [c].
Proof.
  intros Hc. induction l as [|x l IH]; cbn; [now rewrite Hc|].
  destruct (isspace x); [exact IH | reflexivity].
Qed.

Lemma rstrip_cons (c : N) (l : str) :
  isspace c = false -> rstrip (c :: l) = c :: rstrip l.
Proof.
  intros Hc. unfold rstrip. cbn [rev].
  now rewrite (lstrip_app_end _ _ Hc), rev_app_distr.
Qed.

Lemma lstrip_head (s : str) :
  match lstrip s with
  | [] => True
  | c :: _ => isspace c = false
  end.
Proof.
  induction s as [|x s IH]; cbn; [exact I|].
  destruct (isspace x) eqn:E; [exact IH | exact E].
Qed.

Lemma last_rev_cons (c d : N) (l : str) : last (rev (c :: l)) d = c.
Proof. cbn [rev]. apply last_last. Qed.

Lemma rstrip_last (s : str) (d : N) :
  rstrip s <> [] -> isspace (last (rstrip s) d) = false.
Proof.
  unfold rstrip. pose proof (lstrip_head (rev s)) as Hh.
  destruct (lstrip (rev s)) as [|c l]; [cbn; congruence|].
  intros _. now rewrite last_rev_cons.
Qed.

Lemma strip_stripped (s : str) : stripped (strip s).
Proof.
  unfold strip. pose proof (lstrip_head s) as Hh.
  destruct (lstrip s) as [|c l] eqn:E; [exact I|].
  rewrite (rstrip_cons c l Hh). cbn [stripped]. split; [exact Hh|].
  rewrite <- (rstrip_cons c l Hh). apply rstrip_last.
  rewrite (rstrip_cons c l Hh). discriminate.
Qed.

Lemma lstrip_nonspace (c : N) (l : str) :
  isspace c = false -> lstrip (c :: l) = c :: l.
Proof. intros Hc. cbn. now rewrite Hc. Qed.

Lemma strip_of_stripped (s : str) : stripped s -> strip s = s.
Proof.
  destruct s as [|c l]; [reflexivity|]. intros [Hc Hl].
  unfold strip. rewrite (lstrip_nonspace c l Hc). unfold rstrip.
  destruct (rev (c :: l)) as [|x t] eqn:E.
  - apply (f_equal (@length N)) in E. rewrite length_rev in E. discriminate E.
  - assert (Hx : x = last (c :: l) c).
    { rewrite <- (rev_involutive (c :: l)), E. now rewrite last_rev_cons. }
    rewrite lstrip_nonspace by (rewrite Hx; exact Hl).
    now rewrite <- E, rev_involutive.
Qed.

(** *** Squeezing *)

Section Squeeze.
Variables (p : N -> bool) (r : N).

Lemma squeeze_cons (x : N) (s : str) (b : bool) :
  squeeze p r b (x :: s)
  = if p x
    then if b then squeeze p r true s else r :: squeeze p r true s
    else x :: squeeze p r false s.
Proof. reflexivity. Qed.

Lemma squeeze_head (c : N) (s : str) (b : bool) :
  p c = false -> squeeze p r b (c :: s) = c :: squeeze p r false s.
Proof. intros Hc. cbn. now rewrite Hc. Qed.

(** Past a run, a text that ends outside the class starts outside it. *)
Lemma squeeze_true_head (s : str) (d : N) :
  s <> [] -> p (last s d) = false ->
  exists c t, squeeze p r true s = c :: t /\ p c = false.
Proof.
  induction s as [|x s IH]; [congruence|]. intros _ Hl.
  cbn [squeeze]. destruct (p x) eqn:E.
  - destruct s as [|y s]; [cbn in Hl; congruence|].
    apply IH; [discriminate | exact Hl].
  - eauto.
Qed.

Lemma squeeze_single (s : str) (d : N) :
  (s <> [] -> p (last s d) = false) ->
  forall b, single p r (squeeze p r b s).
Proof.
  induction s as [|x s IH]; intros Hl b; [exact I|].
  assert (Hl' : s <> [] -> p (last s d) = false).
  { intros Hs. destruct s; [congruence|]. now apply Hl. }
  cbn [squeeze]. destruct (p x) eqn:E.
  - assert (Hs : s <> []).
    { intros ->. cbn in Hl. rewrite Hl in E; [discriminate | discriminate]. }
    destruct (squeeze_true_head s d Hs (Hl' Hs)) as (c & t & Ec & Hc).
    destruct b; [now apply IH|].
    cbn [single]. split; [|now apply IH].
    intros _. split; [reflexivity|]. now rewrite Ec.
  - cbn [single]. split; [congruence | now apply IH].
Qed.

Lemma squeeze_last (s : str) (d : N) (b : bool) :
  s <> [] -> p (last s d) = false ->
  squeeze p r b s <> [] /\ last (squeeze p r b s) d = last s d.
Proof.
  revert b. induction s as [|x s IH]; [congruence|]. intros b _ Hl.
  destruct s as [|y s].
  - cbn in Hl. cbn [squeeze]. rewrite Hl. cbn. split; [discriminate|reflexivity].
  - assert (Hl' : p (last (y :: s) d) = false) by exact Hl.
    change (last (x :: y :: s) d) with (last (y :: s) d).
    rewrite squeeze_cons. destruct (p x).
    + destruct b.
      * apply IH; [discriminate | exact Hl'].
      * destruct (IH true ltac:(discriminate) Hl') as [Hne Hlast].
        split; [discriminate|].
        destruct (squeeze p r true (y :: s)) eqn:Es; [congruence|].
        exact Hlast.
    + destruct (IH false ltac:(discriminate) Hl') as [Hne Hlast].
      split; [discriminate|].
      destruct (squeeze p r false (y :: s)) eqn:Es; [congruence|].
      exact Hlast.
Qed.

Lemma squeeze_fixed (s : str) : single p r s -> squeeze p r false s = s.
Proof.
  induction s as [|x s IH]; [reflexivity|]. intros [Hx Hs].
  cbn [squeeze]. destruct (p x) eqn:E.
  - destruct (Hx eq_refl) as [-> Hnext]. f_equal.
    destruct s as [|y s]; [contradiction|].
    rewrite squeeze_head by exact Hnext.
    rewrite <- (squeeze_head y s false Hnext). now apply IH.
  - f_equal. now apply IH.
Qed.

End Squeeze.

(** *** [_norm_text] *)

Lemma _norm_text_squeeze (s : str) :
  _norm_text s = squeeze isspace 32 false (strip s).
Proof. unfold _norm_text. apply (sub_plus_squeeze isspace 32). Qed.

Lemma last_default (l : str) (c d e : N) : last (c :: l) d = last (c :: l) e.
Proof.
  revert c. induction l as [|y l IH]; intros c; [reflexivity|].
  change (last (y :: l) d = last (y :: l) e). apply IH.
Qed.

Lemma stripped_last (s : str) (d : N) :
  stripped s -> s <> [] -> isspace (last s d) = false.
Proof.
  destruct s as [|c l]; [congruence|]. intros [_ Hl] _.
  now rewrite (last_default l c d c).
Qed.

Lemma squeeze_stripped (s : str) :
  stripped s -> stripped (squeeze isspace 32 false s).
Proof.
  intros Hs. destruct s as [|c l]; [exact I|].
  pose proof (stripped_last (c :: l) c Hs ltac:(discriminate)) as Hl.
  destruct Hs as [Hc _].
  destruct (squeeze_last isspace 32 (c :: l) c false ltac:(discriminate) Hl)
    as [_ Hlast].
  rewrite squeeze_head in * by exact Hc.
  cbn [stripped]. split; [exact Hc|]. now rewrite Hlast.
Qed.

Lemma filter_lstrip (s : str) :
  filter (fun c => negb (isspace c)) (lstrip s)
  = filter (fun c => negb (isspace c)) s.
Proof.
  induction s as [|x s IH]; [reflexivity|]. cbn [lstrip filter].
  destruct (isspace x) eqn:E; cbn [negb]; [exact IH|].
  cbn [filter]. now rewrite E.
Qed.

Lemma filter_strip (s : str) :
  filter (fun c => negb (isspace c)) (strip s)
  = filter (fun c => negb (isspace c)) s.
Proof.
  unfold strip, rstrip.
  rewrite <- (rev_involutive (filter _ (rev _))), <- filter_rev, rev_involutive.
  rewrite filter_lstrip, filter_rev, rev_involutive. apply filter_lstrip.
Qed.

Lemma filter_squeeze (s : str) (b : bool) :
  filter (fun c => negb (isspace c)) (squeeze isspace 32 b s)
  = filter (fun c => negb (isspace c)) s.
Proof.
  revert b. induction s as [|x s IH]; intros b; [reflexivity|].
  rewrite squeeze_cons. cbn [filter]. destruct (isspace x) eqn:E; cbn [negb].
  - destruct b; [apply IH|]. cbn [filter].
    change (isspace 32) with true. cbn [negb]. apply IH.
  - cbn [filter]. rewrite E. cbn [negb]. f_equal. apply IH.
Qed.

(** [X15] What [_norm_text] returns: a text without white space at either
    end, in which every white-space character is a single space standing
    before a character that is not white space; and it has changed white
    space only, the other characters being those of the argument in the
    same order. *)
Theorem _norm_text_normal_form (s : str) :
  stripped (_norm_text s)
  /\ single isspace 32 (_norm_text s)
  /\ filter (fun c => negb (isspace c)) (_norm_text s)
     = filter (fun c => negb (isspace c)) s.
Proof.
  rewrite _norm_text_squeeze. pose proof (strip_stripped s) as Hs.
  split; [now apply squeeze_stripped|]. split.
  - apply (squeeze_single isspace 32 (strip s) 0%N).
    intros Hne. now apply stripped_last.
  - now rewrite filter_squeeze, filter_strip.
Qed.

(** [X16] [_norm_text] is idempotent: a normalised text is left as it
    is. *)
Theorem _norm_text_idempotent (s : str) :
  _norm_text (_norm_text s) = _norm_text s.
Proof.
  rewrite (_norm_text_squeeze (_norm_text s)).
  rewrite _norm_text_squeeze. pose proof (strip_stripped s) as Hs.
  rewrite strip_of_stripped by now apply squeeze_stripped.
  apply squeeze_fixed.
  apply (squeeze_single isspace 32 (strip s) 0%N).
  intros Hne. now apply stripped_last.
Qed.

(* ================================================================== *)
(** ** The two normalisers *)

(** *** Squeezed blanks *)

Section Blanks.
Variables (p : N -> bool) (r : N).
Hypothesis p_r : p r = true.

Lemma squeeze_chars (s : str) (b : bool) (c : N) :
  In c (squeeze p r b s) -> c = r \/ (In c s /\ p c = false).
Proof.
  revert b. induction s as [|x s IH]; intros b; [intros []|].
  rewrite squeeze_cons. destruct (p x) eqn:E.
  - destruct b.
    + intros Hin. destruct (IH _ Hin) as [-> | [Hc Hp]]; [now left|].
      right. split; [now right | exact Hp].
    + intros [<- | Hin]; [now left|].
      destruct (IH _ Hin) as [-> | [Hc Hp]]; [now left|].
      right. split; [now right | exact Hp].
  - intros [<- | Hin]; [right; split; [now left | exact E]|].
    destruct (IH _ Hin) as [-> | [Hc Hp]]; [now left|].
    right. split; [now right | exact Hp].
Qed.

Lemma squeeze_true_start (s : str) :
  match squeeze p r true s with
  | [] => True
  | c :: _ => p c = false
  end.
Proof.
  induction s as [|x s IH]; [exact I|]. rewrite squeeze_cons.
  destruct (p x) eqn:E; [exact IH | exact E].
Qed.

Lemma squeeze_no_double (s : str) (b : bool) : no_double r (squeeze p r b s).
Proof.
  revert b. induction s as [|x s IH]; intros b; [exact I|].
  rewrite squeeze_cons. destruct (p x) eqn:E.
  - destruct b; [apply IH|]. cbn [no_double]. split; [|apply IH].
    pose proof (squeeze_true_start s) as Hs.
    destruct (squeeze p r true s) as [|d t]; [exact I|].
    intros [_ ->]. congruence.
  - cbn [no_double]. split; [|apply IH].
    destruct (squeeze p r false s) as [|d t]; [exact I|].
    intros [-> _]. congruence.
Qed.

End Blanks.

(** *** Infixes *)

Lemma lstrip_suffix (s : str) : exists a, s = a ++ lstrip s.
Proof.
  induction s as [|x s [a IH]]; [now exists []|]. cbn [lstrip].
  destruct (isspace x); [|now exists []].
  exists (x :: a). cbn. now f_equal.
Qed.

Lemma rstrip_prefix (s : str) : exists b, s = rstrip s ++ b.
Proof.
  unfold rstrip. destruct (lstrip_suffix (rev s)) as [a Ha].
  exists (rev a). rewrite <- rev_app_distr, <- Ha. now rewrite rev_involutive.
Qed.

Lemma strip_infix (s : str) : exists a b, s = a ++ strip s ++ b.
Proof.
  unfold strip. destruct (lstrip_suffix s) as [a Ha].
  destruct (rstrip_prefix (lstrip s)) as [b Hb].
  exists a, b. now rewrite <- Hb.
Qed.

Lemma no_double_infix (r : N) (a m b : str) :
  no_double r (a ++ m ++ b) -> no_double r m.
Proof.
  induction a as [|x a IH]; cbn [app].
  - revert b. induction m as [|y m IHm]; intros b; [intros; exact I|].
    cbn [app no_double]. intros [Hy Hm]. split; [|now apply (IHm b)].
    destruct m as [|z m]; [exact I | exact Hy].
  - cbn [no_double]. intros [_ Ha]. now apply IH.
Qed.

Lemma breaks_capped_more (s : str) (k k' : nat) :
  k <= k' -> breaks_capped k s -> breaks_capped k' s.
Proof.
  revert k k'. induction s as [|c s IH]; intros k k' Hle; [auto|].
  cbn [breaks_capped]. destruct (c =? NL)%N; [|auto].
  destruct k as [|k]; [intros []|]. destruct k' as [|k']; [lia|].
  apply IH. lia.
Qed.

Lemma breaks_capped_infix (a m b : str) (k : nat) :
  k <= 2 -> breaks_capped k (a ++ m ++ b) -> breaks_capped 2 m.
Proof.
  revert k. induction a as [|x a IH]; intros k Hk; cbn [app].
  - intros Hm. apply (breaks_capped_more _ k 2 Hk).
    revert k Hk Hm. induction m as [|y m IHm]; intros k Hk; [intros; exact I|].
    cbn [app breaks_capped]. destruct (y =? NL)%N.
    + destruct k as [|k]; [intros []|]. apply IHm. lia.
    + apply IHm. lia.
  - cbn [breaks_capped]. destruct (x =? NL)%N.
    + destruct k as [|k]; [intros []|]. apply IH. lia.
    + apply IH. lia.
Qed.

Lemma strip_chars (s : str) (c : N) : In c (strip s) -> In c s.
Proof.
  destruct (strip_infix s) as (a & b & E). intros Hin. rewrite E.
  apply in_or_app. right. apply in_or_app. now left.
Qed.

(** *** Capped line breaks: [\n{3,}] replaced by two line breaks *)

Lemma replace_matches_skip (f : str -> nat) (repl xs : str) (n : nat) :
  replace_matches f repl xs n = replace_matches f repl (skipn n xs) 0.
Proof.
  revert xs. induction n as [|n IH]; intros xs; [reflexivity|].
  destruct xs as [|x xs]; [reflexivity|]. cbn [replace_matches skipn]. apply IH.
Qed.

Lemma cap_newlines_run (xs : str) (k : nat) :
  cap_newlines k xs
  = repeat NL (Nat.min (run (chr NL) xs) (2 - k))
    ++ cap_newlines 0 (skipn (run (chr NL) xs) xs).
Proof.
  revert k. induction xs as [|c s IH]; intros k.
  - cbn. now destruct (2 - k).
  - cbn [cap_newlines run]. unfold chr at 1 3. destruct (c =? NL)%N eqn:E.
    + apply N.eqb_eq in E. subst c. cbn [skipn]. rewrite (IH (S k)).
      destruct (k <? 2) eqn:Hk.
      * apply Nat.ltb_lt in Hk. replace (2 - k) with (S (2 - S k)) by lia.
        reflexivity.
      * apply Nat.ltb_ge in Hk. replace (2 - k) with 0 by lia.
        replace (2 - S k) with 0 by lia. now rewrite !Nat.min_0_r.
    + cbn [skipn Nat.min repeat app cap_newlines]. now rewrite E.
Qed.

Lemma replace_long_runs_cap (n : nat) (xs : str) :
  length xs <= n ->
  replace_matches (run_length 3 (chr NL)) [NL; NL] xs 0 = cap_newlines 0 xs.
Proof.
  revert xs. induction n as [|n IH]; intros xs Hlen.
  - destruct xs; [reflexivity | cbn in Hlen; lia].
  - destruct xs as [|x s]; [reflexivity|]. cbn [length] in Hlen.
    cbn [replace_matches]. unfold run_length.
    destruct (3 <=? run (chr NL) (x :: s)) eqn:Hrun.
    + apply Nat.leb_le in Hrun.
      rewrite (cap_newlines_run (x :: s) 0).
      destruct (run (chr NL) (x :: s)) as [|m] eqn:Em; [lia|].
      rewrite replace_matches_skip. cbn [skipn].
      rewrite IH.
      * replace (Nat.min (S m) (2 - 0)) with 2 by lia. reflexivity.
      * pose proof (length_skipn m s). lia.
    + apply Nat.leb_gt in Hrun. rewrite IH by lia.
      cbn [cap_newlines]. cbn [run] in Hrun. unfold chr at 1 in Hrun.
      destruct (x =? NL)%N eqn:E; [|reflexivity].
      cbn [Nat.ltb Nat.leb]. apply N.eqb_eq in E. subst x. f_equal.
      rewrite (cap_newlines_run s 1), (cap_newlines_run s 0).
      f_equal. f_equal. lia.
Qed.

Lemma sub_long_runs_cap (s : str) :
  sub (Rep true 3 None (chr NL)) [NL; NL] s = cap_newlines 0 s.
Proof.
  rewrite (sub_replace_matches _ (run_length 3 (chr NL))).
  - now apply (replace_long_runs_cap (length s)).
  - apply rep_matches_by. lia.
Qed.

Lemma cap_newlines_capped (s : str) (k : nat) :
  breaks_capped (2 - k) (cap_newlines k s).
Proof.
  revert k. induction s as [|c s IH]; intros k; [exact I|].
  cbn [cap_newlines]. destruct (c =? NL)%N eqn:E.
  - destruct (k <? 2) eqn:Hk.
    + apply Nat.ltb_lt in Hk. cbn [breaks_capped]. rewrite N.eqb_refl.
      replace (2 - k) with (S (2 - S k)) by lia. apply IH.
    + apply Nat.ltb_ge in Hk. replace (2 - k) with (2 - S k) by lia. apply IH.
  - cbn [breaks_capped]. rewrite E. apply (IH 0).
Qed.

Lemma cap_newlines_chars (s : str) (k : nat) (c : N) :
  In c (cap_newlines k s) -> In c s.
Proof.
  revert k. induction s as [|x s IH]; intros k; [intros []|].
  cbn [cap_newlines]. destruct (x =? NL)%N eqn:E.
  - apply N.eqb_eq in E. subst x. destruct (k <? 2).
    + intros [<- | Hin]; [now left | right; eapply IH; eassumption].
    + intros Hin. right. eapply IH; eassumption.
  - intros [<- | Hin]; [now left | right; eapply IH; eassumption].
Qed.

Lemma cap_newlines_head (s : str) :
  match cap_newlines 0 s, s with
  | c :: _, d :: _ => c = d
  | [], [] => True
  | _, _ => False
  end.
Proof.
  destruct s as [|x s]; [exact I|]. cbn [cap_newlines].
  destruct (x =? NL)%N eqn:E; [|reflexivity].
  cbn. symmetry. now apply N.eqb_eq.
Qed.

Lemma cap_newlines_no_double (r : N) (s : str) (k : nat) :
  r <> NL -> no_double r s -> no_double r (cap_newlines k s).
Proof.
  intros Hr. revert k. induction s as [|x s IH]; intros k; [auto|].
  cbn [no_double cap_newlines]. intros [Hx Hs].
  destruct (x =? NL)%N eqn:E.
  - destruct (k <? 2); [|now apply IH].
    cbn [no_double]. split; [|now apply IH].
    destruct (cap_newlines (S k) s); [exact I|]. intros [E' _]. congruence.
  - cbn [no_double]. split; [|now apply IH].
    pose proof (cap_newlines_head s) as Hh.
    destruct (cap_newlines 0 s) as [|c t]; [exact I|].
    destruct s as [|d s']; [destruct Hh|]. now subst c.
Qed.

(** *** Fixed points of the single steps *)

Lemma replace_char_chars (a b : N) (s : str) (c : N) :
  In c (replace_char a b s) -> (c = b \/ In c s) /\ (a <> b -> c <> a).
Proof.
  unfold replace_char. intros Hin. apply in_map_iff in Hin.
  destruct Hin as (x & Hx & Hin). destruct (x =? a)%N eqn:E.
  - subst c. split; [now left | congruence].
  - subst c. split; [now right|]. intros _. now apply N.eqb_neq.
Qed.

Lemma replace_char_fixed (a b : N) (s : str) :
  Forall (fun c => c <> a) s -> replace_char a b s = s.
Proof.
  unfold replace_char. induction 1 as [|x s Hx _ IH]; [reflexivity|].
  cbn [map]. apply N.eqb_neq in Hx. rewrite Hx. now f_equal.
Qed.

Lemma cap_newlines_fixed (s : str) (k : nat) :
  k <= 2 -> breaks_capped k s -> cap_newlines (2 - k) s = s.
Proof.
  revert k. induction s as [|c s IH]; intros k Hk; [reflexivity|].
  cbn [breaks_capped cap_newlines]. destruct (c =? NL)%N eqn:E.
  - destruct k as [|k]; [intros []|]. intros Hs.
    apply N.eqb_eq in E. subst c.
    replace (2 - S k <? 2) with true by (symmetry; apply Nat.ltb_lt; lia).
    f_equal. replace (S (2 - S k)) with (2 - k) by lia. apply IH; [lia | exact Hs].
  - intros Hs. f_equal. now apply (IH 2).
Qed.

Lemma blanks_single (s : str) (d : N) :
  Forall (fun c => c <> TAB) s -> no_double 32 s ->
  (s <> [] -> oneof [32; 9]%N (last s d) = false) ->
  single (oneof [32; 9]%N) 32 s.
Proof.
  induction 1 as [|c s Hc Hs IH]; [intros; exact I|].
  cbn [no_double single]. intros [Hd Hn] Hlast. split.
  - intros Hp. assert (c = 32%N) as ->.
    { unfold oneof in Hp. cbn in Hp. rewrite Bool.orb_false_r in Hp.
      apply Bool.orb_true_iff in Hp. destruct Hp as [Hp | Hp];
        apply N.eqb_eq in Hp; [exact Hp | now elim Hc]. }
    split; [reflexivity|]. destruct s as [|e s'].
    + cbn in Hlast. now specialize (Hlast ltac:(discriminate)).
    + apply Forall_inv in Hs. unfold oneof. cbn. rewrite Bool.orb_false_r.
      apply Bool.orb_false_iff. split; apply N.eqb_neq; [|exact Hs].
      intros ->. now apply Hd.
  - apply IH; [exact Hn|]. intros Hne. destruct s as [|e s']; [now elim Hne|].
    apply Hlast. discriminate.
Qed.

Lemma isspace_blank (c : N) : isspace c = false -> oneof [32; 9]%N c = false.
Proof.
  intros Hc. unfold oneof. cbn. rewrite Bool.orb_false_r.
  apply Bool.orb_false_iff.
  split; apply N.eqb_neq; intros ->; vm_compute in Hc; discriminate Hc.
Qed.

Section NormalizerShape.
Variable nfc : str -> str.

(** What the steps of [normalize_text] leave of the text. *)
Lemma normalize_text_shape (s : str) :
  stripped (normalize_text nfc s)
  /\ Forall (fun c => c <> NBSP /\ c <> TAB) (normalize_text nfc s)
  /\ no_double 32 (normalize_text nfc s)
  /\ breaks_capped 2 (normalize_text nfc s)
  /\ (forall c, In c (normalize_text nfc s) -> c = 32%N \/ In c (nfc s)).
Proof.
  unfold normalize_text.
  replace (U " ") with [32%N] by reflexivity.
  rewrite sub_plus_squeeze, sub_long_runs_cap.
  set (t := squeeze _ _ _ _).
  assert (Ht : forall c, In c t ->
            (c = 32%N \/ In c (nfc s)) /\ c <> NBSP /\ c <> TAB).
  { intros c Hin. apply squeeze_chars in Hin.
    destruct Hin as [-> | [Hin Hp]].
    - split; [now left | split; discriminate].
    - apply replace_char_chars in Hin. destruct Hin as [Hin Hne]. split.
      + exact Hin.
      + split; [apply Hne; discriminate|].
        intros ->. vm_compute in Hp. discriminate Hp. }
  destruct (strip_infix (cap_newlines 0 t)) as (a & b & E).
  split; [apply strip_stripped|]. split; [|split; [|split]].
  - apply Forall_forall. intros c Hin.
    apply strip_chars, cap_newlines_chars in Hin. now apply Ht.
  - apply (no_double_infix _ a _ b). rewrite <- E.
    apply cap_newlines_no_double; [discriminate|].
    apply (squeeze_no_double _ _ eq_refl).
  - apply (breaks_capped_infix a _ b 2 (Nat.le_refl _)). rewrite <- E.
    apply (cap_newlines_capped t 0).
  - intros c Hin. apply strip_chars, cap_newlines_chars in Hin. now apply Ht.
Qed.

(** A text of that shape which NFC leaves alone is left alone. *)
Lemma normalize_text_fixed (t : str) :
  nfc t = t -> stripped t -> Forall (fun c => c <> NBSP /\ c <> TAB) t ->
  no_double 32 t -> breaks_capped 2 t ->
  normalize_text nfc t = t.
Proof.
  intros Hnfc Hstr Hch Hnd Hbr. unfold normalize_text. rewrite Hnfc.
  replace (U " ") with [32%N] by reflexivity.
  rewrite sub_plus_squeeze, sub_long_runs_cap.
  rewrite replace_char_fixed.
  2:{ eapply Forall_impl; [|exact Hch]. now intros c [Hc _]. }
  rewrite squeeze_fixed.
  2:{ destruct t as [|c t'] eqn:Et; [exact I|]. rewrite <- Et in *.
      apply (blanks_single t c).
      - eapply Forall_impl; [|exact Hch]. now intros x [_ Hx].
      - exact Hnd.
      - intros _. apply isspace_blank. subst t. now destruct Hstr. }
  pose proof (cap_newlines_fixed t 2 (Nat.le_refl _) Hbr) as Ecap.
  cbn [Nat.sub] in Ecap. rewrite Ecap.
  now apply strip_of_stripped.
Qed.

(** [X17] [normalize_text] (normalizer.py): the result has no white space
    at either end, holds no no-break space and no tab, never two spaces
    in a row and never more than two line breaks in a row, and each of
    its characters is a space or a character of the NFC form of the
    input. *)
Theorem normalize_text_normal_form (s : str) :
  stripped (normalize_text nfc s)
  /\ Forall (fun c => c <> NBSP /\ c <> TAB) (normalize_text nfc s)
  /\ no_double 32 (normalize_text nfc s)
  /\ breaks_capped 2 (normalize_text nfc s)
  /\ (forall c, In c (normalize_text nfc s) -> c = 32%N \/ In c (nfc s)).
Proof. apply normalize_text_shape. Qed.

(** [X18] [normalize_text] (normalizer.py) is idempotent on every input
    whose result NFC leaves alone: normalising the result again gives the
    result. *)
Theorem normalize_text_idempotent (s : str) :
  nfc (normalize_text nfc s) = normalize_text nfc s ->
  normalize_text nfc (normalize_text nfc s) = normalize_text nfc s.
Proof.
  intros Hnfc. destruct (normalize_text_shape s) as (H1 & H2 & H3 & H4 & _).
  now apply normalize_text_fixed.
Qed.

End NormalizerShape.

(** An ASCII input, on which NFC is the identity. *)
Lemma normalize_text_idempotent_witness :
  normalize_text (fun s => s)
    (normalize_text (fun s => s) (U "  Article 1 	 text  "))
  = normalize_text (fun s => s) (U "  Article 1 	 text  ").
Proof. apply (normalize_text_idempotent (fun s => s)). reflexivity. Defined.

(** *** The segmenter's own normalisation *)

Section SegmenterNormalize.
Context `{Unicode}.

(** [X19] [_normalize_text] (segmenter.py): the result holds no carriage
    return and no tab, never two spaces in a row, and each of its
    characters is a space, a line break or a character of the input. *)
Theorem _normalize_text_chars (text : str) :
  Forall (fun c => c <> CR /\ c <> TAB) (_normalize_text text)
  /\ no_double 32 (_normalize_text text)
  /\ (forall c, In c (_normalize_text text) ->
        c = 32%N \/ c = NL \/ In c text).
Proof.
  unfold _normalize_text. rewrite sub_plus_squeeze, sub_cr.
  set (t1 := sub (lit [CR; NL]) [NL] (strip text)).
  set (t3 := sub _ [NL; NL] _).
  assert (H1 : forall c, In c t1 -> c = NL \/ In c text).
  { intros c Hin. apply sub_chars in Hin. destruct Hin as [Hin | [<- | []]].
    - right. now apply strip_chars.
    - now left. }
  assert (H3 : forall c, In c t3 -> (c = NL \/ In c text) /\ c <> CR).
  { intros c Hin. apply sub_chars in Hin.
    destruct Hin as [Hin | [<- | [<- | []]]].
    - apply replace_char_chars in Hin. destruct Hin as [[-> | Hin] Hne].
      + split; [now left | discriminate].
      + split; [now apply H1 | apply Hne; discriminate].
    - split; [now left | discriminate].
    - split; [now left | discriminate]. }
  assert (H4 : forall c, In c (squeeze (oneof [32; 9]%N) 32 false t3) ->
            (c = 32%N \/ c = NL \/ In c text) /\ c <> CR /\ c <> TAB).
  { intros c Hin. apply squeeze_chars in Hin.
    destruct Hin as [-> | [Hin Hp]].
    - split; [now left | split; discriminate].
    - destruct (H3 c Hin) as [Hc Hcr]. split; [now right|].
      split; [exact Hcr|]. intros ->. vm_compute in Hp. discriminate Hp. }
  split; [|split].
  - apply Forall_forall. intros c Hin. now apply H4.
  - apply (squeeze_no_double _ _ eq_refl).
  - intros c Hin. now apply H4.
Qed.

End SegmenterNormalize.

(* ================================================================== *)
(** ** The driver *)

(** *** Document identifiers *)

Lemma processed_in (processed_ids : list str) (doc_id : str) :
  processed processed_ids doc_id = true <-> In doc_id processed_ids.
Proof.
  unfold processed. rewrite existsb_exists. split.
  - intros (x & Hx & E). apply str_eqb_eq in E. now subst x.
  - intros Hin. exists doc_id. split; [exact Hin | apply str_eqb_refl].
Qed.

Lemma candidate_inj (base_id : str) (j j' : nat) :
  candidate base_id j = candidate base_id j' -> j = j'.
Proof.
  destruct j as [|j], j' as [|j']; cbn [candidate]; intros E.
  - reflexivity.
  - apply (f_equal (@length N)) in E. rewrite !length_app in E. cbn in E. lia.
  - apply (f_equal (@length N)) in E. rewrite !length_app in E. cbn in E. lia.
  - apply app_inv_head in E. apply app_inv_head in E.
    now apply str_of_nat_inj.
Qed.

Lemma candidates_nodup (base_id : str) (l : list nat) :
  NoDup l -> NoDup (map (candidate base_id) l).
Proof.
  induction 1 as [|j l Hj _ IH]; cbn [map]; constructor; [|exact IH].
  intros Hin. apply in_map_iff in Hin. destruct Hin as (j' & E & Hj').
  apply candidate_inj in E. now subst j'.
Qed.

(** The loop stops at the first candidate that is free. *)
Lemma unique_id_first (fuel : nat) (processed_ids : list str) (base_id : str)
    (j m : nat) :
  j <= m -> m < j + fuel ->
  ~ In (candidate base_id m) processed_ids ->
  (forall i, j <= i < m -> In (candidate base_id i) processed_ids) ->
  unique_id fuel processed_ids base_id (candidate base_id j) (S j)
  = Some (candidate base_id m).
Proof.
  revert j. induction fuel as [|fuel IH]; intros j Hjm Hm Hfree Hbusy; [lia|].
  cbn [unique_id].
  destruct (processed processed_ids (candidate base_id j)) eqn:E.
  - apply processed_in in E.
    assert (j <> m) by (intros ->; contradiction).
    rewrite Nat.add_1_r. apply (IH (S j)); [lia | lia | exact Hfree|].
    intros i Hi. apply Hbusy. lia.
  - assert (j = m) as ->; [|reflexivity].
    destruct (Nat.eq_dec j m) as [E' | Hne]; [exact E' | exfalso].
    assert (Hin : In (candidate base_id j) processed_ids)
      by (apply Hbusy; lia).
    apply processed_in in Hin. congruence.
Qed.

Lemma candidate_search (processed_ids : list str) (base_id : str) (n : nat) :
  (forall i, i < n -> In (candidate base_id i) processed_ids)
  \/ (exists m, m < n /\ ~ In (candidate base_id m) processed_ids
                /\ forall i, i < m -> In (candidate base_id i) processed_ids).
Proof.
  induction n as [|n [IH | (m & Hm & Hfree & Hbusy)]].
  - left. intros i Hi. lia.
  - destruct (in_dec (list_eq_dec N.eq_dec) (candidate base_id n) processed_ids)
      as [Hin | Hout].
    + left. intros i Hi. destruct (Nat.eq_dec i n) as [-> | Hne];
        [exact Hin | apply IH; lia].
    + right. exists n. split; [lia|]. split; [exact Hout | exact IH].
  - right. exists m. split; [lia|]. now split.
Qed.

(** Among the first [length processed_ids + 1] candidates one is free. *)
Lemma free_candidate (processed_ids : list str) (base_id : str) :
  exists m, m <= length processed_ids
            /\ ~ In (candidate base_id m) processed_ids
            /\ forall i, i < m -> In (candidate base_id i) processed_ids.
Proof.
  destruct (candidate_search processed_ids base_id (S (length processed_ids)))
    as [Hall | (m & Hm & Hfree & Hbusy)].
  - exfalso.
    assert (Hnd : NoDup (map (candidate base_id) (seq 0 (S (length processed_ids))))).
    { apply candidates_nodup, seq_NoDup. }
    apply (NoDup_incl_length (l' := processed_ids)) in Hnd.
    + rewrite length_map, length_seq in Hnd. lia.
    + intros x Hx. apply in_map_iff in Hx. destruct Hx as (i & <- & Hi).
      apply in_seq in Hi. apply Hall. lia.
  - exists m. split; [lia|]. now split.
Qed.

Lemma unique_id_total (fuel : nat) (processed_ids : list str) (base_id : str) :
  length processed_ids < fuel ->
  exists m, unique_id fuel processed_ids base_id base_id 1
            = Some (candidate base_id m)
            /\ ~ In (candidate base_id m) processed_ids
            /\ forall i, i < m -> In (candidate base_id i) processed_ids.
Proof.
  intros Hfuel.
  destruct (free_candidate processed_ids base_id) as (m & Hm & Hfree & Hbusy).
  exists m. split; [|now split].
  apply (unique_id_first fuel processed_ids base_id 0 m);
    [lia | lia | exact Hfree|].
  intros i Hi. apply Hbusy. lia.
Qed.

Lemma doc_ids_from (raw : list RawDoc) (fuel : nat) (processed_ids : list str)
    (i0 : nat) :
  length processed_ids + length raw <= fuel ->
  exists ids,
    doc_ids fuel processed_ids i0 raw = Some ids
    /\ length ids = length raw
    /\ NoDup ids
    /\ (forall doc_id, In doc_id ids -> ~ In doc_id processed_ids)
    /\ forall i d, nth_error raw i = Some d ->
         exists j,
           nth_error ids i = Some (candidate (base_id_of (i0 + i) d) j)
           /\ forall j', j' < j ->
                In (candidate (base_id_of (i0 + i) d) j')
                   (firstn i ids ++ processed_ids).
Proof.
  revert processed_ids i0.
  induction raw as [|d raw IH]; intros processed_ids i0 Hfuel.
  - exists []. repeat split; [constructor | intros _ [] |].
    intros [|i] d; discriminate.
  - cbn [length] in Hfuel. cbn [doc_ids].
    destruct (unique_id_total fuel processed_ids (base_id_of i0 d))
      as (m & -> & Hfree & Hbusy); [lia|].
    set (doc_id := candidate (base_id_of i0 d) m) in *.
    destruct (IH (doc_id :: processed_ids) (S i0))
      as (ids & -> & Hlen & Hnd & Hnew & Hnth); [cbn [length]; lia|].
    exists (doc_id :: ids). split; [reflexivity|].
    split; [cbn [length]; now rewrite Hlen|].
    split; [constructor; [|exact Hnd]; intros Hin;
            apply (Hnew doc_id Hin); now left|].
    split.
    + intros x [<- | Hin]; [exact Hfree|].
      intros Hx. apply (Hnew x Hin). now right.
    + intros [|i] d' Hd; cbn [nth_error] in Hd.
      * injection Hd as <-. exists m. rewrite Nat.add_0_r.
        split; [reflexivity|]. intros j' Hj'. cbn [firstn app]. now apply Hbusy.
      * destruct (Hnth i d' Hd) as (j & Hj & Hbefore).
        exists j. rewrite Nat.add_succ_r. split; [exact Hj|].
        intros j' Hj'. specialize (Hbefore j' Hj').
        cbn [firstn app]. apply in_app_or in Hbefore.
        destruct Hbefore as [Hin | [E | Hin]].
        -- right. apply in_or_app. now left.
        -- left. exact E.
        -- right. apply in_or_app. now right.
Qed.

(** [X20] The identifiers of [main] (run_preprocess.py): given as many
    tests as there are documents, the loop [while doc_id in processed_ids]
    ends for every document, and the identifiers are pairwise distinct;
    the identifier of a document is the first of [base_id], [base_id_1],
    [base_id_2], ... that no earlier document has. *)
Theorem doc_ids_distinct (raw : list RawDoc) (fuel : nat) :
  length raw <= fuel ->
  exists ids,
    doc_ids fuel [] 0 raw = Some ids
    /\ length ids = length raw
    /\ NoDup ids
    /\ forall i d, nth_error raw i = Some d ->
         exists j,
           nth_error ids i = Some (candidate (base_id_of i d) j)
           /\ forall j', j' < j ->
                In (candidate (base_id_of i d) j') (firstn i ids).
Proof.
  intros Hfuel.
  destruct (doc_ids_from raw fuel [] 0 Hfuel) as (ids & E & Hlen & Hnd & _ & Hnth).
  exists ids. repeat split; try assumption.
  intros i d Hd. destruct (Hnth i d Hd) as (j & Hj & Hbefore).
  exists j. split; [exact Hj|]. intros j' Hj'.
  specialize (Hbefore j' Hj'). now rewrite app_nil_r in Hbefore.
Qed.

(** Two documents of the same number. *)
Lemma doc_ids_distinct_witness :
  exists ids,
    doc_ids 2 [] 0
      [ {| raw_content := None; raw_number := Some (U "01/2020/ND-CP");
           raw_url := None |};
        {| raw_content := None; raw_number := Some (U "01/2020/ND-CP");
           raw_url := None |} ]
    = Some ids /\ NoDup ids.
Proof.
  destruct (doc_ids_distinct
              [ {| raw_content := None; raw_number := Some (U "01/2020/ND-CP");
                   raw_url := None |};
                {| raw_content := None; raw_number := Some (U "01/2020/ND-CP");
                   raw_url := None |} ] 2 (le_n 2))
    as (ids & E & _ & Hnd & _).
  exists ids. split; [exact E | exact Hnd].
Defined.

(** *** The characters of an identifier *)

Lemma uint_codes_digits (d : Decimal.uint) :
  Forall (fun c => (48 <= c <= 57)%N) (uint_codes d).
Proof. induction d; cbn [uint_codes]; constructor; auto; lia. Qed.

Lemma str_of_nat_digits (n : nat) :
  Forall (fun c => (48 <= c <= 57)%N) (str_of_nat n).
Proof. unfold str_of_nat. rewrite U_uint. apply uint_codes_digits. Qed.

Lemma split_pieces (sep : N) (s piece : str) :
  In piece (split sep s) ->
  ~ In sep piece /\ forall c, In c piece -> In c s.
Proof.
  revert piece. induction s as [|x s IH]; intros piece; cbn [split].
  - intros [<- | []]. split; [intros [] | intros c []].
  - destruct (x =? sep)%N eqn:E.
    + intros [<- | Hin]; [split; [intros [] | intros c []]|].
      destruct (IH _ Hin) as [Hsep Hsub]. split; [exact Hsep|].
      intros c Hc. right. now apply Hsub.
    + apply N.eqb_neq in E. destruct (split sep s) as [|l ls] eqn:Es.
      * intros [<- | []]. split; [intros [-> | []]; now elim E|].
        intros c [<- | []]. now left.
      * intros [<- | Hin].
        -- destruct (IH l (or_introl eq_refl)) as [Hsep Hsub]. split.
           ++ intros [-> | Hin]; [now elim E | contradiction].
           ++ intros c [<- | Hc]; [now left | right; now apply Hsub].
        -- destruct (IH piece (or_intror Hin)) as [Hsep Hsub].
           split; [exact Hsep|]. intros c Hc. right. now apply Hsub.
Qed.

Lemma last_in_or_default {X} (l : list X) (d : X) :
  In (last l d) l \/ last l d = d.
Proof.
  induction l as [|x l IH]; [now right|].
  destruct l as [|y l]; [left; now left|].
  destruct IH as [IH | IH]; [left; now right | now right].
Qed.

Lemma url_stem_plain (url : str) :
  Forall (fun c => c <> SLASH /\ c <> FULL_STOP)
         (hd [] (split FULL_STOP (last (split SLASH url) []))).
Proof.
  set (tail := last (split SLASH url) []).
  assert (Htail : ~ In SLASH tail).
  { destruct (last_in_or_default (split SLASH url) []) as [Hin | E].
    - now apply split_pieces in Hin.
    - fold tail in E. rewrite E. intros []. }
  assert (Hstem : forall piece, In piece (split FULL_STOP tail) ->
            Forall (fun c => c <> SLASH /\ c <> FULL_STOP) piece).
  { intros piece Hin. apply split_pieces in Hin. destruct Hin as [Hsep Hsub].
    apply Forall_forall. intros c Hc. split; intros ->.
    - apply Htail. now apply Hsub.
    - contradiction. }
  destruct (split FULL_STOP tail) as [|piece ps]; [constructor|].
  apply Hstem. now left.
Qed.

Lemma base_id_plain (i : nat) (d : RawDoc) :
  Forall (fun c => c <> SLASH /\ c <> FULL_STOP) (base_id_of i d).
Proof.
  unfold base_id_of. destruct (truthy _).
  - apply Forall_forall. intros c Hc.
    apply replace_char_chars in Hc. destruct Hc as [Hc Hdot].
    split; [|apply Hdot; discriminate].
    destruct Hc as [-> | Hc]; [discriminate|].
    apply replace_char_chars in Hc. destruct Hc as [[-> | Hc] _]; [discriminate|].
    apply replace_char_chars in Hc. destruct Hc as [_ Hslash].
    apply Hslash. discriminate.
  - destruct (contains _ _); [apply url_stem_plain|].
    apply Forall_app. split; [vm_compute; repeat constructor; discriminate|].
    eapply Forall_impl; [|apply str_of_nat_digits].
    intros c Hc. unfold SLASH, FULL_STOP. split; intros ->; lia.
Qed.

(** [X21] An identifier of [main] (run_preprocess.py) holds no slash and
    no full stop, whatever the number or URL of the document: the file
    name made of it names a file of the output directory itself. *)
Theorem doc_id_plain (i : nat) (d : RawDoc) (j : nat) :
  Forall (fun c => c <> SLASH /\ c <> FULL_STOP) (candidate (base_id_of i d) j).
Proof.
  destruct j as [|j]; cbn [candidate]; [apply base_id_plain|].
  apply Forall_app. split; [apply base_id_plain|].
  apply Forall_app. split; [vm_compute; repeat constructor; discriminate|].
  eapply Forall_impl; [|apply str_of_nat_digits].
  intros c Hc. unfold SLASH, FULL_STOP. split; intros ->; lia.
Qed.

(** *** The diff of a document with its raw content *)

Lemma original_index (raw_content : str) :
  _kv_index (original_structure raw_content)
  = [(original_key, _norm_text (excerpt raw_content))].
Proof. reflexivity. Qed.

Lemma index_article_ids (struct : Structure) (k : key) (v : str) :
  In (k, v) (_kv_index struct) ->
  exists a, In a (articles struct) /\ fst k = _article_id a.
Proof.
  rewrite _kv_index_writes. intros Hin. apply dict_update_items in Hin.
  destruct Hin as [[] | Hin]. apply in_flat_map in Hin.
  destruct Hin as (a & Ha & Hw). exists a. split; [exact Ha|].
  now apply article_writes_key in Hw.
Qed.

(** [X22] The diff [main] (run_preprocess.py) writes for a document none
    of whose articles goes by the identifier "Section Original" compares
    nothing: every clause of the structure is reported as added, in the
    order of the index, and the one clause of the raw content as
    deleted. *)
Theorem original_vs_processed_all_new (raw_content : str) (struct : Structure) :
  articles struct <> [] ->
  Forall (fun a => _article_id a <> U "Section Original") (articles struct) ->
  original_vs_processed raw_content struct
  = Some (map (fun item => added_record (fst item) (snd item)) (_kv_index struct)
          ++ [deleted_record original_key (_norm_text (excerpt raw_content))]).
Proof.
  intros Hne Hids. unfold original_vs_processed.
  destruct (articles struct) as [|a0 arts] eqn:Ea; [now elim Hne|].
  rewrite <- Ea in Hids. f_equal. unfold diff_articles.
  rewrite original_index. f_equal.
  - apply flat_map_singletons. intros [k v] Hin. cbn [added_or_modified dict_get].
    destruct (key_eqb k original_key) eqn:E; [exfalso | reflexivity].
    apply key_eqb_eq in E. subst k.
    apply index_article_ids in Hin. destruct Hin as (a & Ha & Hid).
    rewrite Forall_forall in Hids. now apply (Hids a Ha).
  - cbn [flat_map deleted app].
    replace (dict_get (_kv_index struct) original_key) with (@None str);
      [reflexivity|].
    symmetry. rewrite _kv_index_writes, dict_get_update.
    rewrite writes_elsewhere; [reflexivity|].
    intros b Hb. rewrite Forall_forall in Hids. now apply Hids.
Qed.

Lemma original_vs_processed_all_new_witness :
  original_vs_processed (U "Phí 2 triệu") (only_articles [dieu_1])
  = Some [added_record (U "Điều 1", U "1") (U "Phí 2 triệu");
          deleted_record original_key (U "Phí 2 triệu")].
Proof.
  rewrite (original_vs_processed_all_new (U "Phí 2 triệu") (only_articles [dieu_1])).
  - vm_compute. reflexivity.
  - discriminate.
  - constructor; [vm_compute; discriminate | constructor].
Defined.

Section Driver.
Context `{Unicode}.
Variable nfc : str -> str.

(** [X23] [main] (run_preprocess.py) writes a diff for exactly the
    documents whose content is not normalised to the empty text:
    [segment] gives those at least one article, and the others none. *)
Theorem diff_written_iff (content : str) :
  original_vs_processed content (segment (normalize_text nfc content) None) = None
  <-> normalize_text nfc content = [].
Proof.
  unfold original_vs_processed. split.
  - intros Hnone.
    destruct (normalize_text nfc content) as [|c t] eqn:E; [reflexivity|exfalso].
    assert (Hne : c :: t <> []) by discriminate.
    destruct (segment_unfold (c :: t) None Hne) as (result & Hseg & Hres).
    rewrite Hseg in Hnone. cbn [articles] in Hnone.
    assert (Hlen : 1 <= length (articles result)).
    { apply (cascade_nonempty (_normalize_text (c :: t))).
      destruct Hres as [[_ E'] | [[_ E'] | [[_ E'] | (_ & _ & _ & E')]]]; auto. }
    destruct (articles result); [cbn in Hlen; lia | discriminate Hnone].
  - intros ->. reflexivity.
Qed.

(** [X24] Under [main] (run_preprocess.py) a document whose content is
    white space only, once in NFC, is answered as an empty document:
    [normalize_text] strips it to the empty text before [segment] sees
    it. *)
Theorem white_space_document_is_empty (content : str) :
  Forall (fun c => isspace c = true) (nfc content) ->
  normalize_text nfc content = []
  /\ segment (normalize_text nfc content) None = empty_result.
Proof.
  intros Hws.
  assert (E : normalize_text nfc content = []); [|now rewrite E].
  unfold normalize_text. replace (U " ") with [32%N] by reflexivity.
  rewrite sub_plus_squeeze, sub_long_runs_cap. apply strip_all_space.
  apply Forall_forall. intros c Hc.
  apply cap_newlines_chars, squeeze_chars in Hc.
  destruct Hc as [-> | [Hc _]]; [reflexivity|].
  apply replace_char_chars in Hc. destruct Hc as [[-> | Hc] _]; [reflexivity|].
  rewrite Forall_forall in Hws. now apply Hws.
Qed.

End Driver.

Lemma white_space_document_is_empty_witness :
  @segment latin_vn (normalize_text (fun s => s) [32; NL; 9; NL; 32]%N) None
  = empty_result.
Proof.
  refine (proj2 (@white_space_document_is_empty latin_vn (fun s => s)
                   [32; NL; 9; NL; 32]%N _)).
  vm_compute. repeat constructor.
Defined.

(* ================================================================== *)
(** ** Nothing is counted twice *)

(** *** Where the matcher goes *)

Lemma reach_refl (c : cursor) : reach c c.
Proof. exists []. split; [reflexivity | cbn; lia]. Qed.

Lemma reach_trans (c1 c2 c3 : cursor) : reach c1 c2 -> reach c2 c3 -> reach c1 c3.
Proof.
  intros (t1 & E1 & P1) (t2 & E2 & P2). exists (t1 ++ t2). split.
  - now rewrite E1, E2, app_assoc.
  - rewrite length_app. lia.
Qed.

Lemma reach_step (i : nat) (pv : option N) (x : N) (xs : str) :
  reach (Cursor i pv (x :: xs)) (Cursor (S i) (Some x) xs).
Proof. exists [x]. split; [reflexivity | cbn; lia]. Qed.

Lemma reach_pos (c c' : cursor) :
  reach c c' -> pos c <= pos c' /\ pos c' + length (rest c') = pos c + length (rest c).
Proof. intros (t & E & P). rewrite E, length_app. lia. Qed.

Lemma stop_reach {A} (lo : nat) (c : cursor) (k : cursor -> option A) (res : A) :
  stop lo c k = Some res -> k c = Some res.
Proof. destruct lo; [auto | discriminate]. Qed.

Lemma rep_greedy_reach {A} (p : N -> bool) (xs : str) (lo : nat) (hi : option nat)
    (i : nat) (pv : option N) (k : cursor -> option A) (res : A) :
  rep_greedy p lo hi i pv xs k = Some res ->
  exists c', reach (Cursor i pv xs) c' /\ k c' = Some res.
Proof.
  revert lo hi i pv. induction xs as [|x xs IH]; intros lo hi i pv; cbn [rep_greedy].
  - intros E. apply stop_reach in E. eexists. split; [apply reach_refl | exact E].
  - destruct (p x && can_take hi).
    + destruct (rep_greedy p (pred lo) (dec hi) (S i) (Some x) xs k) as [r|] eqn:Er.
      * intros [= <-]. destruct (IH _ _ _ _ Er) as (c' & Hc' & Hk).
        exists c'. split; [|exact Hk].
        eapply reach_trans; [apply reach_step | exact Hc'].
      * intros E. apply stop_reach in E.
        eexists. split; [apply reach_refl | exact E].
    + intros E. apply stop_reach in E.
      eexists. split; [apply reach_refl | exact E].
Qed.

Lemma rep_lazy_reach {A} (p : N -> bool) (xs : str) (lo : nat) (hi : option nat)
    (i : nat) (pv : option N) (k : cursor -> option A) (res : A) :
  rep_lazy p lo hi i pv xs k = Some res ->
  exists c', reach (Cursor i pv xs) c' /\ k c' = Some res.
Proof.
  revert lo hi i pv. induction xs as [|x xs IH]; intros lo hi i pv; cbn [rep_lazy].
  - destruct (stop lo (Cursor i pv []) k) as [r|] eqn:Es; [|discriminate].
    intros [= <-]. apply stop_reach in Es.
    eexists. split; [apply reach_refl | exact Es].
  - destruct (stop lo (Cursor i pv (x :: xs)) k) as [r|] eqn:Es.
    + intros [= <-]. apply stop_reach in Es.
      eexists. split; [apply reach_refl | exact Es].
    + destruct (p x && can_take hi); [|discriminate].
      intros E. destruct (IH _ _ _ _ E) as (c' & Hc' & Hk).
      exists c'. split; [|exact Hk].
      eapply reach_trans; [apply reach_step | exact Hc'].
Qed.

(** A pattern without groups leaves the captures as they are. *)
Lemma run_plain (r : regex) :
  plain r = true ->
  forall c g k res,
    Re.run r c g k = Some res ->
    exists c', reach c c' /\ k c' g = Some res.
Proof.
  induction r as [|p|greedy lo hi p|r1 IH1 r2 IH2|r1 IH1 r2 IH2|i r1 IH1|r1 IH1
                  |ml|ml|]; cbn [plain]; intros Hp c g k res; cbn [Re.run].
  - intros E. exists c. split; [apply reach_refl | exact E].
  - destruct c as [i pv [|x xs]]; cbn [rest pos]; [discriminate|].
    destruct (p x); [|discriminate]. intros E.
    eexists. split; [apply reach_step | exact E].
  - destruct c as [i pv xs]. cbn [rest pos prev]. destruct greedy; intros E.
    + apply rep_greedy_reach in E. exact E.
    + apply rep_lazy_reach in E. exact E.
  - apply andb_true_iff in Hp. destruct Hp as [Hp1 Hp2]. intros E.
    destruct (IH1 Hp1 _ _ _ _ E) as (c1 & Hc1 & E1).
    destruct (IH2 Hp2 _ _ _ _ E1) as (c2 & Hc2 & E2).
    exists c2. split; [eapply reach_trans; eassumption | exact E2].
  - apply andb_true_iff in Hp. destruct Hp as [Hp1 Hp2].
    destruct (Re.run r1 c g k) as [r|] eqn:E1.
    + intros [= <-]. now apply (IH1 Hp1 _ _ _ _ E1).
    + intros E2. now apply (IH2 Hp2 _ _ _ _ E2).
  - discriminate Hp.
  - destruct (Re.run r1 c g (fun c' g' => Some (c', g'))) as [[c1 g1]|] eqn:E1;
      [|discriminate].
    destruct (IH1 Hp _ _ _ _ E1) as (c' & _ & [= _ <-]).
    intros E. exists c. split; [apply reach_refl | exact E].
  - destruct (at_bol ml c); [|discriminate]. intros E.
    exists c. split; [apply reach_refl | exact E].
  - destruct (at_eol ml c); [|discriminate]. intros E.
    exists c. split; [apply reach_refl | exact E].
  - destruct (at_end c); [|discriminate]. intros E.
    exists c. split; [apply reach_refl | exact E].
Qed.

Lemma within_more (n n' : nat) (g : caps) : n <= n' -> within n g -> within n' g.
Proof.
  intros Hn Hg. eapply Forall_impl; [|exact Hg]. cbn. intros e He. lia.
Qed.

(** What a group captures is no longer than what the pattern has consumed. *)
Lemma run_within (r : regex) :
  groups_consumed r = true ->
  forall c g k res,
    Re.run r c g k = Some res ->
    exists c' g',
      reach c c' /\ k c' g' = Some res
      /\ forall n, within n g -> within (n + (pos c' - pos c)) g'.
Proof.
  induction r as [|p|greedy lo hi p|r1 IH1 r2 IH2|r1 IH1 r2 IH2|i r1 IH1|r1 IH1
                  |ml|ml|]; cbn [groups_consumed]; intros Hp c g k res.
  1-3, 7-10:
    intros E;
    assert (Hpl : plain ltac:(match goal with
                              | E : Re.run ?r _ _ _ = _ |- _ => exact r end) = true)
      by (cbn [plain]; first [exact Hp | reflexivity]);
    destruct (run_plain _ Hpl _ _ _ _ E) as (c' & Hc' & Hk);
    exists c', g; split; [exact Hc' | split; [exact Hk|]];
    intros n Hn; eapply within_more; [|exact Hn]; lia.
  - cbn [Re.run]. apply andb_true_iff in Hp. destruct Hp as [Hp1 Hp2]. intros E.
    destruct (IH1 Hp1 _ _ _ _ E) as (c1 & g1 & Hc1 & E1 & Hg1).
    destruct (IH2 Hp2 _ _ _ _ E1) as (c2 & g2 & Hc2 & E2 & Hg2).
    exists c2, g2. split; [eapply reach_trans; eassumption|].
    split; [exact E2|]. intros n Hn.
    apply reach_pos in Hc1, Hc2.
    eapply within_more; [|apply Hg2, Hg1, Hn]. lia.
  - cbn [Re.run]. apply andb_true_iff in Hp. destruct Hp as [Hp1 Hp2].
    destruct (Re.run r1 c g k) as [r|] eqn:E1.
    + intros [= <-]. now apply (IH1 Hp1 _ _ _ _ E1).
    + intros E2. now apply (IH2 Hp2 _ _ _ _ E2).
  - cbn [Re.run]. intros E.
    destruct (IH1 Hp _ _ _ _ E) as (c1 & g1 & Hc1 & E1 & Hg1).
    exists c1, ((i, firstn (pos c1 - pos c) (rest c)) :: g1).
    split; [exact Hc1|]. split; [exact E1|].
    intros n Hn. constructor; [|now apply Hg1].
    cbn [snd]. pose proof (firstn_le_length (pos c1 - pos c) (rest c)). lia.
Qed.

Lemma get_group_within (n j : nat) (g : caps) :
  within n g -> length (get_group j g) <= n.
Proof.
  induction 1 as [|[i s] g He _ IH]; cbn [get_group length]; [lia|].
  destruct (j =? i); [exact He | exact IH].
Qed.

(** A match starts where it is attempted, ends no earlier and within the
    text, and holds its groups. *)
Lemma attempt_span (r : regex) (b : bool) (i : nat) (pv : option N) (xs : str)
    (m : mobj) :
  groups_consumed r = true ->
  attempt r b (Cursor i pv xs) = Some m ->
  m_start m = i /\ i <= m_end m /\ m_end m <= i + length xs
  /\ (forall j, length (group j m) <= m_end m - m_start m)
  /\ (b = true -> i < m_end m).
Proof.
  intros Hr. unfold attempt.
  destruct (Re.run r (Cursor i pv xs) [] _) as [[c' g']|] eqn:E; [|discriminate].
  intros [= <-]. cbn [m_start m_end pos].
  destruct (run_within r Hr _ _ _ _ E) as (c1 & g1 & Hc1 & Hk & Hg).
  cbn [pos] in Hk.
  assert (Hres : c1 = c' /\ g1 = g'
                 /\ (b = true -> pos c1 <> i)).
  { destruct (b && (pos c1 =? i)) eqn:Eb; [discriminate|].
    injection Hk as <- <-. repeat split. intros ->. cbn in Eb.
    now apply Nat.eqb_neq in Eb. }
  destruct Hres as (<- & <- & Hadv).
  apply reach_pos in Hc1. cbn [pos rest] in Hc1.
  split; [reflexivity|]. split; [lia|]. split; [lia|]. split.
  - intros j. unfold group. cbn [m_caps].
    apply get_group_within. apply (Hg 0). constructor.
  - intros Hb. specialize (Hadv Hb). lia.
Qed.

Lemma chain_lower (lo lo' n : nat) (ms : list mobj) :
  lo' <= lo -> chain lo n ms -> chain lo' n ms.
Proof.
  destruct ms as [|m ms]; [auto|]. cbn [chain]. intros Hlo (H1 & H2); split;
    [lia | exact H2].
Qed.

Lemma scan_chain (r : regex) :
  groups_consumed r = true ->
  forall xs i pv skip, chain (i + skip) (i + length xs) (scan r i pv xs skip).
Proof.
  intros Hr. induction xs as [|x xs IH]; intros i pv skip.
  - destruct skip as [|skip]; cbn [scan]; [|exact I].
    destruct (attempt r false (Cursor i pv [])) as [m|] eqn:E; [|exact I].
    apply (attempt_span r _ _ _ _ _ Hr) in E.
    destruct E as (Hs & Hle & Hend & Hg & _). cbn [length] in *.
    assert (Em : m_end m = i) by lia. rewrite Em, Nat.eqb_refl.
    cbn [chain]. repeat split; try lia; [exact Hg|].
    destruct (attempt r true (Cursor i pv [])) as [m2|] eqn:E2; [|exact I].
    apply (attempt_span r _ _ _ _ _ Hr) in E2.
    destruct E2 as (Hs2 & Hle2 & Hend2 & Hg2 & Hadv). cbn [length] in *.
    specialize (Hadv eq_refl). lia.
  - destruct skip as [|skip]; cbn [scan].
    2:{ specialize (IH (S i) (Some x) skip). cbn [length].
        replace (i + S skip) with (S i + skip) by lia.
        replace (i + S (length xs)) with (S i + length xs) by lia. exact IH. }
    assert (Hgo : forall sk lo, lo <= S i + sk ->
              chain lo (i + length (x :: xs)) (scan r (S i) (Some x) xs sk)).
    { intros sk lo Hlo. apply (chain_lower (S i + sk)); [exact Hlo|].
      cbn [length]. replace (i + S (length xs)) with (S i + length xs) by lia.
      apply IH. }
    destruct (attempt r false (Cursor i pv (x :: xs))) as [m|] eqn:E.
    2:{ apply Hgo. lia. }
    apply (attempt_span r _ _ _ _ _ Hr) in E.
    destruct E as (Hs & Hle & Hend & Hg & _).
    destruct (m_end m =? i) eqn:Em.
    + apply Nat.eqb_eq in Em. cbn [chain].
      repeat split; try lia; [exact Hg|].
      destruct (attempt r true (Cursor i pv (x :: xs))) as [m2|] eqn:E2.
      * apply (attempt_span r _ _ _ _ _ Hr) in E2.
        destruct E2 as (Hs2 & Hle2 & Hend2 & Hg2 & Hadv).
        specialize (Hadv eq_refl). cbn [chain].
        repeat split; try lia; [exact Hg2|]. apply Hgo. lia.
      * apply Hgo. lia.
    + apply Nat.eqb_neq in Em. cbn [chain].
      repeat split; try lia; [exact Hg|]. apply Hgo. lia.
Qed.

Lemma finditer_chain (r : regex) (s : str) :
  groups_consumed r = true -> chain 0 (length s) (finditer r s).
Proof. intros Hr. apply (scan_chain r Hr s 0 None 0). Qed.

(** *** Lengths *)

Lemma length_strip (s : str) : length (strip s) <= length s.
Proof.
  destruct (strip_infix s) as (a & b & E).
  apply (f_equal (@length N)) in E. rewrite !length_app in E. lia.
Qed.

Lemma length_slice (s : str) (a b : nat) : length (slice s a b) <= b - a.
Proof. unfold slice. apply firstn_le_length. Qed.

Lemma list_sum_cons (a : nat) (l : list nat) : list_sum (a :: l) = a + list_sum l.
Proof. reflexivity. Qed.

Lemma lines_weight_cons (l : str) (ls : list str) :
  lines_weight (l :: ls) = S (length l) + lines_weight ls.
Proof. reflexivity. Qed.

Lemma split_lengths (sep : N) (s : str) : lines_weight (split sep s) = S (length s).
Proof.
  induction s as [|c s IH]; [reflexivity|]. cbn [split].
  destruct (c =? sep)%N.
  - rewrite lines_weight_cons, IH. reflexivity.
  - destruct (split sep s) as [|l ls].
    + discriminate IH.
    + rewrite lines_weight_cons in *. cbn [length]. lia.
Qed.

Lemma text_length_app (a b : list Clause) :
  text_length (a ++ b) = text_length a + text_length b.
Proof. unfold text_length. now rewrite map_app, list_sum_app. Qed.

Lemma all_clauses_app (l1 l2 : list Article) :
  all_clauses (l1 ++ l2) = all_clauses l1 ++ all_clauses l2.
Proof. apply flat_map_app. Qed.

(** The groups of matches in a row are no longer together than the text
    the matches lie in. *)
Lemma chain_groups (j : nat) (ms : list mobj) (lo n : nat) :
  chain lo n ms ->
  list_sum (map (fun m => length (strip (group j m))) ms) <= n - lo.
Proof.
  revert lo. induction ms as [|m ms IH]; intros lo; cbn [chain map];
    [cbn; lia|].
  rewrite list_sum_cons.
  intros (H1 & H2 & H3 & Hg & Hms). specialize (IH _ Hms).
  pose proof (length_strip (group j m)). specialize (Hg j). lia.
Qed.

(** The text between a match and the next one. *)
Lemma chain_next (text : str) (m : mobj) (following : list mobj) (lo : nat) :
  chain lo (length text) (m :: following) ->
  chain (span_end text following) (length text) following
  /\ lo <= m_end m /\ m_end m <= span_end text following
  /\ span_end text following <= length text.
Proof.
  cbn [chain]. intros (H1 & H2 & H3 & _ & Hms).
  destruct following as [|m' ms]; cbn [span_end].
  - repeat split; try lia.
  - cbn [chain] in Hms |- *. destruct Hms as (G1 & G2 & G3 & Gg & Gms).
    repeat split; try lia; assumption.
Qed.

Lemma span_content (text : str) (m : mobj) (following : list mobj) :
  length (strip (slice text (m_end m) (span_end text following)))
  <= span_end text following - m_end m.
Proof. etransitivity; [apply length_strip | apply length_slice]. Qed.

Section Preservation.
Context `{Unicode}.

Lemma ART_LAW_groups : groups_consumed ART_LAW = true.
Proof. reflexivity. Qed.

Lemma CHAPTER_groups : groups_consumed CHAPTER = true.
Proof. reflexivity. Qed.

Lemma CLAUSE_groups : groups_consumed CLAUSE = true.
Proof. reflexivity. Qed.

Lemma ROMAN_groups : groups_consumed ROMAN = true.
Proof. reflexivity. Qed.

Lemma NUMBERED_LINE_groups : groups_consumed NUMBERED_LINE = true.
Proof. reflexivity. Qed.

Lemma numbered_line_group (line : str) (m : mobj) (j : nat) :
  rmatch NUMBERED_LINE line = Some m -> length (group j m) <= length line.
Proof.
  unfold rmatch. intros E.
  apply (attempt_span _ _ _ _ _ _ NUMBERED_LINE_groups) in E.
  destruct E as (Hs & _ & Hend & Hg & _). specialize (Hg j). lia.
Qed.

(** *** The clauses of a span *)

Lemma flush_clause_length (clauses : list Clause) (cur : option Clause) :
  text_length (flush_clause clauses cur) = clause_weight (clauses, cur).
Proof.
  unfold clause_weight. destruct cur as [c|]; cbn [flush_clause fst snd]; [|lia].
  rewrite text_length_app. unfold text_length at 2. cbn. lia.
Qed.

Lemma clause_line_weight (st : list Clause * option Clause) (line : str)
    (budget : nat) :
  st = ([], None) \/ clause_weight st + 1 <= budget ->
  clause_line st line = ([], None)
  \/ clause_weight (clause_line st line) + 1 <= budget + S (length line).
Proof.
  destruct st as [clauses cur]. intros Hst.
  assert (Hw : clause_weight (clauses, cur) <= budget).
  { destruct Hst as [[= -> ->] | Hst]; [cbn; lia | lia]. }
  unfold clause_line. pose proof (length_strip line) as Hline.
  destruct (negb (truthy (strip line))).
  { destruct Hst as [Hst | Hst]; [now left | right; lia]. }
  destruct (rmatch NUMBERED_LINE (strip line)) as [m|] eqn:Em.
  - right. apply (numbered_line_group _ _ 2) in Em.
    unfold clause_weight at 1. cbn [fst snd mk_clause text].
    rewrite flush_clause_length. lia.
  - destruct cur as [c|].
    + right. destruct Hst as [Hst | Hst]; [discriminate Hst|].
      unfold clause_weight in *. cbn [fst snd text] in *.
      rewrite !length_app. cbn [length]. change (length (U " ")) with 1. lia.
    + right. unfold clause_weight in *. cbn [fst snd mk_clause text] in *. lia.
Qed.

Lemma clause_lines_weight (lines : list str) (st : list Clause * option Clause)
    (budget : nat) :
  st = ([], None) \/ clause_weight st + 1 <= budget ->
  fold_left clause_line lines st = ([], None)
  \/ clause_weight (fold_left clause_line lines st) + 1
     <= budget + lines_weight lines.
Proof.
  revert st budget. induction lines as [|line lines IH]; intros st budget Hst;
    cbn [fold_left].
  - change (lines_weight []) with 0. destruct Hst; [now left | right; lia].
  - apply (clause_line_weight st line budget) in Hst.
    apply IH in Hst. rewrite lines_weight_cons.
    destruct Hst as [Hst | Hst]; [now left | right; lia].
Qed.

Lemma _parse_clauses_advanced_length (content : str) :
  text_length (_parse_clauses_advanced content) <= length content.
Proof.
  unfold _parse_clauses_advanced.
  destruct (negb (truthy content)); [cbn; lia|].
  pose proof (finditer_chain CLAUSE content CLAUSE_groups) as Hch.
  destruct (finditer CLAUSE content) as [|m ms].
  - pose proof (clause_lines_weight (split NL content) ([], None) 0
                  (or_introl eq_refl)) as Hw.
    rewrite split_lengths in Hw.
    destruct (fold_left clause_line (split NL content) ([], None))
      as [clauses cur].
    pose proof (flush_clause_length clauses cur) as Hf.
    assert (Hflush : text_length (flush_clause clauses cur) <= length content).
    { destruct Hw as [[= -> ->] | Hw]; [cbn; lia | lia]. }
    destruct (flush_clause clauses cur) as [|c cs]; [|exact Hflush].
    destruct (truthy content); [|cbn; lia].
    unfold text_length. cbn. lia.
  - apply (chain_groups 2) in Hch.
    unfold text_length. rewrite map_map. cbn [text].
    etransitivity; [exact Hch | lia].
Qed.

Lemma or_whole_length (cs : list Clause) (content : str) :
  text_length cs <= length content ->
  text_length (or_whole cs content) <= length content.
Proof.
  intros Hcs. unfold or_whole. destruct cs; [|exact Hcs].
  destruct (truthy content); [|cbn; lia]. unfold text_length. cbn. lia.
Qed.

End Preservation.

Section PreservationStrategies.
Context `{Unicode}.

(** *** The strategies *)

Lemma unit_clauses_length (content : str) :
  text_length (or_whole (_parse_clauses_advanced content) content)
  <= length content.
Proof. apply or_whole_length, _parse_clauses_advanced_length. Qed.

Lemma all_clauses_cons (a : Article) (l : list Article) :
  all_clauses (a :: l) = clauses a ++ all_clauses l.
Proof. reflexivity. Qed.

Lemma _segment_by_dieu_text_length (text : str) (matches : list mobj) (lo : nat) :
  chain lo (length text) matches ->
  text_length (all_clauses (_segment_by_dieu text matches)) <= length text - lo.
Proof.
  revert lo. induction matches as [|m following IH]; intros lo Hch;
    cbn [_segment_by_dieu]; [cbn; lia|].
  rewrite all_clauses_cons, text_length_app. cbn [clauses].
  destruct (chain_next text m following lo Hch) as (Hnext & H1 & H2 & H3).
  specialize (IH _ Hnext).
  pose proof (unit_clauses_length
                (strip (slice text (m_end m) (span_end text following)))) as Hu.
  pose proof (span_content text m following). lia.
Qed.

Lemma dieu_of_text_length (text : str) :
  text_length (all_clauses (_segment_by_dieu text (finditer ART_LAW text)))
  <= length text.
Proof.
  pose proof (_segment_by_dieu_text_length text _ 0
                (finditer_chain ART_LAW text ART_LAW_groups)). lia.
Qed.

Lemma in_chapter_clauses (chapter_num chapter_title : str) (l : list Article) :
  all_clauses (map (in_chapter chapter_num chapter_title) l) = all_clauses l.
Proof.
  induction l as [|a l IH]; [reflexivity|].
  cbn [map]. rewrite !all_clauses_cons, IH. reflexivity.
Qed.

Lemma _segment_by_chapters_advanced_text_length (text : str) (matches : list mobj)
    (lo : nat) :
  chain lo (length text) matches ->
  text_length (all_clauses (_segment_by_chapters_advanced text matches))
  <= length text - lo.
Proof.
  revert lo. induction matches as [|m following IH]; intros lo Hch;
    cbn [_segment_by_chapters_advanced]; [cbn; lia|].
  rewrite all_clauses_app, text_length_app.
  destruct (chain_next text m following lo Hch) as (Hnext & H1 & H2 & H3).
  specialize (IH _ Hnext).
  pose proof (span_content text m following) as Hspan.
  set (content := strip (slice text (m_end m) (span_end text following))) in *.
  assert (Hunit : forall l : list Article,
            text_length (all_clauses l) <= length content ->
            text_length (all_clauses l)
            + text_length (all_clauses (_segment_by_chapters_advanced text following))
            <= length text - lo) by (intros l Hl; lia).
  destruct (1 <=? length (finditer ART_LAW content)).
  - apply Hunit. rewrite in_chapter_clauses. apply dieu_of_text_length.
  - apply Hunit. rewrite all_clauses_cons. cbn [clauses chapter_unit all_clauses flat_map].
    rewrite app_nil_r. apply unit_clauses_length.
Qed.

Lemma law_chapters_text_length (text : str) (matches : list mobj) (lo : nat) :
  chain lo (length text) matches ->
  text_length (all_clauses (law_chapters text matches)) <= length text - lo.
Proof.
  revert lo. induction matches as [|m following IH]; intros lo Hch;
    cbn [law_chapters]; [cbn; lia|].
  rewrite all_clauses_app, text_length_app.
  destruct (chain_next text m following lo Hch) as (Hnext & H1 & H2 & H3).
  specialize (IH _ Hnext).
  pose proof (span_content text m following) as Hspan.
  set (content := strip (slice text (m_end m) (span_end text following))) in *.
  assert (Hunit : forall l : list Article,
            text_length (all_clauses l) <= length content ->
            text_length (all_clauses l)
            + text_length (all_clauses (law_chapters text following))
            <= length text - lo) by (intros l Hl; lia).
  pose proof (dieu_of_text_length content) as Hd.
  destruct (finditer ART_LAW content) as [|d ds].
  - apply Hunit. rewrite all_clauses_cons. cbn [clauses chapter_unit all_clauses flat_map].
    rewrite app_nil_r. apply _parse_clauses_advanced_length.
  - apply Hunit. rewrite in_chapter_clauses. exact Hd.
Qed.

Lemma _segment_by_roman_advanced_text_length (text : str) (matches : list mobj)
    (lo : nat) :
  chain lo (length text) matches ->
  text_length (all_clauses (_segment_by_roman_advanced text matches))
  <= length text - lo.
Proof.
  revert lo. induction matches as [|m following IH]; intros lo Hch;
    cbn [_segment_by_roman_advanced]; [cbn; lia|].
  rewrite all_clauses_cons, text_length_app. cbn [clauses section_unit].
  destruct (chain_next text m following lo Hch) as (Hnext & H1 & H2 & H3).
  specialize (IH _ Hnext).
  pose proof (unit_clauses_length
                (strip (slice text (m_end m) (span_end text following)))) as Hu.
  pose proof (span_content text m following). lia.
Qed.

(** *** The line-by-line fallback *)

Lemma save_article_length (articles : list Article) (cur : option Article) :
  text_length (all_clauses (save_article articles cur))
  = article_weight (articles, cur).
Proof.
  unfold article_weight, save_article. cbn [fst snd].
  destruct cur as [a|]; [|lia].
  destruct (clauses a) as [|c cs] eqn:E; [cbn; lia|].
  rewrite all_clauses_app, text_length_app, all_clauses_cons, E.
  cbn [all_clauses flat_map]. now rewrite app_nil_r.
Qed.

Lemma extend_last_length (cs : list Clause) (extra : str) :
  cs <> [] ->
  text_length (extend_last cs extra) = text_length cs + length extra.
Proof.
  induction cs as [|c cs IH]; [congruence|]. intros _.
  destruct cs as [|c' cs].
  - unfold text_length. cbn. rewrite length_app. lia.
  - change (extend_last (c :: c' :: cs) extra)
      with (c :: extend_last (c' :: cs) extra).
    change (text_length (c :: ?l)) with (length (text c) + text_length l).
    rewrite IH by discriminate.
    change (text_length (c :: c' :: cs))
      with (length (text c) + text_length (c' :: cs)). lia.
Qed.

Lemma group_item_weight (st : list Article * option Article) (item : bool * str)
    (budget : nat) :
  st = ([], None) \/ article_weight st + 1 <= budget ->
  article_weight (group_item st item) + 1 <= budget + S (length (snd item)).
Proof.
  destruct st as [articles cur], item as [header item_text]. intros Hst.
  assert (Hw : article_weight (articles, cur) <= budget).
  { destruct Hst as [[= -> ->] | Hst]; [cbn; lia | lia]. }
  cbn [snd]. unfold group_item. destruct header.
  - unfold article_weight at 1. cbn [fst snd clauses section_unit].
    rewrite save_article_length. change (text_length []) with 0. lia.
  - unfold article_weight at 1. cbn [fst snd clauses].
    unfold article_weight in Hw, Hst. cbn [fst snd] in Hw, Hst.
    destruct (rmatch NUMBERED_LINE item_text) as [m|] eqn:Em.
    + apply (numbered_line_group _ _ 2) in Em.
      rewrite text_length_app. unfold text_length at 3. cbn [map list_sum mk_clause text].
      destruct cur as [a|]; cbn [clauses section_unit] in *;
        [|change (text_length []) with 0]; cbn; lia.
    + destruct cur as [a|]; cbn [clauses section_unit].
      * destruct (clauses a) as [|c cs] eqn:E.
        -- unfold text_length at 2. cbn. change (text_length []) with 0 in *. lia.
        -- rewrite extend_last_length by discriminate.
           rewrite length_app. change (length (U " ")) with 1.
           destruct Hst as [Hst | Hst]; [discriminate Hst | lia].
      * unfold text_length at 2. cbn. lia.
Qed.

Lemma group_items_weight (items : list (bool * str))
    (st : list Article * option Article) (budget : nat) :
  st = ([], None) \/ article_weight st + 1 <= budget ->
  fold_left group_item items st = ([], None)
  \/ article_weight (fold_left group_item items st) + 1
     <= budget + lines_weight (map snd items).
Proof.
  revert st budget. induction items as [|item items IH]; intros st budget Hst;
    cbn [fold_left map].
  - change (lines_weight []) with 0. destruct Hst; [now left | right; lia].
  - apply (group_item_weight st item budget) in Hst.
    specialize (IH (group_item st item) _ (or_intror Hst)).
    rewrite lines_weight_cons.
    destruct IH as [IH | IH]; [now left | right; lia].
Qed.

Lemma structured_lines_weight (lines : list str) :
  lines_weight
    (map snd (flat_map (fun line =>
                          let line := strip line in
                          if truthy line then [(is_header line, line)] else [])
                       lines))
  <= lines_weight lines.
Proof.
  induction lines as [|l lines IH]; [cbn; lia|].
  cbn [flat_map]. rewrite map_app, lines_weight_cons.
  pose proof (length_strip l) as Hl. cbv zeta in *.
  destruct (truthy (strip l)); cbn [map app snd].
  - rewrite lines_weight_cons. lia.
  - lia.
Qed.

Lemma _segment_fallback_advanced_text_length (text : str) :
  text_length (all_clauses (_segment_fallback_advanced text)) <= length text.
Proof.
  unfold _segment_fallback_advanced.
  assert (Hwhole : text_length (all_clauses (whole_document text)) <= length text).
  { unfold text_length. cbn. lia. }
  assert (Hsc : scanned_articles text = []
                \/ text_length (all_clauses (scanned_articles text)) <= length text).
  { unfold scanned_articles.
    pose proof (group_items_weight (structured_lines text) ([], None) 0
                  (or_introl eq_refl)) as Hw.
    assert (Hl : lines_weight (map snd (structured_lines text))
                 <= S (length text)).
    { rewrite <- (split_lengths NL text). apply structured_lines_weight. }
    destruct (fold_left group_item (structured_lines text) ([], None))
      as [articles cur].
    destruct Hw as [[= -> ->] | Hw]; [now left|].
    right. rewrite save_article_length. lia. }
  destruct (scanned_articles text) as [|a l]; [exact Hwhole|].
  destruct Hsc as [Hsc | Hsc]; [discriminate Hsc | exact Hsc].
Qed.

End PreservationStrategies.

Section PreservationResult.
Context `{Unicode}.

(** *** The cascades *)

Lemma chapters_of_text_length (text : str) :
  text_length (all_clauses
                 (_segment_by_chapters_advanced text (finditer CHAPTER text)))
  <= length text.
Proof.
  pose proof (_segment_by_chapters_advanced_text_length text _ 0
                (finditer_chain CHAPTER text CHAPTER_groups)). lia.
Qed.

Lemma law_chapters_of_text_length (text : str) :
  text_length (all_clauses (law_chapters text (finditer CHAPTER text)))
  <= length text.
Proof.
  pose proof (law_chapters_text_length text _ 0
                (finditer_chain CHAPTER text CHAPTER_groups)). lia.
Qed.

Lemma roman_of_text_length (text : str) :
  text_length (all_clauses
                 (_segment_by_roman_advanced text (finditer ROMAN text)))
  <= length text.
Proof.
  pose proof (_segment_by_roman_advanced_text_length text _ 0
                (finditer_chain ROMAN text ROMAN_groups)). lia.
Qed.

Lemma _segment_law_document_text_length (text : str) :
  text_length (all_clauses (articles (_segment_law_document text)))
  <= length text.
Proof.
  unfold _segment_law_document.
  pose proof (dieu_of_text_length text) as Hd.
  pose proof (law_chapters_of_text_length text) as Hc.
  pose proof (_segment_fallback_advanced_text_length text) as Hf.
  destruct (2 <=? length (finditer ART_LAW text)); [exact Hd|].
  destruct (finditer CHAPTER text); [|exact Hc].
  destruct (finditer ART_LAW text); [exact Hf | exact Hd].
Qed.

Lemma _segment_decree_document_text_length (text : str) :
  text_length (all_clauses (articles (_segment_decree_document text)))
  <= length text.
Proof.
  unfold _segment_decree_document.
  pose proof (dieu_of_text_length text) as Hd.
  pose proof (chapters_of_text_length text) as Hc.
  pose proof (_segment_fallback_advanced_text_length text) as Hf.
  destruct (1 <=? length (finditer ART_LAW text)); [exact Hd|].
  destruct (finditer CHAPTER text); [exact Hf | exact Hc].
Qed.

Lemma _segment_circular_document_text_length (text : str) :
  text_length (all_clauses (articles (_segment_circular_document text)))
  <= length text.
Proof.
  unfold _segment_circular_document.
  pose proof (dieu_of_text_length text) as Hd.
  pose proof (chapters_of_text_length text) as Hc.
  pose proof (roman_of_text_length text) as Hr.
  pose proof (_segment_fallback_advanced_text_length text) as Hf.
  destruct (finditer CHAPTER text); [|exact Hc].
  destruct (finditer ART_LAW text); [|exact Hd].
  destruct (2 <=? length (finditer ROMAN text)); [exact Hr | exact Hf].
Qed.

Lemma _segment_generic_document_text_length (text : str) :
  text_length (all_clauses (articles (_segment_generic_document text)))
  <= length text.
Proof.
  unfold _segment_generic_document.
  pose proof (dieu_of_text_length text) as Hd.
  pose proof (_segment_fallback_advanced_text_length text) as Hf.
  destruct (2 <=? length (finditer ART_LAW text)); [exact Hd|].
  assert (Hc : text_length (all_clauses (_try_segment_by_chapters text))
               <= length text).
  { unfold _try_segment_by_chapters. pose proof (chapters_of_text_length text) as Hc.
    destruct (finditer CHAPTER text); [cbn; lia | exact Hc]. }
  assert (Hr : text_length (all_clauses (_try_segment_by_roman text))
               <= length text).
  { unfold _try_segment_by_roman. pose proof (roman_of_text_length text) as Hr.
    destruct (2 <=? length (finditer ROMAN text)); [exact Hr | cbn; lia]. }
  cbn [first_strategy].
  destruct (_try_segment_by_chapters text); [|exact Hc].
  change (_try_segment_by_sections text) with (@nil Article). cbv iota.
  destruct (_try_segment_by_roman text); [|exact Hr].
  destruct (_segment_fallback_advanced text); exact Hf.
Qed.

Lemma cascade_text_length (text : str) (result : Structure) :
  result = _segment_law_document text
  \/ result = _segment_decree_document text
  \/ result = _segment_circular_document text
  \/ result = _segment_generic_document text ->
  text_length (all_clauses (articles result)) <= length text.
Proof.
  intros [-> | [-> | [-> | ->]]].
  - apply _segment_law_document_text_length.
  - apply _segment_decree_document_text_length.
  - apply _segment_circular_document_text_length.
  - apply _segment_generic_document_text_length.
Qed.

(** *** The ratio *)

Lemma ratio_of_at_most_one (a b : nat) : a <= b -> (ratio_of a b <= 1)%Q.
Proof.
  intros Hab. unfold ratio_of. destruct (0 <? b) eqn:Eb; [|discriminate].
  apply Nat.ltb_lt in Eb. unfold Qle. cbn [Qnum Qden].
  rewrite Z.mul_1_r, Z.mul_1_l.
  rewrite <- (positive_nat_Z (Pos.of_nat b)), Nat2Pos.id by lia. lia.
Qed.

Lemma no_duplication_issue (r : Q) (arts : list Article) (cs : list Clause)
    (q : Q) :
  (r <= 1)%Q ->
  ~ In (Content_duplication_detected q)
       (issues_before_clauses r arts
        ++ map (fun c => Very_long_clause_detected (length (text c))) cs).
Proof.
  intros Hr Hin.
  assert (E : Qltb (13 # 10) r = false).
  { unfold Qltb. apply negb_false_iff, Qle_bool_iff.
    eapply Qle_trans; [exact Hr | discriminate]. }
  unfold issues_before_clauses in Hin. rewrite E in Hin.
  rewrite !in_app_iff in Hin.
  destruct Hin as [[Hin | [Hin | Hin]] | Hin];
    [elim_issue Hin .. | apply in_long_issues in Hin; discriminate Hin].
Qed.

(** [X25] [segment] counts no text twice.  The clause texts of a result
    are together no longer than the normalised text, whatever the document
    and whichever strategy answers: the statistics give a segmented length
    of at most the original length and a preservation ratio of at most 1,
    and the duplication warning of [_validate_segmentation] is never among
    the issues. *)
Theorem segment_counts_nothing_twice (doc_text : str) (doc_meta : option Meta) :
  text_length (all_clauses (articles (segment doc_text doc_meta)))
  <= length (_normalize_text doc_text)
  /\ exists v,
       validation (segment doc_text doc_meta) = Some v
       /\ (forall q, ~ In (Content_duplication_detected q) (issues v))
       /\ match stats v with
          | Some st =>
            segmented_length st <= original_length st
            /\ (preservation_ratio st <= 1)%Q
          | None => True
          end.
Proof.
  destruct doc_text as [|x doc_text].
  { split; [cbn; lia|]. eexists. split; [reflexivity|]. split; [|exact I].
    intros q [Hin | []]. discriminate Hin. }
  assert (Hne : x :: doc_text <> []) by discriminate.
  destruct (segment_unfold (x :: doc_text) doc_meta Hne)
    as (result & -> & Hres).
  set (text := _normalize_text (x :: doc_text)) in *.
  assert (Hlen : text_length (all_clauses (articles result)) <= length text).
  { apply cascade_text_length.
    destruct Hres as [[_ E] | [[_ E] | [[_ E] | (_ & _ & _ & E)]]]; auto. }
  cbn [articles validation]. split; [exact Hlen|].
  eexists. split; [reflexivity|].
  destruct (_validate_segmentation_closed_form text result (length text))
    as (Hi & _ & _).
  split.
  - intros q. rewrite Hi. apply no_duplication_issue.
    now apply ratio_of_at_most_one.
  - unfold _validate_segmentation. cbn [stats segmented_length original_length
                                         preservation_ratio].
    split; [exact Hlen | now apply ratio_of_at_most_one].
Qed.

End PreservationResult.

(* ================================================================== *)
(** ** A text in which nothing is detected *)






Section Unstructured.
Context `{Unicode}.







End Unstructured.



